(** * Constraint propagators of the CSP solver

    A shallow embedding of [propagators.py] (prop_BT, prop_FC, prop_FI) and of
    the cage-tuple construction of [puzzle_csp.py] (caged_csp), with the
    properties of the design document stated and settled over them.

    The propagators are written against the classes of [cspbase]
    (Variable, Constraint, CSP).  Those classes are collaborators: they are
    modelled here from their documented contract. *)

From Stdlib Require Import List ZArith Lia Bool Arith PeanoNat Permutation.
Import ListNotations.

(* ================================================================== *)
(** * The collaborator classes *)

Module CspBase.

(** Variables are Python objects compared by identity; an identity is a
    natural number.  Values are the integers of the puzzle domains. *)
Definition Var := nat.
Definition Value := Z.

(** Modelled from the spec: the state of a Variable object (class Variable
    of cspbase): its current domain, a duplicate-free sequence, and its
    optional assigned value. *)
Record VariableState : Type := mkVariable {
  curdom : list Value;
  assignedValue : option Value
}.

(** The domain store: the state of every Variable object. *)
Definition Store := Var -> VariableState.

Definition update (st : Store) (v : Var) (x : VariableState) : Store :=
  fun u => if Nat.eqb u v then x else st u.

(** Modelled from the spec: Variable.cur_domain, a fresh sequence holding
    the values of the current domain. *)
Definition cur_domain (st : Store) (v : Var) : list Value := curdom (st v).

(** Modelled from the spec: Variable.cur_domain_size. *)
Definition cur_domain_size (st : Store) (v : Var) : nat :=
  length (cur_domain st v).

(** Modelled from the spec: Variable.get_assigned_value (None when the
    variable is unassigned). *)
Definition get_assigned_value (st : Store) (v : Var) : option Value :=
  assignedValue (st v).

Definition is_assigned (st : Store) (v : Var) : bool :=
  match get_assigned_value st v with Some _ => true | None => false end.

Definition mem_value (d : Value) (l : list Value) : bool :=
  existsb (Z.eqb d) l.

Definition remove_value (d : Value) (l : list Value) : list Value :=
  filter (fun x => negb (Z.eqb d x)) l.

(** Modelled from the spec: Variable.prune_value removes the value from the
    current domain; pruning a value that is not in the current domain is a
    contract violation, which aborts the call ([None]). *)
Definition prune_value (st : Store) (v : Var) (d : Value) : option Store :=
  if mem_value d (cur_domain st v)
  then Some (update st v (mkVariable (remove_value d (cur_domain st v))
                                     (assignedValue (st v))))
  else None.

(** Modelled from the spec: Variable.restore_value puts a pruned value back
    into the current domain. *)
Definition restore_value (st : Store) (v : Var) (d : Value) : Store :=
  update st v (mkVariable (d :: cur_domain st v) (assignedValue (st v))).

(** Modelled from the spec: a Constraint object (class Constraint of
    cspbase): an ordered scope and an immutable satisfaction predicate on
    tuples aligned with the scope. *)
Record Constraint : Type := mkConstraint {
  get_scope : list Var;
  check : list Value -> bool
}.

(** Modelled from the spec: Constraint.get_unasgn_vars, the unassigned
    variables of the scope, in scope order. *)
Definition get_unasgn_vars (st : Store) (c : Constraint) : list Var :=
  filter (fun v => negb (is_assigned st v)) (get_scope c).

(** Modelled from the spec: Constraint.get_n_unasgn, the number of
    unassigned variables of the scope. *)
Definition get_n_unasgn (st : Store) (c : Constraint) : nat :=
  length (get_unasgn_vars st c).

(** All the tuples with one component out of each of the given lists. *)
Fixpoint tuples (doms : list (list Value)) : list (list Value) :=
  match doms with
  | [] => [[]]
  | d :: ds => flat_map (fun x => map (cons x) (tuples ds)) d
  end.

(** The tuples that may support [v = d] in [c]: [d] at the positions of [v],
    a value of the current domain at every other position. *)
Definition support_candidates (st : Store) (c : Constraint)
           (v : Var) (d : Value) : list (list Value) :=
  tuples (map (fun u => if Nat.eqb u v then [d] else cur_domain st u)
              (get_scope c)).

(** Modelled from the spec: Constraint.has_support, whether some combination
    of values, one per other scope variable and drawn from that variable's
    current domain, satisfies the predicate together with [v = d]. *)
Definition has_support (st : Store) (c : Constraint)
           (v : Var) (d : Value) : bool :=
  existsb (check c) (support_candidates st c v d).

(** Modelled from the spec: a CSP object (class CSP of cspbase): its
    variables and its constraints.  CSP.get_all_vars and CSP.get_all_cons
    hand out a sequence of their own, which the caller may consume. *)
Record CSP : Type := mkCSP {
  get_all_vars : list Var;
  get_all_cons : list Constraint
}.

Definition in_scope (v : Var) (c : Constraint) : bool :=
  existsb (Nat.eqb v) (get_scope c).

(** Modelled from the spec: CSP.get_cons_with_var, the constraints whose
    scope contains the variable. *)
Definition get_cons_with_var (csp : CSP) (v : Var) : list Constraint :=
  filter (in_scope v) (get_all_cons csp).

End CspBase.

Export CspBase.

(* ================================================================== *)
(** * propagators.py *)

Module Propagators.

(** The list of (Variable, Value) pairs a propagator returns. *)
Definition Trace := list (Var * Value).

(** What a propagator call does: it raises (a contract violation in a
    collaborator), or it returns its verdict and the pruned pairs, leaving
    the store in a new state. *)
Inductive outcome : Type :=
| Raised
| Returned (ok : bool) (pruned : Trace) (st : Store).

(** A loop body either goes on with its state or leaves the function. *)
Inductive flow (A : Type) : Type :=
| Next (a : A)
| Exit (o : outcome).
Arguments Next {A} a.
Arguments Exit {A} o.

(** The value a scope position contributes when the assigned values are
    collected; the propagators collect them only from assigned variables. *)
Definition assigned_or_zero (st : Store) (v : Var) : Value :=
  match get_assigned_value st v with Some a => a | None => 0%Z end.

(** ** prop_BT *)

(** [vals] of prop_BT: the assigned values in scope order. *)
Definition BT_tuple (st : Store) (c : Constraint) : list Value :=
  map (assigned_or_zero st) (get_scope c).

Fixpoint BT_cons (st : Store) (cs : list Constraint) : bool :=
  match cs with
  | [] => true
  | c :: cs' =>
      if Nat.eqb (get_n_unasgn st c) 0
      then if check c (BT_tuple st c) then BT_cons st cs' else false
      else BT_cons st cs'
  end.

Definition prop_BT (csp : CSP) (st : Store) (newVar : option Var) : outcome :=
  match newVar with
  | None => Returned true [] st
  | Some x => Returned (BT_cons st (get_cons_with_var csp x)) [] st
  end.

(** ** prop_FC *)

(** [vals] of prop_FC: [val] at the positions of [uvar], the assigned value
    elsewhere. *)
Definition FC_tuple (st : Store) (c : Constraint) (uvar : Var) (val : Value)
  : list Value :=
  map (fun var => if Nat.eqb var uvar then val else assigned_or_zero st var)
      (get_scope c).

(** The loop over the values of [uvar.cur_domain()]. *)
Fixpoint FC_values (c : Constraint) (uvar : Var) (vals : list Value)
         (st : Store) (pruned : Trace) : flow (Store * Trace) :=
  match vals with
  | [] => Next (st, pruned)
  | val :: vals' =>
      if check c (FC_tuple st c uvar val)
      then FC_values c uvar vals' st pruned
      else match prune_value st uvar val with
           | None => Exit Raised
           | Some st' => FC_values c uvar vals' st' (pruned ++ [(uvar, val)])
           end
  end.

(** The loop over the constraints. *)
Fixpoint FC_cons (cs : list Constraint) (st : Store) (pruned : Trace)
  : outcome :=
  match cs with
  | [] => Returned true pruned st
  | c :: cs' =>
      if Nat.eqb (get_n_unasgn st c) 1
      then match get_unasgn_vars st c with
           | [] => Raised
           | uvar :: _ =>
               match FC_values c uvar (cur_domain st uvar) st pruned with
               | Exit o => o
               | Next (st', pruned') =>
                   if Nat.eqb (cur_domain_size st' uvar) 0
                   then Returned false pruned' st'
                   else FC_cons cs' st' pruned'
               end
           end
      else FC_cons cs' st pruned
  end.

Definition FC_constraints (csp : CSP) (newVar : option Var)
  : list Constraint :=
  match newVar with
  | None => get_all_cons csp
  | Some x => get_cons_with_var csp x
  end.

Definition prop_FC (csp : CSP) (st : Store) (newVar : option Var) : outcome :=
  FC_cons (FC_constraints csp newVar) st [].

(** ** prop_FI *)

Definition in_queue (v : Var) (queue : list Var) : bool :=
  existsb (Nat.eqb v) queue.

(** The loop over the values of [v.cur_domain()]. *)
Fixpoint FI_values (c : Constraint) (v : Var) (ds : list Value)
         (st : Store) (pruned : Trace) : flow (Store * Trace) :=
  match ds with
  | [] => Next (st, pruned)
  | d :: ds' =>
      if has_support st c v d
      then FI_values c v ds' st pruned
      else match prune_value st v d with
           | None => Exit Raised
           | Some st' =>
               let pruned' := pruned ++ [(v, d)] in
               if Nat.eqb (cur_domain_size st' v) 0
               then Exit (Returned false pruned' st')
               else FI_values c v ds' st' pruned'
           end
  end.

(** The loop over the scope of a constraint of [w]. *)
Fixpoint FI_scope (c : Constraint) (w : Var) (vs : list Var)
         (st : Store) (pruned : Trace) (queue : list Var)
  : flow (Store * Trace * list Var) :=
  match vs with
  | [] => Next (st, pruned, queue)
  | v :: vs' =>
      if Nat.eqb v w
      then FI_scope c w vs' st pruned queue
      else
        let s := cur_domain_size st v in
        match FI_values c v (cur_domain st v) st pruned with
        | Exit o => Exit o
        | Next (st', pruned') =>
            let queue' :=
              if negb (Nat.eqb (cur_domain_size st' v) s)
                 && negb (in_queue v queue)
              then queue ++ [v] else queue in
            FI_scope c w vs' st' pruned' queue'
        end
  end.

(** The loop over the constraints of [w]. *)
Fixpoint FI_cons (w : Var) (cs : list Constraint)
         (st : Store) (pruned : Trace) (queue : list Var)
  : flow (Store * Trace * list Var) :=
  match cs with
  | [] => Next (st, pruned, queue)
  | c :: cs' =>
      match FI_scope c w (get_scope c) st pruned queue with
      | Exit o => Exit o
      | Next (st', pruned', queue') => FI_cons w cs' st' pruned' queue'
      end
  end.

(** The worklist loop [while queue], run for at most [fuel] rounds; [None]
    when the rounds are used up before the loop ends. *)
Fixpoint FI_loop (csp : CSP) (fuel : nat) (queue : list Var)
         (st : Store) (pruned : Trace) : option outcome :=
  match fuel with
  | O => None
  | S fuel' =>
      match queue with
      | [] => Some (Returned true pruned st)
      | w :: queue' =>
          match FI_cons w (get_cons_with_var csp w) st pruned queue' with
          | Exit o => Some o
          | Next (st', pruned', queue'') =>
              FI_loop csp fuel' queue'' st' pruned'
          end
      end
  end.

Definition FI_queue (csp : CSP) (newVar : option Var) : list Var :=
  match newVar with
  | None => get_all_vars csp
  | Some x => [x]
  end.

(** The variables that occur in the scope of some constraint. *)
Definition scope_vars (csp : CSP) : list Var :=
  nodup Nat.eq_dec (concat (map get_scope (get_all_cons csp))).

Definition total_size (st : Store) (vs : list Var) : nat :=
  list_sum (map (cur_domain_size st) vs).

(** A number of rounds the worklist loop never exceeds: every round takes a
    variable out of the queue, and a variable is put in only after one of
    its values has been pruned. *)
Definition FI_rounds (csp : CSP) (st : Store) (queue : list Var) : nat :=
  S (length queue + total_size st (scope_vars csp)).

Definition prop_FI (csp : CSP) (st : Store) (newVar : option Var)
  : option outcome :=
  FI_loop csp (FI_rounds csp st (FI_queue csp newVar))
          (FI_queue csp newVar) st [].

End Propagators.

Export Propagators.

(* ================================================================== *)
(** * puzzle_csp.py: the tuples of a cage *)

Module PuzzleCsp.

Definition Tuple := list Value.

(** [list(range(1, n+1))] *)
Definition dom (n : Z) : list Value :=
  map (fun i => (1 + Z.of_nat i)%Z) (seq 0 (Z.to_nat n)).

(** [itertools.product(dom, repeat=k)] *)
Definition product (d : list Value) (k : nat) : list Tuple :=
  tuples (repeat d k).

(** [itertools.permutations(t)]: every ordering of the positions of [t].
    The order in which the orderings come does not matter here, they are
    put into a set. *)
Fixpoint insert_all (x : Value) (l : Tuple) : list Tuple :=
  match l with
  | [] => [[x]]
  | y :: l' => (x :: l) :: map (cons y) (insert_all x l')
  end.

Fixpoint permutations (t : Tuple) : list Tuple :=
  match t with
  | [] => [[]]
  | x :: t' => flat_map (insert_all x) (permutations t')
  end.

Definition tuple_eq_dec : forall a b : Tuple, {a = b} + {a <> b} :=
  list_eq_dec Z.eq_dec.

(** [set(perms)] *)
Definition unique_perms (t : Tuple) : list Tuple :=
  nodup tuple_eq_dec (permutations t).

(** [perm in sat_tuples] *)
Definition mem_tuple (t : Tuple) (l : list Tuple) : bool :=
  if in_dec tuple_eq_dec t l then true else false.

(** [sum(t)] and [math.prod(t)] *)
Definition sum (t : Tuple) : Z := fold_right Z.add 0%Z t.
Definition prod (t : Tuple) : Z := fold_right Z.mul 1%Z t.

(** [(t[0] - sum(t[1:])) == cage_res]; a cage of this branch has at least
    one cell, so [t[0]] exists. *)
Definition sub_test (cage_res : Z) (t : Tuple) : bool :=
  match t with
  | [] => false
  | x :: rest => Z.eqb (x - sum rest) cage_res
  end.

(** [(t[0] / math.prod(t[1:])) == cage_res].  The values of a tuple are
    positive, the quotient is Python's true division and the target an
    integer: for the values of a puzzle grid the quotient equals the
    target exactly when the division is exact, which is what is tested
    here. *)
Definition div_test (cage_res : Z) (t : Tuple) : bool :=
  match t with
  | [] => false
  | x :: rest => Z.eqb x (cage_res * prod rest)
  end.

(** The loop [for perm in unique_perms: if perm not in sat_tuples:
    sat_tuples.append(perm)]. *)
Definition add_perms (sat_tuples : list Tuple) (t : Tuple) : list Tuple :=
  fold_left (fun acc perm => if mem_tuple perm acc then acc
                             else acc ++ [perm])
            (unique_perms t) sat_tuples.

(** The loop over the product for subtraction and division, with the test
    of the branch. *)
Definition perm_tuples (test : Tuple -> bool) (ts : list Tuple)
  : list Tuple :=
  fold_left (fun sat t => if test t then add_perms sat t else sat) ts [].

(** [sat_tuples] of a cage with [k] cells, operation [cage_op] and target
    [cage_res] on a grid of side [n]. *)
Definition cage_sat_tuples (n : Z) (k : nat) (cage_op cage_res : Z)
  : list Tuple :=
  if Z.eqb cage_op 0 then
    filter (fun t => Z.eqb (sum t) cage_res) (product (dom n) k)
  else if Z.eqb cage_op 1 then
    perm_tuples (sub_test cage_res) (product (dom n) k)
  else if Z.eqb cage_op 2 then
    perm_tuples (div_test cage_res) (product (dom n) k)
  else
    filter (fun t => Z.eqb (prod t) cage_res) (product (dom n) k).

(** Modelled from the spec: a Constraint whose predicate is an enumerated
    set of admissible tuples (Constraint.add_satisfying_tuples): [check]
    accepts the tuples of the set. *)
Definition table_constraint (scope : list Var) (sat_tuples : list Tuple)
  : Constraint :=
  mkConstraint scope (fun vals => mem_tuple vals sat_tuples).

(** The constraint caged_csp builds for a cage of a single cell, a cage
    [[cell, target_val]]: the only admissible tuple is [(target_val,)]. *)
Definition single_cell_constraint (var : Var) (target_val : Z) : Constraint :=
  table_constraint [var] [[target_val]].

(** The constraint caged_csp builds for a cage with cells [cage_vars]. *)
Definition cage_constraint (n : Z) (cage_vars : list Var)
           (cage_op cage_res : Z) : Constraint :=
  table_constraint cage_vars
    (cage_sat_tuples n (length cage_vars) cage_op cage_res).

(** ** The division branch with Python's quotient left open

    [t[0] / math.prod(t[1:])] is Python's true division of two integers, a
    floating-point number, and [== cage_res] compares that number with an
    integer.  [true_div_eq x y r] stands for the value of [x / y == r]; the
    three definitions below are the branch, the tuple set and the
    constraint of the source for any such comparison.  [exact_quotient] is
    the comparison that holds exactly when the division is exact, the one
    [div_test] makes. *)
Definition div_test_with (true_div_eq : Z -> Z -> Z -> bool)
           (cage_res : Z) (t : Tuple) : bool :=
  match t with
  | [] => false
  | x :: rest => true_div_eq x (prod rest) cage_res
  end.

Definition cage_sat_tuples_with (true_div_eq : Z -> Z -> Z -> bool)
           (n : Z) (k : nat) (cage_op cage_res : Z) : list Tuple :=
  if Z.eqb cage_op 0 then
    filter (fun t => Z.eqb (sum t) cage_res) (product (dom n) k)
  else if Z.eqb cage_op 1 then
    perm_tuples (sub_test cage_res) (product (dom n) k)
  else if Z.eqb cage_op 2 then
    perm_tuples (div_test_with true_div_eq cage_res) (product (dom n) k)
  else
    filter (fun t => Z.eqb (prod t) cage_res) (product (dom n) k).

Definition cage_constraint_with (true_div_eq : Z -> Z -> Z -> bool)
           (n : Z) (cage_vars : list Var) (cage_op cage_res : Z)
  : Constraint :=
  table_constraint cage_vars
    (cage_sat_tuples_with true_div_eq n (length cage_vars) cage_op cage_res).

Definition exact_quotient (x y r : Z) : bool := Z.eqb x (r * y).

End PuzzleCsp.

Export PuzzleCsp.

(* ================================================================== *)
(** * Notions the properties are stated with *)

Module Notions.

(** [pruning R st tr st']: pruning the pairs of [tr], in order and starting
    in [st], succeeds and ends in [st']; every pair [(v, d)] satisfies
    [R s v d] in the store [s] it is pruned from. *)
Inductive pruning (R : Store -> Var -> Value -> Prop)
  : Store -> Trace -> Store -> Prop :=
| pruning_nil : forall st, pruning R st [] st
| pruning_cons : forall st v d st1 tr st2,
    R st v d ->
    prune_value st v d = Some st1 ->
    pruning R st1 tr st2 ->
    pruning R st ((v, d) :: tr) st2.

Definition any_reason : Store -> Var -> Value -> Prop :=
  fun _ _ _ => True.

(** Why prop_FC prunes [d] from [U]: a constraint it looks at has [U] as its
    sole unassigned variable and rejects the tuple with [d] at the position
    of [U] and the assigned values elsewhere. *)
Definition FC_reason (csp : CSP) (newVar : option Var)
           (st : Store) (U : Var) (d : Value) : Prop :=
  exists c, In c (FC_constraints csp newVar)
            /\ get_unasgn_vars st c = [U]
            /\ check c (FC_tuple st c U d) = false.

(** Why prop_FI prunes [d] from [v]: a constraint of a variable [w] other
    than [v] has [v] in its scope and no support for [(v, d)]. *)
Definition FI_reason (csp : CSP)
           (st : Store) (v : Var) (d : Value) : Prop :=
  exists w c, In c (get_cons_with_var csp w)
              /\ In v (get_scope c)
              /\ v <> w
              /\ has_support st c v d = false.

(** [substituted st c U d t]: [t] is the tuple over the scope of [c] that
    has [d] at the positions of [U] and, at every other position, the
    assigned value of the variable of that position. *)
Definition substituted (st : Store) (c : Constraint) (U : Var) (d : Value)
           (t : list Value) : Prop :=
  Forall2 (fun u x => if Nat.eqb u U then x = d
                      else get_assigned_value st u = Some x)
          (get_scope c) t.

(** [c] is a constraint a propagator called with [newVar] looks at: any
    constraint without a trigger, one with the trigger in its scope
    otherwise. *)
Definition relevant (csp : CSP) (newVar : option Var) (c : Constraint)
  : Prop :=
  In c (get_all_cons csp)
  /\ match newVar with
     | None => True
     | Some x => In x (get_scope c)
     end.





(** The data-model invariant of the current domains. *)
Definition store_wf (st : Store) : Prop :=
  forall v, NoDup (cur_domain st v).

(** What the search driver does with a trace when it backtracks. *)
Definition restore_all (tr : Trace) (st : Store) : Store :=
  fold_left (fun s p => restore_value s (fst p) (snd p)) tr st.

(** [grows R st pruned s p]: the store [s] and the trace [p] come from
    [st] and [pruned] by pruning further pairs, appended to the trace. *)
Definition grows (R : Store -> Var -> Value -> Prop)
           (st : Store) (pruned : Trace) (s : Store) (p : Trace) : Prop :=
  exists tr, p = pruned ++ tr /\ pruning R st tr s.

(** A property of the store and trace an outcome returns. *)
Definition outcome_sat (Q : Store -> Trace -> Prop) (o : outcome) : Prop :=
  match o with
  | Raised => True
  | Returned _ p s => Q s p
  end.

(** A property of the store and trace a loop ends with, whether it goes on
    or leaves the function. *)
Definition flow_sat {A : Type} (view : A -> Store * Trace)
           (Q : Store -> Trace -> Prop) (f : flow A) : Prop :=
  match f with
  | Next a => Q (fst (view a)) (snd (view a))
  | Exit o => outcome_sat Q o
  end.

(** The positions of a tuple that supports [v = d] in a scope. *)
Definition supports (st : Store) (v : Var) (d : Value)
           (t : list Value) (scope : list Var) : Prop :=
  Forall2 (fun x u => if Nat.eqb u v then x = d else In x (cur_domain st u))
          t scope.

(** Two stores that hold the same state for every variable. *)
Definition store_eq (st st' : Store) : Prop := forall v, st v = st' v.

(** The test prop_FC makes on a candidate [d] of [U], as the code builds
    the tuple. *)
Definition FC_rejects (st : Store) (c : Constraint) (U : Var) (d : Value)
  : bool :=
  negb (check c (FC_tuple st c U d)).

(** ** prop_FC in the words of the design document

    For each relevant constraint with exactly one unassigned scope variable
    U: for every candidate d of U's current domain the tuple for the full
    scope is built by substituting d at U's position and each other
    variable's assigned value at its position; the candidates whose tuple
    the predicate rejects are removed and appended to the trace, as pairs
    (U, d); when no candidate is left the result is failure with the trace
    so far; otherwise the next constraint is looked at, and success with
    the full trace is the result after the last one. *)

(** The values of a list of slots, when every slot holds one. *)
Fixpoint all_values (l : list (option Value)) : option (list Value) :=
  match l with
  | [] => Some []
  | None :: _ => None
  | Some x :: l' =>
      match all_values l' with
      | Some t => Some (x :: t)
      | None => None
      end
  end.

(** The substituted tuple: [d] at U's position, the assigned value of each
    other variable at its position; there is none when another variable of
    the scope has no assigned value. *)
Definition described_tuple (st : Store) (c : Constraint) (U : Var)
           (d : Value) : option (list Value) :=
  all_values (map (fun u => if Nat.eqb u U then Some d
                            else get_assigned_value st u)
                  (get_scope c)).

(** The predicate rejects the substituted tuple. *)
Definition spec_rejects (st : Store) (c : Constraint) (U : Var) (d : Value)
  : bool :=
  match described_tuple st c U d with
  | Some t => negb (check c t)
  | None => false
  end.

Fixpoint FC_spec_cons (cs : list Constraint) (st : Store) (pruned : Trace)
  : bool * Trace * Store :=
  match cs with
  | [] => (true, pruned, st)
  | c :: cs' =>
      match get_unasgn_vars st c with
      | [U] =>
          let rejected := filter (spec_rejects st c U) (cur_domain st U) in
          let kept :=
            filter (fun d => negb (spec_rejects st c U d)) (cur_domain st U) in
          let st' := update st U (mkVariable kept (assignedValue (st U))) in
          let pruned' := pruned ++ map (pair U) rejected in
          match kept with
          | [] => (false, pruned', st')
          | _ :: _ => FC_spec_cons cs' st' pruned'
          end
      | _ => FC_spec_cons cs' st pruned
      end
  end.

Definition prop_FC_spec (csp : CSP) (st : Store) (newVar : option Var)
  : bool * Trace * Store :=
  let relevant :=
    match newVar with
    | None => get_all_cons csp
    | Some x => get_cons_with_var csp x
    end in
  FC_spec_cons relevant st [].

(** ** The fixpoint prop_FI works towards *)

(** Every value of [v] has support in [c]. *)
Definition revised (st : Store) (c : Constraint) (v : Var) : Prop :=
  forall d, In d (cur_domain st v) -> has_support st c v d = true.

(** Some variable of the scope of [c] other than [v] is in [l]. *)
Definition other_in (l : list Var) (c : Constraint) (v : Var) : Prop :=
  exists u, In u (get_scope c) /\ u <> v /\ In u l.

(** The invariant of the worklist loop.  [done] are the variables dequeued
    so far.  A variable [v] of a constraint [c] with another variable
    already dequeued has all its values supported in [c], unless another
    variable of [c] waits in the queue or the revision of [v] against [c]
    is still to come in the running round. *)
Definition FI_inv (csp : CSP) (pending : Constraint -> Var -> Prop)
           (done queue : list Var) (st : Store) : Prop :=
  forall c v,
    In c (get_all_cons csp) -> In v (get_scope c) -> other_in done c v ->
    revised st c v \/ other_in queue c v \/ pending c v.

Definition nothing_pending : Constraint -> Var -> Prop :=
  fun _ _ => False.

(** In the round of [w], before the constraints [cs] are gone through. *)
Definition pending_cons (w : Var) (cs : list Constraint)
  : Constraint -> Var -> Prop :=
  fun c v => v <> w /\ In c cs.

(** In the round of [w], within the constraint [c0], before the scope
    variables [vs] are gone through, the constraints [cs] coming next. *)
Definition pending_scope (w : Var) (cs : list Constraint)
           (c0 : Constraint) (vs : list Var) : Constraint -> Var -> Prop :=
  fun c v => v <> w /\ (In c cs \/ (c = c0 /\ In v vs)).

(** Generalized arc consistency of the constraints [cs] in a store. *)
Definition GAC (st : Store) (cs : list Constraint) : Prop :=
  forall c v, In c cs -> In v (get_scope c) -> revised st c v.

End Notions.

Export Notions.

(* ================================================================== *)
(** * Small instances *)

Module Instances.

Local Open Scope Z_scope.

Definition unassigned (dom : list Value) : VariableState :=
  mkVariable dom None.

Definition assigned (dom : list Value) (a : Value) : VariableState :=
  mkVariable dom (Some a).

(** One variable with domain {1} and a unary constraint that only admits
    the value 2, as the single-cell cages of caged_csp build them. *)
Definition only_two : Constraint := single_cell_constraint 0%nat 2.

Definition csp_unary : CSP := mkCSP [0%nat] [only_two].

Definition st_unary : Store := fun _ => unassigned [1].

(** Two variables X, Y with domain {1, ..., 4} and the constraint
    X + Y = 3. *)
Definition sum_is_three : Constraint :=
  mkConstraint [0%nat; 1%nat]
    (fun t => match t with [x; y] => x + y =? 3 | _ => false end).

Definition csp_sum : CSP := mkCSP [0%nat; 1%nat] [sum_is_three].

Definition st_sum : Store := fun _ => unassigned [1; 2; 3; 4].

(** A binary not-equal constraint. *)
Definition not_equal (a b : Var) : Constraint :=
  mkConstraint [a; b]
    (fun t => match t with [x; y] => negb (x =? y) | _ => false end).

(** The grid of side 2 with the single-cell cage [[11, 2]]: four variables
    with domain {1, 2}, different along the rows and the columns, and the
    top-left one bound to 2 by a unary constraint. *)
Definition csp_grid : CSP :=
  mkCSP [0%nat; 1%nat; 2%nat; 3%nat]
        [not_equal 0%nat 1%nat; not_equal 2%nat 3%nat;
         not_equal 0%nat 2%nat; not_equal 1%nat 3%nat;
         only_two].

Definition st_grid : Store := fun _ => unassigned [1; 2].

(** A, B, C with domain {1, 2, 3}, pairwise different, A assigned 1. *)
Definition csp_abc : CSP :=
  mkCSP [0%nat; 1%nat; 2%nat]
        [not_equal 0%nat 1%nat; not_equal 0%nat 2%nat; not_equal 1%nat 2%nat].

Definition st_abc : Store :=
  fun v => if Nat.eqb v 0%nat then assigned [1; 2; 3] 1
           else unassigned [1; 2; 3].

(** A with domain {1}, unassigned; B with domain {1, 2}, assigned 1;
    A and B different. *)
Definition csp_ab : CSP := mkCSP [0%nat; 1%nat] [not_equal 0%nat 1%nat].

Definition st_ab : Store :=
  fun v => if Nat.eqb v 0%nat then unassigned [1] else assigned [1; 2] 1.

(** X with domain {1}, assigned 1; Y with domain {1}, unassigned; X and Y
    different: a dead end. *)
Definition st_dead : Store :=
  fun v => if Nat.eqb v 0%nat then assigned [1] 1 else unassigned [1].


(** X, Y, Z, T with domain {1, 2}.  A constraint over (X, Y, Z) that asks
    for Y = Z, T = Y and T <> Z.  The search assigns X := 1, then T := 1;
    the current domain of a variable is reduced to its value when it is
    assigned. *)
Definition same_yz : Constraint :=
  mkConstraint [0%nat; 1%nat; 2%nat]
    (fun t => match t with [_; y; z] => y =? z | _ => false end).

Definition equal (a b : Var) : Constraint :=
  mkConstraint [a; b]
    (fun t => match t with [x; y] => x =? y | _ => false end).

Definition csp_xyzt : CSP :=
  mkCSP [0%nat; 1%nat; 2%nat; 3%nat]
        [same_yz; equal 3%nat 1%nat; not_equal 3%nat 2%nat].

Definition st_xyzt : Store := fun _ => unassigned [1; 2].

Definition st_xyzt_x : Store :=
  fun v => if Nat.eqb v 0%nat then assigned [1] 1 else unassigned [1; 2].

Definition st_xyzt_xt : Store :=
  fun v => if Nat.eqb v 0%nat then assigned [1] 1
           else if Nat.eqb v 3%nat then assigned [1] 1
           else unassigned [1; 2].

End Instances.

Export Instances.

(* ================================================================== *)
(** * Verdicts *)

Module Verdicts.

(** The last pair of the trace [p] took the last value of its variable. *)
Definition wiped_out (s : Store) (p : Trace) : Prop :=
  exists tr0 v d, p = tr0 ++ [(v, d)] /\ cur_domain s v = [].

(** No variable with a value in [st] is without value in [st']. *)
Definition none_emptied (st st' : Store) : Prop :=
  forall v, cur_domain st v <> [] -> cur_domain st' v <> [].

(** Every assigned variable has its current domain reduced to the assigned
    value, as when the search driver narrows the domain on assignment. *)
Definition assigned_narrowed (st : Store) : Prop :=
  forall u a d, get_assigned_value st u = Some a ->
                In d (cur_domain st u) -> d = a.

(** How a loop of prop_FI may leave the function: by raising, or with a
    failure whose last traced pair took the last value of its variable. *)
Definition exit_ok (o : outcome) : Prop :=
  match o with
  | Raised => True
  | Returned ok p s => ok = false /\ wiped_out s p
  end.

(** What a loop of prop_FI that started in [st] ends with. *)
Definition flow_verdict {A : Type} (view : A -> Store) (st : Store)
           (f : flow A) : Prop :=
  match f with
  | Next a => none_emptied st (view a)
  | Exit o => exit_ok o
  end.

(** What prop_FI, started in [st], returns. *)
Definition verdict_ok (st : Store) (o : outcome) : Prop :=
  match o with
  | Raised => True
  | Returned true _ s => none_emptied st s
  | Returned false p s => wiped_out s p
  end.

(** The variables of the pairs a loop appended to the trace [pruned] are
    all in [l]. *)
Definition traced_in (l : list Var) (pruned pruned' : Trace) : Prop :=
  exists tr, pruned' = pruned ++ tr /\ forall p, In p tr -> In (fst p) l.

End Verdicts.

Export Verdicts.

(* ================================================================== *)
(** * puzzle_csp.py: the three encodings *)

Module PuzzleGrids.

(** [range(n)] and [range(a, n)] for the loop indices. *)
Definition range (N : nat) : list nat := seq 0 N.
Definition range_from (a N : nat) : list nat := seq a (N - a).

(** [fpuzz_grid[0][0]]; an empty grid or an empty first row raises
    IndexError ([None]). *)
Definition grid_size (fpuzz_grid : list (list Z)) : option Z :=
  match fpuzz_grid with
  | (n :: _) :: _ => Some n
  | _ => None
  end.

(** The list [vars]: the Variable objects in the order of their creation,
    a variable being known by its rank in that order. *)
Definition grid_vars (count : nat) : list Var := seq 0 count.

(** [vars[idx]] for an index the loops of the grid compute, which is never
    negative. *)
Definition var_at (vars : list Var) (idx : nat) : Var := nth idx vars 0.

(** [vars[a:b]] *)
Definition slice (vars : list Var) (a b : nat) : list Var :=
  firstn (b - a) (skipn a vars).

(** [sat_tuples] of the binary not-equal constraints: the pairs [t] of
    [itertools.product(dom, dom)] with [t[0] != t[1]]. *)
Definition ne_tuples (d : list Value) : list Tuple :=
  filter (fun t => negb (Z.eqb (nth 0 t 0%Z) (nth 1 t 0%Z))) (product d 2).

(** The binary not-equal constraints of the rows, in the order of the
    loops over [i], [j] and [k]. *)
Definition ne_rows (N : nat) (vars : list Var) (sat_tuples : list Tuple)
  : list Constraint :=
  flat_map (fun i =>
    flat_map (fun j =>
      map (fun k => table_constraint
                      [var_at vars (i * N + j); var_at vars (i * N + k)]
                      sat_tuples)
          (range_from (j + 1) N))
      (range N))
    (range N).

(** The binary not-equal constraints of the columns, in the order of the
    loops over [j], [i] and [k]. *)
Definition ne_cols (N : nat) (vars : list Var) (sat_tuples : list Tuple)
  : list Constraint :=
  flat_map (fun j =>
    flat_map (fun i =>
      map (fun k => table_constraint
                      [var_at vars (i * N + j); var_at vars (k * N + j)]
                      sat_tuples)
          (range_from (i + 1) N))
      (range N))
    (range N).

(** [csp_vars]: the rows [vars[i*n : (i+1)*n]]. *)
Definition board (N : nat) (vars : list Var) : list (list Var) :=
  map (fun i => slice vars (i * N) ((i + 1) * N)) (range N).

(** binary_ne_grid: [n * n] variables, the not-equal constraints of the rows
    and then of the columns; the CSP and the board are returned. *)
Definition binary_ne_grid (fpuzz_grid : list (list Z))
  : option (CSP * list (list Var)) :=
  match grid_size fpuzz_grid with
  | None => None
  | Some n =>
      let N := Z.to_nat n in
      let vars := grid_vars (Z.to_nat (n * n)) in
      let sat_tuples := ne_tuples (dom n) in
      let cons := ne_rows N vars sat_tuples ++ ne_cols N vars sat_tuples in
      Some (mkCSP vars cons, board N vars)
  end.

(** The all-different constraints of nary_ad_grid: one per row, on
    [vars[i*n : (i+1)*n]], then one per column, on
    [[vars[i*n + j] for i in range(n)]], each with the tuples
    [itertools.permutations(dom)]. *)
Definition ad_rows (N : nat) (vars : list Var) (d : list Value)
  : list Constraint :=
  map (fun i => table_constraint (slice vars (i * N) ((i + 1) * N))
                                 (permutations d))
      (range N).

Definition ad_cols (N : nat) (vars : list Var) (d : list Value)
  : list Constraint :=
  map (fun j => table_constraint
                  (map (fun i => var_at vars (i * N + j)) (range N))
                  (permutations d))
      (range N).

Definition nary_ad_grid (fpuzz_grid : list (list Z))
  : option (CSP * list (list Var)) :=
  match grid_size fpuzz_grid with
  | None => None
  | Some n =>
      let N := Z.to_nat n in
      let vars := grid_vars (Z.to_nat (n * n)) in
      let cons := ad_rows N vars (dom n) ++ ad_cols N vars (dom n) in
      Some (mkCSP vars cons, board N vars)
  end.

(** [l[k]] for a Python integer index: a negative index counts from the
    end, an index out of range raises IndexError ([None]). *)
Definition py_index (l : list Var) (k : Z) : option Var :=
  if Z.leb 0 k then nth_error l (Z.to_nat k)
  else if Z.leb (- Z.of_nat (length l)) k
       then nth_error l (Z.to_nat (Z.of_nat (length l) + k))
       else None.

(** The variable of a cell code: [row_idx = (cell // 10) - 1],
    [col_idx = (cell % 10) - 1], [vars[row_idx*n + col_idx]]. *)
Definition cell_var (n : Z) (vars : list Var) (cell : Z) : option Var :=
  py_index vars ((cell / 10 - 1) * n + (cell mod 10 - 1)).

(** A loop that appends one result per element and stops at the first
    exception. *)
Fixpoint map_opt {A B : Type} (f : A -> option B) (l : list A)
  : option (list B) :=
  match l with
  | [] => Some []
  | x :: l' =>
      match f x with
      | None => None
      | Some y =>
          match map_opt f l' with
          | None => None
          | Some ys => Some (y :: ys)
          end
      end
  end.

(** The constraint of one cage.  A cage of two entries is a cell and its
    value.  Otherwise [cage[-1]] is the operation, [cage[-2]] the target and
    [cage[:-2]] the cells; a cage with fewer than two entries raises
    IndexError. *)
Definition cage_con (n : Z) (vars : list Var) (cage : list Z)
  : option Constraint :=
  match cage with
  | [cell; target_val] =>
      match cell_var n vars cell with
      | Some v => Some (single_cell_constraint v target_val)
      | None => None
      end
  | _ =>
      match rev cage with
      | cage_op :: cage_res :: cells =>
          match map_opt (cell_var n vars) (rev cells) with
          | Some cage_vars =>
              Some (cage_constraint n cage_vars cage_op cage_res)
          | None => None
          end
      | _ => None
      end
  end.

(** caged_csp: [n] rows of [n] variables, the not-equal constraints of the
    rows and the columns, then one constraint per cage of
    [fpuzz_grid[1:]]. *)
Definition caged_csp (fpuzz_grid : list (list Z))
  : option (CSP * list (list Var)) :=
  match grid_size fpuzz_grid with
  | None => None
  | Some n =>
      let N := Z.to_nat n in
      let vars := grid_vars (N * N) in
      let sat_tuples := ne_tuples (dom n) in
      let grid := ne_rows N vars sat_tuples ++ ne_cols N vars sat_tuples in
      match map_opt (cage_con n vars) (tl fpuzz_grid) with
      | None => None
      | Some cages => Some (mkCSP vars (grid ++ cages), board N vars)
      end
  end.

(** ** What an encoding means *)

(** A complete board: a value for every variable. *)
Definition Board := Var -> Value.

(** The board satisfies the constraint: [check] accepts the values of the
    scope. *)
Definition satisfies (a : Board) (c : Constraint) : bool :=
  check c (map a (get_scope c)).

Definition solves (a : Board) (csp : CSP) : Prop :=
  forall c, In c (get_all_cons csp) -> satisfies a c = true.

(** Two cells hold different values of the domain. *)
Definition differ (n : Z) (a : Board) (x y : Var) : Prop :=
  In (a x) (dom n) /\ In (a y) (dom n) /\ a x <> a y.

(** Any two cells of a row, and any two cells of a column, hold different
    values of the domain. *)
Definition rows_differ (n : Z) (a : Board) : Prop :=
  forall i j k, i < Z.to_nat n -> j < k -> k < Z.to_nat n ->
    differ n a (i * Z.to_nat n + j) (i * Z.to_nat n + k).

Definition cols_differ (n : Z) (a : Board) : Prop :=
  forall j i k, j < Z.to_nat n -> i < k -> k < Z.to_nat n ->
    differ n a (i * Z.to_nat n + j) (k * Z.to_nat n + j).

(** The cells of row [i] and of column [j], in order. *)
Definition row_cells (N i : nat) : list Var :=
  map (fun j => i * N + j) (seq 0 N).

Definition col_cells (N j : nat) : list Var :=
  map (fun i => i * N + j) (seq 0 N).

(** Every row and every column holds each value of the domain once. *)
Definition rows_cols_permute (n : Z) (a : Board) : Prop :=
  forall i, i < Z.to_nat n ->
    Permutation (dom n) (map a (row_cells (Z.to_nat n) i))
    /\ Permutation (dom n) (map a (col_cells (Z.to_nat n) i)).

(** The cells a cage names: its first entry for a cage of two entries, all
    but the last two otherwise. *)
Definition cage_cells (cage : list Z) : list Z :=
  match cage with
  | [cell; _] => [cell]
  | _ => firstn (length cage - 2) cage
  end.

(** What an operation and its target ask of the values [t]: their sum for
    0, some ordering passing the subtraction test for 1, the division test
    for 2, their product for any other code. *)
Definition op_rule (cage_op cage_res : Z) (t : Tuple) : Prop :=
  if Z.eqb cage_op 0 then sum t = cage_res
  else if Z.eqb cage_op 1 then
    exists p, Permutation p t /\ sub_test cage_res p = true
  else if Z.eqb cage_op 2 then
    exists p, Permutation p t /\ div_test cage_res p = true
  else prod t = cage_res.

(** What a cage asks of the values [t] of its cells. *)
Definition cage_rule (cage : list Z) (t : Tuple) : Prop :=
  match cage with
  | [_; target_val] => t = [target_val]
  | _ => op_rule (nth (length cage - 1) cage 0%Z)
                 (nth (length cage - 2) cage 0%Z) t
  end.

(** The board satisfies the cage: the cells decode to variables whose values
    are in the domain (for a cage with an operation) and follow its rule. *)
Definition cage_holds (n : Z) (vars : list Var) (a : Board) (cage : list Z)
  : Prop :=
  exists vs, map_opt (cell_var n vars) (cage_cells cage) = Some vs
             /\ (length cage = 2 \/ Forall (fun x => In x (dom n)) (map a vs))
             /\ cage_rule cage (map a vs).

(** The board has [N] rows of [N] variables of the CSP, the variable of row
    [i] and column [j] being the one created at rank [i * N + j]. *)
Definition board_layout (N : nat) (csp : CSP) (brd : list (list Var))
  : Prop :=
  length brd = N
  /\ forall i, i < N ->
       length (nth i brd []) = N
       /\ forall j, j < N ->
            nth j (nth i brd []) 0 = i * N + j
            /\ In (i * N + j) (get_all_vars csp).

(** Modelled from the spec: the state of the Variable objects an encoding
    has just created with [Variable(name, dom)]: the full domain, no
    assigned value. *)
Definition fresh_store (n : Z) : Store :=
  fun _ => mkVariable (dom n) None.

End PuzzleGrids.

Export PuzzleGrids.

(* ================================================================== *)
(** * The domain store *)

Section StoreFacts.

Lemma update_same (st : Store) v x : update st v x v = x.
Proof. unfold update. now rewrite Nat.eqb_refl. Qed.

Lemma update_other (st : Store) v x u : u <> v -> update st v x u = st u.
Proof.
  intros H. unfold update.
  destruct (Nat.eqb_spec u v); [contradiction | reflexivity].
Qed.

Lemma mem_value_In d l : mem_value d l = true <-> In d l.
Proof.
  unfold mem_value. rewrite existsb_exists. split.
  - intros (x & Hx & E). apply Z.eqb_eq in E. now subst.
  - intros H. exists d. split; [assumption | apply Z.eqb_refl].
Qed.

Lemma remove_value_In d l x : In x (remove_value d l) <-> In x l /\ x <> d.
Proof.
  unfold remove_value. rewrite filter_In. split; intros [H1 H2]; split; auto.
  - intros ->. now rewrite Z.eqb_refl in H2.
  - destruct (Z.eqb_spec d x); [congruence | reflexivity].
Qed.

Lemma remove_value_length_le d l : length (remove_value d l) <= length l.
Proof. apply filter_length_le. Qed.

Lemma remove_value_length_lt d l :
  In d l -> length (remove_value d l) < length l.
Proof.
  induction l as [|a l IH]; simpl; [easy|].
  intros [-> | H].
  - rewrite Z.eqb_refl. simpl.
    pose proof (remove_value_length_le d l). unfold remove_value in *. lia.
  - destruct (Z.eqb d a); simpl.
    + pose proof (remove_value_length_le d l). unfold remove_value in *. lia.
    + apply IH in H. unfold remove_value in *. lia.
Qed.

Lemma remove_value_NoDup d l : NoDup l -> NoDup (remove_value d l).
Proof. apply NoDup_filter. Qed.

Lemma remove_value_absent d l : ~ In d l -> remove_value d l = l.
Proof.
  induction l as [|a l IH]; simpl; [easy|].
  intros H. destruct (Z.eqb_spec d a).
  - exfalso. apply H. now left.
  - simpl. f_equal. apply IH. intros H'. apply H. now right.
Qed.

(** What a successful prune_value does to the store. *)
Lemma prune_value_Some st v d st' :
  prune_value st v d = Some st' ->
  In d (cur_domain st v)
  /\ cur_domain st' v = remove_value d (cur_domain st v)
  /\ (forall u, u <> v -> st' u = st u)
  /\ (forall u, get_assigned_value st' u = get_assigned_value st u).
Proof.
  unfold prune_value. destruct (mem_value d (cur_domain st v)) eqn:M; [|easy].
  intros E. injection E as <-. apply mem_value_In in M.
  repeat split; trivial.
  - unfold cur_domain. now rewrite update_same.
  - intros u Hu. now apply update_other.
  - intros u. unfold get_assigned_value, update.
    destruct (Nat.eqb_spec u v); [now subst | reflexivity].
Qed.

Lemma prune_value_In st v d : In d (cur_domain st v) ->
  exists st', prune_value st v d = Some st'.
Proof.
  intros H. unfold prune_value. apply mem_value_In in H. rewrite H. eauto.
Qed.

Lemma prune_value_domain st v d st' u x :
  prune_value st v d = Some st' ->
  (In x (cur_domain st' u) <->
   In x (cur_domain st u) /\ (u, x) <> (v, d)).
Proof.
  intros H. destruct (prune_value_Some _ _ _ _ H) as (Hd & Hv & Ho & _).
  destruct (Nat.eq_dec u v) as [->|Hu].
  - rewrite Hv, remove_value_In. split; intros [H1 H2]; split; trivial.
    + congruence.
    + intros ->. now apply H2.
  - unfold cur_domain. rewrite (Ho u Hu). split; [|tauto].
    intros H1. split; [assumption | congruence].
Qed.

Lemma prune_value_size_le st v d st' u :
  prune_value st v d = Some st' -> cur_domain_size st' u <= cur_domain_size st u.
Proof.
  intros H. destruct (prune_value_Some _ _ _ _ H) as (Hd & Hv & Ho & _).
  unfold cur_domain_size. destruct (Nat.eq_dec u v) as [->|Hu].
  - rewrite Hv. apply remove_value_length_le.
  - unfold cur_domain. now rewrite (Ho u Hu).
Qed.

Lemma prune_value_size_lt st v d st' :
  prune_value st v d = Some st' -> cur_domain_size st' v < cur_domain_size st v.
Proof.
  intros H. destruct (prune_value_Some _ _ _ _ H) as (Hd & Hv & _).
  unfold cur_domain_size. rewrite Hv. now apply remove_value_length_lt.
Qed.

Lemma prune_value_wf st v d st' :
  prune_value st v d = Some st' -> store_wf st -> store_wf st'.
Proof.
  intros H W u. destruct (prune_value_Some _ _ _ _ H) as (Hd & Hv & Ho & _).
  destruct (Nat.eq_dec u v) as [->|Hu].
  - rewrite Hv. apply remove_value_NoDup, W.
  - unfold cur_domain. rewrite (Ho u Hu). apply W.
Qed.

End StoreFacts.

(* ================================================================== *)
(** * Constraints and support *)

Section SupportFacts.

Lemma tuples_In (doms : list (list Value)) (t : list Value) :
  In t (tuples doms) <-> Forall2 (fun x d => In x d) t doms.
Proof.
  revert t. induction doms as [|d ds IH]; intros t; simpl.
  - split.
    + intros [<- | []]. constructor.
    + intros H. inversion H. now left.
  - rewrite in_flat_map. split.
    + intros (x & Hx & Ht). apply in_map_iff in Ht as (t' & <- & Ht').
      constructor; [assumption | now apply IH].
    + intros H. inversion H as [|x d' t' ds' Hx Ht']; subst.
      exists x. split; [assumption|]. apply in_map. now apply IH.
Qed.

Lemma support_candidates_In st c v d t :
  In t (support_candidates st c v d) <-> supports st v d t (get_scope c).
Proof.
  unfold support_candidates, supports. rewrite tuples_In.
  generalize (get_scope c). intros scope. revert t.
  induction scope as [|u scope IH]; intros t; simpl.
  - split; intros H; inversion H; constructor.
  - split; intros H; inversion H; subst; constructor; try (now apply IH).
    + destruct (Nat.eqb u v); [|assumption].
      match goal with H : In _ [_] |- _ => destruct H as [<- | []] end.
      reflexivity.
    + destruct (Nat.eqb u v); [|assumption]. subst. now left.
Qed.

Lemma has_support_true st c v d :
  has_support st c v d = true <->
  exists t, supports st v d t (get_scope c) /\ check c t = true.
Proof.
  unfold has_support. rewrite existsb_exists.
  split; intros (t & H1 & H2); exists t; split; trivial;
    now apply support_candidates_In.
Qed.

Lemma supports_mono st st' v d t scope :
  (forall u x, In u scope -> u <> v ->
               In x (cur_domain st' u) -> In x (cur_domain st u)) ->
  supports st' v d t scope -> supports st v d t scope.
Proof.
  unfold supports. intros Hsub H. induction H as [|x u t scope Hx Ht IH].
  - constructor.
  - constructor.
    + destruct (Nat.eqb_spec u v); [assumption|].
      apply Hsub; trivial. now left.
    + apply IH. intros u' x' Hu'. apply Hsub. now right.
Qed.

(** Support only depends on the domains of the other variables of the
    scope, and it can only be lost when one of them shrinks. *)
Lemma has_support_mono st st' c v d :
  (forall u x, In u (get_scope c) -> u <> v ->
               In x (cur_domain st' u) -> In x (cur_domain st u)) ->
  has_support st' c v d = true -> has_support st c v d = true.
Proof.
  intros Hsub. rewrite !has_support_true. intros (t & H1 & H2).
  exists t. split; [|assumption]. eapply supports_mono; eassumption.
Qed.

Lemma has_support_ext st st' c v d :
  (forall u, In u (get_scope c) -> u <> v ->
             cur_domain st' u = cur_domain st u) ->
  has_support st' c v d = has_support st c v d.
Proof.
  intros E. apply eq_true_iff_eq. split; apply has_support_mono;
    intros u x Hu Hv; rewrite (E u Hu Hv); trivial.
Qed.

Lemma in_scope_In v c : in_scope v c = true <-> In v (get_scope c).
Proof.
  unfold in_scope. rewrite existsb_exists. split.
  - intros (x & Hx & E). apply Nat.eqb_eq in E. now subst.
  - intros H. exists v. split; [assumption | apply Nat.eqb_refl].
Qed.

Lemma get_cons_with_var_In csp v c :
  In c (get_cons_with_var csp v) <->
  In c (get_all_cons csp) /\ In v (get_scope c).
Proof.
  unfold get_cons_with_var. now rewrite filter_In, in_scope_In.
Qed.

Lemma in_queue_In v q : in_queue v q = true <-> In v q.
Proof.
  unfold in_queue. rewrite existsb_exists. split.
  - intros (x & Hx & E). apply Nat.eqb_eq in E. now subst.
  - intros H. exists v. split; [assumption | apply Nat.eqb_refl].
Qed.

Lemma get_unasgn_vars_ext st st' c :
  (forall u, get_assigned_value st' u = get_assigned_value st u) ->
  get_unasgn_vars st' c = get_unasgn_vars st c.
Proof.
  intros E. unfold get_unasgn_vars. apply filter_ext. intros u.
  unfold is_assigned. now rewrite E.
Qed.

Lemma FC_tuple_ext st st' c U d :
  (forall u, get_assigned_value st' u = get_assigned_value st u) ->
  FC_tuple st' c U d = FC_tuple st c U d.
Proof.
  intros E. unfold FC_tuple. apply map_ext. intros u.
  unfold assigned_or_zero. now rewrite E.
Qed.

Lemma get_unasgn_vars_unassigned st c u :
  In u (get_unasgn_vars st c) -> get_assigned_value st u = None.
Proof.
  unfold get_unasgn_vars. rewrite filter_In. intros [_ H].
  unfold is_assigned in H. now destruct (get_assigned_value st u).
Qed.

End SupportFacts.

(* ================================================================== *)
(** * Sequences of prunes *)

Section PruningFacts.

Variable R : Store -> Var -> Value -> Prop.

Lemma pruning_app st tr1 st1 tr2 st2 :
  pruning R st tr1 st1 -> pruning R st1 tr2 st2 ->
  pruning R st (tr1 ++ tr2) st2.
Proof.
  induction 1 as [|st v d st1' tr st1 Hr Hp _ IH]; simpl; intros H2.
  - assumption.
  - econstructor; eauto.
Qed.

Lemma pruning_one st v d st' :
  R st v d -> prune_value st v d = Some st' -> pruning R st [(v, d)] st'.
Proof. intros. econstructor; eauto. constructor. Qed.

Lemma grows_refl st pruned : grows R st pruned st pruned.
Proof. exists []. split; [now rewrite app_nil_r | constructor]. Qed.

Lemma grows_trans st pruned s1 p1 s2 p2 :
  grows R st pruned s1 p1 -> grows R s1 p1 s2 p2 -> grows R st pruned s2 p2.
Proof.
  intros (t1 & -> & H1) (t2 & -> & H2). exists (t1 ++ t2).
  split; [now rewrite app_assoc | eapply pruning_app; eauto].
Qed.

Lemma grows_step st pruned v d st' :
  R st v d -> prune_value st v d = Some st' ->
  grows R st pruned st' (pruned ++ [(v, d)]).
Proof. intros. exists [(v, d)]. split; [reflexivity | now apply pruning_one]. Qed.

Lemma grows_nil st s p : grows R st [] s p -> pruning R st p s.
Proof. intros (tr & -> & H). exact H. Qed.

(** A value is in a domain after the prunes exactly when it was there
    before and is not one of the pruned pairs. *)
Lemma pruning_domain st tr st' :
  pruning R st tr st' ->
  forall u x, In x (cur_domain st' u) <->
              In x (cur_domain st u) /\ ~ In (u, x) tr.
Proof.
  induction 1 as [|st v d st1 tr st2 Hr Hp _ IH]; intros u x.
  - simpl. tauto.
  - rewrite IH, (prune_value_domain _ _ _ _ u x Hp). simpl.
    split.
    + intros [[H1 H2] H3]. split; [assumption|].
      intros [E | E]; [apply H2; congruence | contradiction].
    + intros [H1 H2]. repeat split; trivial.
      * intros E. apply H2. left. congruence.
      * intros E. apply H2. now right.
Qed.

Lemma pruning_subset st tr st' :
  pruning R st tr st' ->
  forall u x, In x (cur_domain st' u) -> In x (cur_domain st u).
Proof. intros H u x Hx. now apply (pruning_domain _ _ _ H) in Hx. Qed.

Lemma pruning_assigned st tr st' :
  pruning R st tr st' ->
  forall u, get_assigned_value st' u = get_assigned_value st u.
Proof.
  induction 1 as [|st v d st1 tr st2 Hr Hp _ IH]; intros u; [reflexivity|].
  rewrite IH. now apply prune_value_Some in Hp.
Qed.

(** Every pruned pair was in the domains the prunes started from. *)
Lemma pruning_trace_present st tr st' :
  pruning R st tr st' ->
  forall v d, In (v, d) tr -> In d (cur_domain st v).
Proof.
  induction 1 as [|st v d st1 tr st2 Hr Hp Hrest IH]; intros v' d' Hin.
  - destruct Hin.
  - destruct Hin as [E | Hin].
    + injection E as <- <-. now apply prune_value_Some in Hp.
    + apply IH in Hin. now apply (prune_value_domain _ _ _ _ v' d' Hp) in Hin.
Qed.

(** No pair is pruned twice. *)
Lemma pruning_NoDup st tr st' : pruning R st tr st' -> NoDup tr.
Proof.
  induction 1 as [|st v d st1 tr st2 Hr Hp Hrest IH]; constructor; trivial.
  intros Hin. apply (pruning_trace_present _ _ _ Hrest) in Hin.
  apply (prune_value_domain _ _ _ _ v d Hp) in Hin. now destruct Hin.
Qed.

(** A variable none of whose values is pruned keeps its state. *)
Lemma pruning_untouched st tr st' :
  pruning R st tr st' ->
  forall u, (forall x, ~ In (u, x) tr) -> st' u = st u.
Proof.
  induction 1 as [|st v d st1 tr st2 Hr Hp _ IH]; intros u Hu; [reflexivity|].
  rewrite IH.
  - apply prune_value_Some in Hp as (_ & _ & Ho & _). apply Ho.
    intros ->. apply (Hu d). now left.
  - intros x Hx. apply (Hu x). now right.
Qed.

Lemma pruning_size_le st tr st' :
  pruning R st tr st' ->
  forall u, cur_domain_size st' u <= cur_domain_size st u.
Proof.
  induction 1 as [|st v d st1 tr st2 Hr Hp _ IH]; intros u; [lia|].
  specialize (IH u). pose proof (prune_value_size_le _ _ _ _ u Hp). lia.
Qed.

Lemma pruning_size_lt st tr st' :
  pruning R st tr st' ->
  forall u x, In (u, x) tr -> cur_domain_size st' u < cur_domain_size st u.
Proof.
  induction 1 as [|st v d st1 tr st2 Hr Hp Hrest IH]; intros u x Hin.
  - destruct Hin.
  - destruct Hin as [E | Hin].
    + injection E as <- <-. pose proof (prune_value_size_lt _ _ _ _ Hp).
      pose proof (pruning_size_le _ _ _ Hrest v). lia.
    + specialize (IH u x Hin). pose proof (prune_value_size_le _ _ _ _ u Hp). lia.
Qed.

Lemma pruning_wf st tr st' :
  pruning R st tr st' -> store_wf st -> store_wf st'.
Proof.
  induction 1 as [|st v d st1 tr st2 Hr Hp _ IH]; intros W; [assumption|].
  apply IH. eapply prune_value_wf; eauto.
Qed.

Lemma pruning_weaken (R' : Store -> Var -> Value -> Prop) st tr st' :
  (forall s v d, R s v d -> R' s v d) ->
  pruning R st tr st' -> pruning R' st tr st'.
Proof.
  intros Himp. induction 1; econstructor; eauto.
Qed.

End PruningFacts.

(* ================================================================== *)
(** * The propagators prune by sequences of justified prunes *)

Section PropagatorsPrune.

Lemma flow_sat_weaken {A} (view : A -> Store * Trace)
      (Q Q' : Store -> Trace -> Prop) (f : flow A) :
  (forall s p, Q s p -> Q' s p) -> flow_sat view Q f -> flow_sat view Q' f.
Proof.
  intros H. destruct f as [a | [| ok p s]]; simpl; auto.
Qed.

Variable csp : CSP.

(** ** prop_FC *)

Lemma unasgn_single st c U rest :
  get_n_unasgn st c = 1 -> get_unasgn_vars st c = U :: rest ->
  get_unasgn_vars st c = [U].
Proof.
  unfold get_n_unasgn. intros L E. rewrite E in *.
  destruct rest; [reflexivity | discriminate].
Qed.

Lemma FC_values_grows newVar c U :
  In c (FC_constraints csp newVar) ->
  forall vals st pruned,
    get_unasgn_vars st c = [U] ->
    flow_sat (fun a => a) (grows (FC_reason csp newVar) st pruned)
             (FC_values c U vals st pruned).
Proof.
  intros Hc. induction vals as [|val vals IH]; intros st pruned HU; simpl.
  - apply grows_refl.
  - destruct (check c (FC_tuple st c U val)) eqn:Hchk; [now apply IH|].
    destruct (prune_value st U val) as [st'|] eqn:Hp; [|exact I].
    assert (HU' : get_unasgn_vars st' c = [U]).
    { rewrite <- HU. apply get_unasgn_vars_ext.
      now apply prune_value_Some in Hp. }
    eapply flow_sat_weaken; [|apply (IH st' _ HU')].
    intros s p. apply grows_trans. apply grows_step; [|assumption].
    exists c. auto.
Qed.

Lemma FC_cons_grows newVar :
  forall cs, incl cs (FC_constraints csp newVar) ->
  forall st pruned,
    outcome_sat (grows (FC_reason csp newVar) st pruned)
                (FC_cons cs st pruned).
Proof.
  induction cs as [|c cs IH]; intros Hincl st pruned; simpl.
  - apply grows_refl.
  - assert (Hc : In c (FC_constraints csp newVar)) by (apply Hincl; now left).
    assert (Hcs : incl cs (FC_constraints csp newVar))
      by (intros x Hx; apply Hincl; now right).
    destruct (Nat.eqb_spec (get_n_unasgn st c) 1) as [Hn|_]; [|now apply IH].
    destruct (get_unasgn_vars st c) as [|U rest] eqn:HU; [exact I|].
    pose proof (unasgn_single _ _ _ _ Hn HU) as HU1.
    pose proof (FC_values_grows newVar c U Hc (cur_domain st U) st pruned HU1)
      as Hv.
    destruct (FC_values c U (cur_domain st U) st pruned)
      as [[st' pruned'] | o]; simpl in Hv; [|exact Hv].
    destruct (Nat.eqb (cur_domain_size st' U) 0); simpl; [exact Hv|].
    specialize (IH Hcs st' pruned').
    destruct (FC_cons cs st' pruned') as [|ok p s]; simpl in *; [exact I|].
    eapply grows_trans; eauto.
Qed.

Lemma prop_FC_pruning st newVar ok tr st' :
  prop_FC csp st newVar = Returned ok tr st' ->
  pruning (FC_reason csp newVar) st tr st'.
Proof.
  unfold prop_FC. intros E.
  pose proof (FC_cons_grows newVar _ (incl_refl _) st []) as H.
  rewrite E in H. simpl in H. now apply grows_nil.
Qed.

(** ** prop_FI *)

Lemma FI_values_grows w c v :
  In c (get_cons_with_var csp w) -> In v (get_scope c) -> v <> w ->
  forall ds st pruned,
    flow_sat (fun a => a) (grows (FI_reason csp) st pruned)
             (FI_values c v ds st pruned).
Proof.
  intros Hc Hv Hvw. induction ds as [|d ds IH]; intros st pruned; simpl.
  - apply grows_refl.
  - destruct (has_support st c v d) eqn:Hs; [now apply IH|].
    destruct (prune_value st v d) as [st'|] eqn:Hp; [|exact I].
    assert (Hg : grows (FI_reason csp) st pruned st' (pruned ++ [(v, d)])).
    { apply grows_step; [|assumption]. exists w, c. auto. }
    destruct (Nat.eqb (cur_domain_size st' v) 0); simpl; [exact Hg|].
    eapply flow_sat_weaken; [|apply IH].
    intros s p. now apply grows_trans.
Qed.

Lemma FI_scope_grows w c :
  In c (get_cons_with_var csp w) ->
  forall vs, incl vs (get_scope c) ->
  forall st pruned queue,
    flow_sat (fun a => fst a) (grows (FI_reason csp) st pruned)
             (FI_scope c w vs st pruned queue).
Proof.
  intros Hc. induction vs as [|v vs IH]; intros Hincl st pruned queue; simpl.
  - apply grows_refl.
  - assert (Hv : In v (get_scope c)) by (apply Hincl; now left).
    assert (Hvs : incl vs (get_scope c))
      by (intros x Hx; apply Hincl; now right).
    destruct (Nat.eqb_spec v w) as [_|Hvw]; [now apply IH|].
    pose proof (FI_values_grows w c v Hc Hv Hvw (cur_domain st v) st pruned)
      as Hval.
    destruct (FI_values c v (cur_domain st v) st pruned)
      as [[st' pruned'] | o]; simpl in Hval; [|exact Hval].
    eapply flow_sat_weaken; [|apply (IH Hvs)].
    intros s p. now apply grows_trans.
Qed.

Lemma FI_cons_grows w :
  forall cs, incl cs (get_cons_with_var csp w) ->
  forall st pruned queue,
    flow_sat (fun a => fst a) (grows (FI_reason csp) st pruned)
             (FI_cons w cs st pruned queue).
Proof.
  induction cs as [|c cs IH]; intros Hincl st pruned queue; simpl.
  - apply grows_refl.
  - assert (Hc : In c (get_cons_with_var csp w)) by (apply Hincl; now left).
    assert (Hcs : incl cs (get_cons_with_var csp w))
      by (intros x Hx; apply Hincl; now right).
    pose proof (FI_scope_grows w c Hc _ (incl_refl _) st pruned queue) as Hs.
    destruct (FI_scope c w (get_scope c) st pruned queue)
      as [[[st' pruned'] queue'] | o]; simpl in Hs; [|exact Hs].
    eapply flow_sat_weaken; [|apply (IH Hcs)].
    intros s p. now apply grows_trans.
Qed.

Lemma FI_loop_grows :
  forall fuel queue st pruned o,
    FI_loop csp fuel queue st pruned = Some o ->
    outcome_sat (grows (FI_reason csp) st pruned) o.
Proof.
  induction fuel as [|fuel IH]; intros queue st pruned o; simpl; [easy|].
  destruct queue as [|w queue].
  - intros E. injection E as <-. apply grows_refl.
  - pose proof (FI_cons_grows w _ (incl_refl _) st pruned queue) as Hc.
    destruct (FI_cons w (get_cons_with_var csp w) st pruned queue)
      as [[[st' pruned'] queue'] | o']; simpl in Hc.
    + intros E. apply IH in E.
      destruct o as [|ok p s]; simpl in *; [exact I|].
      eapply grows_trans; eauto.
    + intros E. injection E as <-. exact Hc.
Qed.

Lemma prop_FI_pruning st newVar ok tr st' :
  prop_FI csp st newVar = Some (Returned ok tr st') ->
  pruning (FI_reason csp) st tr st'.
Proof.
  unfold prop_FI. intros E. apply FI_loop_grows in E. now apply grows_nil.
Qed.

End PropagatorsPrune.

(* ================================================================== *)
(** * Soundness, frame and restoration *)

Section TraceProperties.

Lemma pruning_reason R st tr st' v d :
  pruning R st tr st' -> In (v, d) tr ->
  exists tr1 tr2 s,
    tr = tr1 ++ (v, d) :: tr2
    /\ pruning R st tr1 s /\ R s v d /\ pruning R s ((v, d) :: tr2) st'.
Proof.
  induction 1 as [|st v0 d0 st1 tr st2 Hr Hp Hrest IH]; intros Hin.
  - destruct Hin.
  - destruct Hin as [E | Hin].
    + injection E as -> ->. exists [], tr, st. repeat split; trivial.
      * constructor.
      * econstructor; eauto.
    + destruct (IH Hin) as (tr1 & tr2 & s & -> & H1 & H2 & H3).
      exists ((v0, d0) :: tr1), tr2, s. repeat split; trivial.
      econstructor; eauto.
Qed.

Lemma restore_all_assigned tr : forall st u,
  get_assigned_value (restore_all tr st) u = get_assigned_value st u.
Proof.
  induction tr as [|[v d] tr IH]; intros st u; simpl; [reflexivity|].
  unfold restore_all in *. simpl. rewrite IH.
  unfold restore_value, get_assigned_value, update.
  destruct (Nat.eqb_spec u v); [now subst | reflexivity].
Qed.

Lemma restore_value_domain st v d u x :
  In x (cur_domain (restore_value st v d) u) <->
  In x (cur_domain st u) \/ (v, d) = (u, x).
Proof.
  unfold restore_value, cur_domain, update.
  destruct (Nat.eqb_spec u v) as [->|Hu]; simpl.
  - split.
    + intros [<- | H]; auto.
    + intros [H | E]; [now right | left; congruence].
  - split; [auto|]. intros [H | E]; [assumption | congruence].
Qed.

Lemma restore_all_domain tr : forall st u x,
  In x (cur_domain (restore_all tr st) u) <->
  In x (cur_domain st u) \/ In (u, x) tr.
Proof.
  induction tr as [|[v d] tr IH]; intros st u x.
  - simpl. tauto.
  - unfold restore_all in *. simpl. rewrite IH, restore_value_domain. tauto.
Qed.

Lemma pair_in_dec (p : Var * Value) (tr : Trace) : {In p tr} + {~ In p tr}.
Proof.
  apply in_dec. intros [a b] [a' b'].
  destruct (Nat.eq_dec a a'), (Z.eq_dec b b');
    [left; congruence | right; congruence ..].
Qed.

(** What any sequence of successful prunes leaves behind, and how restoring
    it gives the domains back. *)
Lemma pruning_frame R st tr st' :
  pruning R st tr st' ->
  (forall v d, In (v, d) tr <->
               In d (cur_domain st v) /\ ~ In d (cur_domain st' v))
  /\ (forall v d, In d (cur_domain st' v) -> In d (cur_domain st v))
  /\ (forall v, (forall d, ~ In (v, d) tr) -> st' v = st v)
  /\ (forall v, get_assigned_value st' v = get_assigned_value st v)
  /\ (forall tr', Permutation tr tr' -> forall v,
        (forall d, In d (cur_domain (restore_all tr' st') v) <->
                   In d (cur_domain st v))
        /\ get_assigned_value (restore_all tr' st') v
           = get_assigned_value st v).
Proof.
  intros H. pose proof (pruning_domain _ _ _ _ H) as Hdom.
  split; [|split; [|split; [|split]]].
  - intros v d. split.
    + intros Hin. split.
      * now apply (pruning_trace_present _ _ _ _ H).
      * intros Hin'. apply Hdom in Hin'. tauto.
    + intros [H1 H2]. destruct (pair_in_dec (v, d) tr); [assumption|].
      exfalso. apply H2. apply Hdom. tauto.
  - intros v d Hin. now apply Hdom in Hin.
  - now apply (pruning_untouched _ _ _ _ H).
  - now apply (pruning_assigned _ _ _ _ H).
  - intros tr' Hperm v. split.
    + intros d. rewrite restore_all_domain. split.
      * intros [Hin | Hin].
        -- now apply Hdom in Hin.
        -- apply (pruning_trace_present _ _ _ _ H).
           eapply Permutation_in; [apply Permutation_sym|]; eassumption.
      * intros Hin. destruct (pair_in_dec (v, d) tr) as [Ht | Ht].
        -- right. eapply Permutation_in; eassumption.
        -- left. apply Hdom. tauto.
    + rewrite restore_all_assigned. now apply (pruning_assigned _ _ _ _ H).
Qed.

Variable csp : CSP.

Lemma sole_unassigned st c U :
  get_unasgn_vars st c = [U] ->
  In U (get_scope c)
  /\ forall u, In u (get_scope c) -> u <> U ->
               exists a, get_assigned_value st u = Some a.
Proof.
  intros HU. split.
  - assert (H : In U (get_unasgn_vars st c)) by (rewrite HU; now left).
    unfold get_unasgn_vars in H. now apply filter_In in H.
  - intros u Hu Hne. destruct (get_assigned_value st u) as [a|] eqn:Ha;
      [eauto|]. exfalso. apply Hne.
    assert (H : In u (get_unasgn_vars st c)).
    { unfold get_unasgn_vars. apply filter_In. split; [assumption|].
      unfold is_assigned. now rewrite Ha. }
    rewrite HU in H. destruct H as [<- | []]. reflexivity.
Qed.

Lemma supports_assigned st U d t scope :
  supports st U d t scope ->
  (forall u, In u scope -> u <> U ->
             exists a, get_assigned_value st u = Some a) ->
  (forall u a x, get_assigned_value st u = Some a ->
                 In x (cur_domain st u) -> x = a) ->
  t = map (fun var => if Nat.eqb var U then d else assigned_or_zero st var)
          scope.
Proof.
  unfold supports. intros Ht Hothers Hasg.
  induction Ht as [|x u t scope Hx _ IH]; simpl; [reflexivity|].
  f_equal.
  - destruct (Nat.eqb_spec u U) as [_|Hne]; [assumption|].
    destruct (Hothers u (or_introl eq_refl) Hne) as [a Ha].
    unfold assigned_or_zero. rewrite Ha. eapply Hasg; eassumption.
  - apply IH. intros u' Hu'. apply Hothers. now right.
Qed.


(** The tuple prop_FC builds is the substituted tuple: [d] at the position
    of the sole unassigned variable, the assigned values elsewhere. *)
Lemma FC_tuple_substituted st c U d :
  get_unasgn_vars st c = [U] -> substituted st c U d (FC_tuple st c U d).
Proof.
  intros HU. destruct (sole_unassigned st c U HU) as [_ Hothers].
  unfold substituted, FC_tuple. revert Hothers.
  induction (get_scope c) as [|u scope IH]; intros Hothers; simpl;
    constructor.
  - destruct (Nat.eqb_spec u U) as [_|Hne]; [reflexivity|].
    destruct (Hothers u (or_introl eq_refl) Hne) as [a Ha].
    unfold assigned_or_zero. now rewrite Ha.
  - apply IH. intros u' Hu'. apply Hothers. now right.
Qed.

Lemma FC_constraints_relevant newVar c :
  In c (FC_constraints csp newVar) <-> relevant csp newVar c.
Proof.
  unfold FC_constraints, relevant, get_cons_with_var, in_scope.
  destruct newVar as [x|]; [|tauto].
  rewrite filter_In, existsb_exists. split; intros [Hc H]; split; trivial.
  - destruct H as (u & Hu & E). apply Nat.eqb_eq in E. now subst.
  - exists x. split; [assumption | apply Nat.eqb_refl].
Qed.







(** C7.  Frame and restoration.  When prop_FC or prop_FI returns, with
    success or with failure, the pairs of the trace are exactly the values
    that left a current domain, a variable without a traced pair keeps its
    state, no assignment changes, and restoring the traced pairs in any
    order gives every current domain its values of before the call. *)
Theorem trace_is_exactly_what_was_pruned st newVar ok tr st' :
  prop_FC csp st newVar = Returned ok tr st'
  \/ prop_FI csp st newVar = Some (Returned ok tr st') ->
  (forall v d, In (v, d) tr <->
               In d (cur_domain st v) /\ ~ In d (cur_domain st' v))
  /\ (forall v d, In d (cur_domain st' v) -> In d (cur_domain st v))
  /\ (forall v, (forall d, ~ In (v, d) tr) -> st' v = st v)
  /\ (forall v, get_assigned_value st' v = get_assigned_value st v)
  /\ (forall tr', Permutation tr tr' -> forall v,
        (forall d, In d (cur_domain (restore_all tr' st') v) <->
                   In d (cur_domain st v))
        /\ get_assigned_value (restore_all tr' st') v
           = get_assigned_value st v).
Proof.
  intros [H | H].
  - apply prop_FC_pruning in H. eapply pruning_frame; eassumption.
  - apply prop_FI_pruning in H. eapply pruning_frame; eassumption.
Qed.

End TraceProperties.



Lemma trace_is_exactly_what_was_pruned_witness :
  exists st',
    prop_FC csp_abc st_abc (Some 0) = Returned true [(1, 1%Z); (2, 1%Z)] st'
    /\ forall v, forall d,
        In d (cur_domain (restore_all [(2, 1%Z); (1, 1%Z)] st') v) <->
        In d (cur_domain st_abc v).
Proof.
  eexists. split; [reflexivity|]. intros v.
  refine (proj1 (proj2 (proj2 (proj2 (proj2
    (trace_is_exactly_what_was_pruned csp_abc st_abc (Some 0) true
       [(1, 1%Z); (2, 1%Z)] _ (or_introl eq_refl)))))
    [(2, 1%Z); (1, 1%Z)] (perm_swap _ _ _) v)).
Defined.

(* ================================================================== *)
(** * No contract violation, no repeated prune *)

Section NoViolation.

Variable csp : CSP.

Lemma grows_wf R st pruned s p :
  grows R st pruned s p -> store_wf st -> store_wf s.
Proof. intros (tr & _ & H). now apply (pruning_wf _ _ _ _ H). Qed.

Lemma remaining_values st v d st' ds :
  prune_value st v d = Some st' -> ~ In d ds ->
  incl ds (cur_domain st v) -> incl ds (cur_domain st' v).
Proof.
  intros Hp Hd Hincl x Hx. apply (prune_value_domain _ _ _ _ v x Hp).
  split; [now apply Hincl|]. intros E. injection E as ->. contradiction.
Qed.

Lemma FC_values_returns c U :
  forall vals st pruned,
    NoDup vals -> incl vals (cur_domain st U) ->
    exists st' pruned', FC_values c U vals st pruned = Next (st', pruned').
Proof.
  induction vals as [|val vals IH]; intros st pruned Hnd Hincl; simpl.
  - eauto.
  - inversion Hnd as [|? ? Hval Hnd']; subst.
    assert (Hin : In val (cur_domain st U)) by (apply Hincl; now left).
    assert (Hincl' : incl vals (cur_domain st U))
      by (intros x Hx; apply Hincl; now right).
    destruct (check c (FC_tuple st c U val)); [now apply IH|].
    destruct (prune_value_In _ _ _ Hin) as [st' Hp]. rewrite Hp.
    apply IH; [assumption|]. eapply remaining_values; eassumption.
Qed.

Lemma FC_cons_no_raise newVar :
  forall cs, incl cs (FC_constraints csp newVar) ->
  forall st pruned, store_wf st -> FC_cons cs st pruned <> Raised.
Proof.
  induction cs as [|c cs IH]; intros Hincl st pruned W; simpl; [easy|].
  assert (Hc : In c (FC_constraints csp newVar)) by (apply Hincl; now left).
  assert (Hcs : incl cs (FC_constraints csp newVar))
    by (intros x Hx; apply Hincl; now right).
  destruct (Nat.eqb_spec (get_n_unasgn st c) 1) as [Hn|_]; [|now apply IH].
  destruct (get_unasgn_vars st c) as [|U rest] eqn:HU.
  - unfold get_n_unasgn in Hn. now rewrite HU in Hn.
  - pose proof (unasgn_single _ _ _ _ Hn HU) as HU1.
    pose proof (FC_values_grows csp newVar c U Hc
                  (cur_domain st U) st pruned HU1) as Hg.
    destruct (FC_values_returns c U (cur_domain st U) st pruned (W U)
                (incl_refl _)) as (st' & pruned' & E).
    rewrite E in *. simpl in Hg.
    destruct (Nat.eqb (cur_domain_size st' U) 0); [easy|].
    apply IH; [assumption|]. eapply grows_wf; eassumption.
Qed.

Lemma FI_values_no_raise c v :
  forall ds st pruned,
    NoDup ds -> incl ds (cur_domain st v) ->
    FI_values c v ds st pruned <> Exit Raised.
Proof.
  induction ds as [|d ds IH]; intros st pruned Hnd Hincl; simpl; [easy|].
  inversion Hnd as [|? ? Hd Hnd']; subst.
  assert (Hin : In d (cur_domain st v)) by (apply Hincl; now left).
  assert (Hincl' : incl ds (cur_domain st v))
    by (intros x Hx; apply Hincl; now right).
  destruct (has_support st c v d); [now apply IH|].
  destruct (prune_value_In _ _ _ Hin) as [st' Hp]. rewrite Hp.
  destruct (Nat.eqb (cur_domain_size st' v) 0); [easy|].
  apply IH; [assumption|]. eapply remaining_values; eassumption.
Qed.

Lemma FI_scope_no_raise w c :
  In c (get_cons_with_var csp w) ->
  forall vs, incl vs (get_scope c) ->
  forall st pruned queue,
    store_wf st -> FI_scope c w vs st pruned queue <> Exit Raised.
Proof.
  intros Hc. induction vs as [|v vs IH]; intros Hincl st pruned queue W;
    simpl; [easy|].
  assert (Hv : In v (get_scope c)) by (apply Hincl; now left).
  assert (Hvs : incl vs (get_scope c))
    by (intros x Hx; apply Hincl; now right).
  destruct (Nat.eqb_spec v w) as [_|Hvw]; [now apply IH|].
  pose proof (FI_values_grows csp w c v Hc Hv Hvw
                (cur_domain st v) st pruned) as Hg.
  pose proof (FI_values_no_raise c v (cur_domain st v) st pruned (W v)
                (incl_refl _)) as Hn.
  destruct (FI_values c v (cur_domain st v) st pruned)
    as [[st' pruned'] | o]; simpl in Hg.
  - apply IH; [assumption|]. eapply grows_wf; eassumption.
  - intros E. apply Hn. congruence.
Qed.

Lemma FI_cons_no_raise w :
  forall cs, incl cs (get_cons_with_var csp w) ->
  forall st pruned queue,
    store_wf st -> FI_cons w cs st pruned queue <> Exit Raised.
Proof.
  induction cs as [|c cs IH]; intros Hincl st pruned queue W; simpl; [easy|].
  assert (Hc : In c (get_cons_with_var csp w)) by (apply Hincl; now left).
  assert (Hcs : incl cs (get_cons_with_var csp w))
    by (intros x Hx; apply Hincl; now right).
  pose proof (FI_scope_grows csp w c Hc _ (incl_refl _) st pruned queue)
    as Hg.
  pose proof (FI_scope_no_raise w c Hc _ (incl_refl _) st pruned queue W)
    as Hn.
  destruct (FI_scope c w (get_scope c) st pruned queue)
    as [[[st' pruned'] queue'] | o]; simpl in Hg.
  - apply IH; [assumption|]. eapply grows_wf; eassumption.
  - intros E. apply Hn. congruence.
Qed.

Lemma FI_loop_no_raise :
  forall fuel queue st pruned,
    store_wf st -> FI_loop csp fuel queue st pruned <> Some Raised.
Proof.
  induction fuel as [|fuel IH]; intros queue st pruned W; simpl; [easy|].
  destruct queue as [|w queue]; [easy|].
  pose proof (FI_cons_grows csp w _ (incl_refl _) st pruned queue) as Hg.
  pose proof (FI_cons_no_raise w _ (incl_refl _) st pruned queue W) as Hn.
  destruct (FI_cons w (get_cons_with_var csp w) st pruned queue)
    as [[[st' pruned'] queue'] | o]; simpl in Hg.
  - apply IH. eapply grows_wf; eassumption.
  - intros E. apply Hn. congruence.
Qed.

(** C8.  On current domains without duplicates, prop_FC and prop_FI never
    call prune_value for a value that is not in the current domain at that
    moment: the call does not raise, the trace is a sequence of prunes that
    each succeed in the store of their moment, and no pair occurs twice in
    the trace. *)
Theorem no_absent_and_no_repeated_prune st newVar :
  store_wf st ->
  (prop_FC csp st newVar <> Raised
   /\ forall ok tr st',
       prop_FC csp st newVar = Returned ok tr st' ->
       NoDup tr /\ pruning any_reason st tr st')
  /\ (prop_FI csp st newVar <> Some Raised
      /\ forall ok tr st',
          prop_FI csp st newVar = Some (Returned ok tr st') ->
          NoDup tr /\ pruning any_reason st tr st').
Proof.
  intros W. split; split.
  - apply (FC_cons_no_raise newVar); [apply incl_refl | assumption].
  - intros ok tr st' E. apply prop_FC_pruning in E. split.
    + eapply pruning_NoDup; eassumption.
    + eapply pruning_weaken; [|eassumption]. intros; exact I.
  - now apply FI_loop_no_raise.
  - intros ok tr st' E. apply prop_FI_pruning in E. split.
    + eapply pruning_NoDup; eassumption.
    + eapply pruning_weaken; [|eassumption]. intros; exact I.
Qed.

End NoViolation.

Lemma no_absent_and_no_repeated_prune_witness :
  prop_FI csp_sum st_sum None <> Some Raised
  /\ NoDup [(1, 3%Z); (1, 4%Z); (0, 3%Z); (0, 4%Z)].
Proof.
  assert (W : store_wf st_sum).
  { intros v. unfold cur_domain, st_sum. simpl.
    repeat constructor; simpl; intuition lia. }
  destruct (no_absent_and_no_repeated_prune csp_sum st_sum None W)
    as [_ [H1 H2]].
  split; [exact H1|].
  refine (proj1 (H2 true _ _ eq_refl)).
Defined.

(* ================================================================== *)
(** * Propagation and assigned values *)

Section AssignedValues.

Variable csp : CSP.

Lemma FC_reason_unassigned newVar st U d :
  FC_reason csp newVar st U d -> get_assigned_value st U = None.
Proof.
  intros (c & _ & HU & _). apply (get_unasgn_vars_unassigned st c).
  rewrite HU. now left.
Qed.

(** prop_BT prunes nothing and prop_FC only prunes values of unassigned
    variables.  prop_FI has no such restriction: what is known of a value
    it prunes from a variable, assigned or not, is that a constraint with
    that variable in its scope has no support for it, in the domains of
    that moment and hence in the domains the call ends with. *)
Lemma assigned_values_and_propagation st newVar :
  (exists ok, prop_BT csp st newVar = Returned ok [] st)
  /\ (forall ok tr st',
         prop_FC csp st newVar = Returned ok tr st' ->
         forall v d, In (v, d) tr -> get_assigned_value st v = None)
  /\ (forall ok tr st',
         prop_FI csp st newVar = Some (Returned ok tr st') ->
         forall v d, In (v, d) tr ->
           exists c, In c (get_all_cons csp)
                     /\ In v (get_scope c)
                     /\ has_support st' c v d = false).
Proof.
  split; [|split].
  - destruct newVar; simpl; eauto.
  - intros ok tr st' E v d Hin. apply prop_FC_pruning in E.
    destruct (pruning_reason _ _ _ _ _ _ E Hin)
      as (tr1 & tr2 & s & _ & H1 & Hr & _).
    rewrite <- (pruning_assigned _ _ _ _ H1 v).
    eapply FC_reason_unassigned; eassumption.
  - intros ok tr st' E v d Hin. apply prop_FI_pruning in E.
    destruct (pruning_reason _ _ _ _ _ _ E Hin)
      as (tr1 & tr2 & s & _ & _ & Hr & H2).
    destruct Hr as (w & c & Hc & Hv & _ & Hs).
    exists c. apply get_cons_with_var_In in Hc as [Hc _].
    repeat split; trivial.
    destruct (has_support st' c v d) eqn:Hs'; [|reflexivity].
    rewrite <- Hs. symmetry.
    apply (has_support_mono s st' c v d); [|assumption].
    intros u x _ _. now apply (pruning_subset _ _ _ _ H2).
Qed.

End AssignedValues.

(** C4.  X, Y, Z and T over {1, 2} with a constraint over (X, Y, Z) that
    asks for Y = Z, T = Y and T <> Z.  prop_FI prunes nothing before the
    search and nothing after X := 1.  After T := 1, prop_FI called for T
    prunes 2 from Y and 1 from Z, dequeues Y and revises X, the first
    variable in the scope of the constraint over (X, Y, Z): X = 1 has no
    support left, and prop_FI prunes 1 from X, the value X is assigned.
    prop_FC, called for T in the same store, prunes from Y and Z only. *)
Theorem prop_FI_prunes_the_assigned_value_of_X :
  (exists st',
      prop_FI csp_xyzt st_xyzt None = Some (Returned true [] st'))
  /\ (exists st',
         prop_FI csp_xyzt st_xyzt_x (Some 0) = Some (Returned true [] st'))
  /\ get_assigned_value st_xyzt_xt 0 = Some 1%Z
  /\ get_assigned_value st_xyzt_xt 3 = Some 1%Z
  /\ cur_domain st_xyzt_xt 0 = [1%Z]
  /\ (exists st',
         prop_FI csp_xyzt st_xyzt_xt (Some 3)
         = Some (Returned false [(1, 2%Z); (2, 1%Z); (0, 1%Z)] st')
         /\ get_assigned_value st' 0 = Some 1%Z
         /\ cur_domain st' 0 = [])
  /\ (exists st',
         prop_FC csp_xyzt st_xyzt_xt (Some 3)
         = Returned true [(1, 2%Z); (2, 1%Z)] st').
Proof.
  split; [eexists; reflexivity|].
  split; [eexists; reflexivity|].
  split; [reflexivity|]. split; [reflexivity|]. split; [reflexivity|].
  split.
  - eexists. split; [reflexivity|]. split; reflexivity.
  - eexists. reflexivity.
Qed.

(* ================================================================== *)
(** * prop_FC does what the design document says *)

Section ForwardChecking.

Lemma store_eq_cur_domain st st' u :
  store_eq st st' -> cur_domain st u = cur_domain st' u.
Proof. intros E. unfold cur_domain. now rewrite E. Qed.

Lemma store_eq_assigned st st' u :
  store_eq st st' -> get_assigned_value st u = get_assigned_value st' u.
Proof. intros E. unfold get_assigned_value. now rewrite E. Qed.

Lemma FC_rejects_ext st st' c U d :
  (forall u, get_assigned_value st' u = get_assigned_value st u) ->
  FC_rejects st' c U d = FC_rejects st c U d.
Proof. intros E. unfold FC_rejects. now rewrite (FC_tuple_ext st st'). Qed.

Lemma filter_filter {A} (f g : A -> bool) l :
  filter f (filter g l) = filter (fun x => g x && f x) l.
Proof.
  induction l as [|a l IH]; simpl; [reflexivity|].
  destruct (g a); simpl; [destruct (f a)|]; now rewrite IH.
Qed.

Lemma filter_ext_in_list {A} (f g : A -> bool) l :
  (forall x, In x l -> f x = g x) -> filter f l = filter g l.
Proof.
  induction l as [|a l IH]; simpl; intros H; [reflexivity|].
  rewrite (H a (or_introl eq_refl)), IH; [reflexivity|]. auto.
Qed.

(** The loop over the values prunes the rejected values, in order. *)
Lemma FC_values_spec c U :
  forall vals st pruned st' pruned',
    FC_values c U vals st pruned = Next (st', pruned') ->
    pruned' = pruned ++ map (pair U) (filter (FC_rejects st c U) vals)
    /\ cur_domain st' U
       = filter (fun x => negb (mem_value x (filter (FC_rejects st c U) vals)))
                (cur_domain st U)
    /\ (forall u, u <> U -> st' u = st u)
    /\ (forall u, get_assigned_value st' u = get_assigned_value st u).
Proof.
  induction vals as [|val vals IH]; intros st pruned st' pruned'; simpl.
  - intros E. injection E as <- <-. rewrite app_nil_r.
    repeat split; trivial. symmetry. apply forallb_filter_id.
    now apply forallb_forall.
  - destruct (check c (FC_tuple st c U val)) eqn:Hchk.
    + assert (Hr : FC_rejects st c U val = false)
        by (unfold FC_rejects; now rewrite Hchk).
      rewrite Hr. apply IH.
    + assert (Hr : FC_rejects st c U val = true)
        by (unfold FC_rejects; now rewrite Hchk).
      rewrite Hr. simpl.
      destruct (prune_value st U val) as [st1|] eqn:Hp; [|easy].
      intros E. apply IH in E as (E1 & E2 & E3 & E4).
      destruct (prune_value_Some _ _ _ _ Hp) as (_ & Hd & Ho & Ha).
      assert (Hrej : filter (FC_rejects st1 c U) vals
                     = filter (FC_rejects st c U) vals).
      { apply filter_ext. intros x. now apply FC_rejects_ext. }
      rewrite Hrej in *. repeat split.
      * rewrite E1, <- app_assoc. reflexivity.
      * rewrite E2, Hd. unfold remove_value. rewrite filter_filter.
        apply filter_ext. intros x. simpl.
        rewrite negb_orb, (Z.eqb_sym x val). reflexivity.
      * intros u Hu. rewrite (E3 u Hu). now apply Ho.
      * intros u. now rewrite E4.
Qed.

Lemma kept_values st c U :
  filter (fun x => negb (mem_value x (filter (FC_rejects st c U)
                                             (cur_domain st U))))
         (cur_domain st U)
  = filter (fun d => negb (FC_rejects st c U d)) (cur_domain st U).
Proof.
  apply filter_ext_in_list. intros x Hx. f_equal.
  apply eq_true_iff_eq. rewrite mem_value_In, filter_In. tauto.
Qed.

(** With one unassigned variable in the scope, the substituted tuple of
    the design document exists and is the tuple the code builds. *)
Lemma described_tuple_built st c U d :
  get_unasgn_vars st c = [U] ->
  described_tuple st c U d = Some (FC_tuple st c U d).
Proof.
  intros HU. destruct (sole_unassigned st c U HU) as [_ Hothers].
  unfold described_tuple, FC_tuple. revert Hothers.
  induction (get_scope c) as [|u scope IH]; intros Hothers; simpl;
    [reflexivity|].
  assert (Hrest : forall u', In u' scope -> u' <> U ->
                             exists a, get_assigned_value st u' = Some a)
    by (intros u' Hu'; apply Hothers; now right).
  destruct (Nat.eqb_spec u U) as [_|Hne].
  - now rewrite (IH Hrest).
  - destruct (Hothers u (or_introl eq_refl) Hne) as [a Ha].
    unfold assigned_or_zero. rewrite Ha. now rewrite (IH Hrest).
Qed.

Lemma spec_rejects_built st c U d :
  get_unasgn_vars st c = [U] ->
  spec_rejects st c U d = FC_rejects st c U d.
Proof.
  intros HU. unfold spec_rejects, FC_rejects.
  now rewrite (described_tuple_built st c U d HU).
Qed.

Lemma FC_cons_refines :
  forall cs st sp pruned,
    store_eq st sp -> store_wf st ->
    exists st',
      FC_cons cs st pruned
      = Returned (fst (fst (FC_spec_cons cs sp pruned)))
                 (snd (fst (FC_spec_cons cs sp pruned))) st'
      /\ store_eq st' (snd (FC_spec_cons cs sp pruned)).
Proof.
  induction cs as [|c cs IH]; intros st sp pruned E W; simpl.
  - eauto.
  - assert (EU : get_unasgn_vars st c = get_unasgn_vars sp c).
    { apply get_unasgn_vars_ext. intros u. symmetry.
      now apply store_eq_assigned. }
    unfold get_n_unasgn. rewrite EU.
    destruct (get_unasgn_vars sp c) as [|U [|U' rest]] eqn:HU; simpl;
      try (now apply IH).
    rewrite (filter_ext _ _ (fun d => spec_rejects_built sp c U d HU)).
    rewrite (filter_ext _ _ (fun d => f_equal negb
                                        (spec_rejects_built sp c U d HU))).
    destruct (FC_values_returns c U (cur_domain st U) st pruned (W U)
                (incl_refl _)) as (st' & pruned' & Hv).
    rewrite Hv.
    destruct (FC_values_spec c U _ _ _ _ _ Hv) as (E1 & E2 & E3 & E4).
    rewrite kept_values in E2.
    assert (Erej : forall d, FC_rejects st c U d = FC_rejects sp c U d).
    { intros d. apply FC_rejects_ext. intros u.
      now apply store_eq_assigned. }
    rewrite (filter_ext _ _ Erej) in E1.
    rewrite (filter_ext _ _ (fun d => f_equal negb (Erej d))) in E2.
    rewrite (store_eq_cur_domain st sp U E) in E1, E2.
    set (kept := filter (fun d => negb (FC_rejects sp c U d))
                        (cur_domain sp U)) in *.
    set (sp' := update sp U (mkVariable kept (assignedValue (sp U)))).
    assert (E' : store_eq st' sp').
    { intros u. unfold sp', update.
      destruct (Nat.eqb_spec u U) as [->|Hu].
      - specialize (E4 U). unfold get_assigned_value in E4.
        unfold cur_domain in E2. rewrite <- (E U), <- E4, <- E2.
        now destruct (st' U).
      - rewrite (E3 u Hu). apply E. }
    assert (W' : store_wf st').
    { intros u. destruct (Nat.eq_dec u U) as [->|Hu].
      - rewrite E2. unfold kept. apply NoDup_filter.
        rewrite <- (store_eq_cur_domain st sp U E). apply W.
      - unfold cur_domain. rewrite (E3 u Hu). apply W. }
    unfold cur_domain_size. rewrite E2, <- E1.
    destruct kept as [|k kept']; simpl.
    + eauto.
    + now apply IH.
Qed.

Variable csp : CSP.

(** C3.  On current domains without duplicates prop_FC returns what the
    design document describes: over the relevant constraints (all of them
    without a trigger, those of the trigger otherwise), for each constraint
    with exactly one unassigned variable U, the values of U's current
    domain whose substituted tuple is rejected are pruned and traced, and
    no others; failure with the trace so far as soon as a scan leaves U
    without value, success with the full trace otherwise. *)
Theorem prop_FC_refines_its_description st newVar :
  store_wf st ->
  exists st',
    prop_FC csp st newVar
    = Returned (fst (fst (prop_FC_spec csp st newVar)))
               (snd (fst (prop_FC_spec csp st newVar))) st'
    /\ store_eq st' (snd (prop_FC_spec csp st newVar)).
Proof.
  intros W. unfold prop_FC, prop_FC_spec, FC_constraints.
  apply FC_cons_refines; [intros v; reflexivity | assumption].
Qed.

End ForwardChecking.

Lemma prop_FC_refines_its_description_witness :
  exists st',
    prop_FC csp_abc st_abc (Some 0) = Returned true [(1, 1%Z); (2, 1%Z)] st'
    /\ store_eq st' (snd (prop_FC_spec csp_abc st_abc (Some 0))).
Proof.
  assert (W : store_wf st_abc).
  { intros v. unfold cur_domain, st_abc.
    destruct v; simpl; repeat constructor; simpl; intuition lia. }
  exact (prop_FC_refines_its_description csp_abc st_abc (Some 0) W).
Defined.

(* ================================================================== *)
(** * prop_FI terminates *)

Section Termination.

Variable csp : CSP.

(** The loop over the values only touches the domain of [v], and only
    shrinks it. *)
Lemma FI_values_only_v c v :
  forall ds st pruned st' pruned',
    FI_values c v ds st pruned = Next (st', pruned') ->
    (forall u, u <> v -> st' u = st u)
    /\ cur_domain_size st' v <= cur_domain_size st v.
Proof.
  induction ds as [|d ds IH]; intros st pruned st' pruned'; simpl.
  - intros E. injection E as <- <-. split; auto.
  - destruct (has_support st c v d); [apply IH|].
    destruct (prune_value st v d) as [st1|] eqn:Hp; [|easy].
    destruct (Nat.eqb (cur_domain_size st1 v) 0); [easy|].
    intros E. apply IH in E as [E1 E2].
    destruct (prune_value_Some _ _ _ _ Hp) as (_ & _ & Ho & _).
    pose proof (prune_value_size_le _ _ _ _ v Hp). split.
    + intros u Hu. rewrite (E1 u Hu). now apply Ho.
    + lia.
Qed.

Lemma total_size_le st st' vs :
  (forall u, cur_domain_size st' u <= cur_domain_size st u) ->
  total_size st' vs <= total_size st vs.
Proof.
  intros H. unfold total_size. induction vs as [|a vs IH]; simpl; [lia|].
  specialize (H a). lia.
Qed.

Lemma total_size_lt st st' vs v :
  (forall u, cur_domain_size st' u <= cur_domain_size st u) ->
  In v vs -> cur_domain_size st' v < cur_domain_size st v ->
  total_size st' vs < total_size st vs.
Proof.
  intros H Hin Hlt. unfold total_size.
  induction vs as [|a vs IH]; simpl; [destruct Hin|].
  pose proof (total_size_le st st' vs H) as Hle. unfold total_size in Hle.
  destruct Hin as [-> | Hin].
  - lia.
  - specialize (IH Hin). specialize (H a). lia.
Qed.

Lemma scope_in_scope_vars w c :
  In c (get_cons_with_var csp w) -> incl (get_scope c) (scope_vars csp).
Proof.
  intros Hc v Hv. apply get_cons_with_var_In in Hc as [Hc _].
  unfold scope_vars. apply nodup_In, in_concat.
  exists (get_scope c). split; [now apply in_map | assumption].
Qed.

(** Putting a variable in the queue is paid for by a pruned value. *)
Lemma FI_scope_measure c w :
  forall vs, incl vs (scope_vars csp) ->
  forall st pruned queue st' pruned' queue',
    FI_scope c w vs st pruned queue = Next (st', pruned', queue') ->
    length queue' + total_size st' (scope_vars csp)
    <= length queue + total_size st (scope_vars csp).
Proof.
  induction vs as [|v vs IH];
    intros Hincl st pruned queue st' pruned' queue'; simpl.
  - intros E. injection E as <- <- <-. lia.
  - assert (Hv : In v (scope_vars csp)) by (apply Hincl; now left).
    assert (Hvs : incl vs (scope_vars csp))
      by (intros x Hx; apply Hincl; now right).
    destruct (Nat.eqb v w); [now apply IH|].
    destruct (FI_values c v (cur_domain st v) st pruned)
      as [[st1 pruned1] | o] eqn:Hval; [|easy].
    destruct (FI_values_only_v c v _ _ _ _ _ Hval) as [Ho Hle].
    assert (Hall : forall u, cur_domain_size st1 u <= cur_domain_size st u).
    { intros u. destruct (Nat.eq_dec u v) as [->|Hu]; [assumption|].
      unfold cur_domain_size, cur_domain. now rewrite (Ho u Hu). }
    intros E. apply (IH Hvs) in E.
    destruct (Nat.eqb_spec (cur_domain_size st1 v) (cur_domain_size st v))
      as [Heq | Hne]; simpl in E.
    + pose proof (total_size_le st st1 (scope_vars csp) Hall). lia.
    + assert (Hlt : cur_domain_size st1 v < cur_domain_size st v) by lia.
      pose proof (total_size_lt st st1 (scope_vars csp) v Hall Hv Hlt).
      destruct (in_queue v queue); simpl in E;
        [|rewrite length_app in E; simpl in E]; lia.
Qed.

Lemma FI_cons_measure w :
  forall cs, incl cs (get_cons_with_var csp w) ->
  forall st pruned queue st' pruned' queue',
    FI_cons w cs st pruned queue = Next (st', pruned', queue') ->
    length queue' + total_size st' (scope_vars csp)
    <= length queue + total_size st (scope_vars csp).
Proof.
  induction cs as [|c cs IH];
    intros Hincl st pruned queue st' pruned' queue'; simpl.
  - intros E. injection E as <- <- <-. lia.
  - assert (Hc : In c (get_cons_with_var csp w)) by (apply Hincl; now left).
    assert (Hcs : incl cs (get_cons_with_var csp w))
      by (intros x Hx; apply Hincl; now right).
    destruct (FI_scope c w (get_scope c) st pruned queue)
      as [[[st1 pruned1] queue1] | o] eqn:Hs; [|easy].
    apply FI_scope_measure in Hs; [|now apply (scope_in_scope_vars w)].
    intros E. apply (IH Hcs) in E. lia.
Qed.

(** With more rounds than queued variables and values left, the worklist
    loop comes to its end. *)
Lemma FI_loop_ends :
  forall fuel queue st pruned,
    length queue + total_size st (scope_vars csp) < fuel ->
    exists o, FI_loop csp fuel queue st pruned = Some o.
Proof.
  induction fuel as [|fuel IH]; intros queue st pruned Hlt; [lia|].
  simpl. destruct queue as [|w queue]; [eauto|].
  destruct (FI_cons w (get_cons_with_var csp w) st pruned queue)
    as [[[st' pruned'] queue'] | o] eqn:Hc; [|eauto].
  apply FI_cons_measure in Hc; [|apply incl_refl].
  apply IH. simpl in Hlt. lia.
Qed.

(** The result of the loop does not depend on the rounds left over. *)
Lemma FI_loop_more_fuel :
  forall fuel queue st pruned o,
    FI_loop csp fuel queue st pruned = Some o ->
    forall fuel', fuel <= fuel' ->
                  FI_loop csp fuel' queue st pruned = Some o.
Proof.
  induction fuel as [|fuel IH]; intros queue st pruned o; simpl; [easy|].
  intros E [|fuel'] Hle; [lia|]. simpl.
  destruct queue as [|w queue]; [assumption|].
  destruct (FI_cons w (get_cons_with_var csp w) st pruned queue)
    as [[[st' pruned'] queue'] | o']; [|assumption].
  apply (IH _ _ _ _ E). lia.
Qed.

(** C6.  prop_FI terminates, on every CSP instance, store and trigger: the
    worklist loop ends within the rounds counted by the queued variables
    and the values left in the domains, since every round dequeues a
    variable and a variable is enqueued only after its domain shrank; more
    rounds do not change the result. *)
Theorem prop_FI_terminates st newVar :
  exists o,
    prop_FI csp st newVar = Some o
    /\ forall fuel,
        FI_rounds csp st (FI_queue csp newVar) <= fuel ->
        FI_loop csp fuel (FI_queue csp newVar) st [] = Some o.
Proof.
  unfold prop_FI.
  destruct (FI_loop_ends (FI_rounds csp st (FI_queue csp newVar))
              (FI_queue csp newVar) st []) as [o E].
  - unfold FI_rounds. lia.
  - exists o. split; [assumption|].
    intros fuel Hle. eapply FI_loop_more_fuel; eassumption.
Qed.

End Termination.

(* ================================================================== *)
(** * The fixpoint of prop_FI *)

Section GacFixpoint.

Variable csp : CSP.

(** What the loop over the values of [v] leaves behind. *)
Lemma FI_values_revise c v :
  forall ds st pruned st' pruned',
    FI_values c v ds st pruned = Next (st', pruned') ->
    (forall u, u <> v -> st' u = st u)
    /\ (forall d, In d (cur_domain st' v) -> In d (cur_domain st v))
    /\ (forall d, In d ds -> In d (cur_domain st' v) ->
                  has_support st c v d = true)
    /\ ((st' = st /\ pruned' = pruned)
        \/ cur_domain_size st' v < cur_domain_size st v).
Proof.
  induction ds as [|d ds IH]; intros st pruned st' pruned'; simpl.
  - intros E. injection E as <- <-. repeat split; auto.
  - destruct (has_support st c v d) eqn:Hs.
    + intros E. apply IH in E as (E1 & E2 & E3 & E4).
      repeat split; trivial. intros x [<- | Hx] Hin; auto.
    + destruct (prune_value st v d) as [st1|] eqn:Hp; [|easy].
      destruct (Nat.eqb (cur_domain_size st1 v) 0); [easy|].
      intros E. apply IH in E as (E1 & E2 & E3 & E4).
      destruct (prune_value_Some _ _ _ _ Hp) as (_ & Hd & Ho & _).
      pose proof (prune_value_size_lt _ _ _ _ Hp) as Hlt.
      assert (Hsub : forall x, In x (cur_domain st' v) ->
                               In x (cur_domain st v) /\ x <> d).
      { intros x Hx. apply E2 in Hx. rewrite Hd in Hx.
        now apply remove_value_In in Hx. }
      repeat split.
      * intros u Hu. rewrite (E1 u Hu). now apply Ho.
      * intros x Hx. now apply Hsub in Hx.
      * intros x [<- | Hx] Hin.
        -- apply Hsub in Hin. now destruct Hin.
        -- rewrite <- (E3 x Hx Hin). symmetry. apply has_support_ext.
           intros u _ Hu. unfold cur_domain. now rewrite (Ho u Hu).
      * right. destruct E4 as [[-> _] | E4]; lia.
Qed.

Lemma FI_inv_weaken (P P' : Constraint -> Var -> Prop) D queue st :
  (forall c v, In v (get_scope c) -> P c v -> P' c v) ->
  FI_inv csp P D queue st -> FI_inv csp P' D queue st.
Proof.
  intros Himp Hinv c v Hc Hv HD.
  destruct (Hinv c v Hc Hv HD) as [H | [H | H]]; auto.
Qed.

Lemma other_in_incl l l' c v :
  incl l l' -> other_in l c v -> other_in l' c v.
Proof. intros Hincl (u & H1 & H2 & H3). exists u. auto. Qed.

Lemma revised_shrink st st1 c v :
  (forall u, u <> v -> st1 u = st u) ->
  (forall d, In d (cur_domain st1 v) -> In d (cur_domain st v)) ->
  revised st c v -> revised st1 c v.
Proof.
  intros Ho Hsub Hrev d Hd. rewrite <- (Hrev d (Hsub d Hd)).
  apply has_support_ext. intros u _ Hu. unfold cur_domain.
  now rewrite (Ho u Hu).
Qed.

Lemma revised_elsewhere st st1 c v x :
  (forall u, u <> v -> st1 u = st u) ->
  x <> v -> ~ In v (get_scope c) ->
  revised st c x -> revised st1 c x.
Proof.
  intros Ho Hx Hv Hrev d Hd. unfold cur_domain in Hd.
  rewrite (Ho x Hx) in Hd. rewrite <- (Hrev d Hd).
  apply has_support_ext. intros u Hu _. unfold cur_domain.
  rewrite Ho; [reflexivity|]. intros ->. contradiction.
Qed.

(** The invariant after [v] is revised against [c0] in the round of [w]. *)
Lemma FI_inv_revise D queue queue1 st st1 c0 v w cs vs :
  FI_inv csp (pending_scope w cs c0 (v :: vs)) D queue st ->
  (forall u, u <> v -> st1 u = st u) ->
  (forall d, In d (cur_domain st1 v) -> In d (cur_domain st v)) ->
  revised st1 c0 v ->
  incl queue queue1 ->
  st1 = st \/ In v queue1 ->
  FI_inv csp (pending_scope w cs c0 vs) D queue1 st1.
Proof.
  intros Hinv Ho Hsub Hrev0 Hq Hch c x Hc Hx HD.
  destruct (Hinv c x Hc Hx HD) as [Hrev | [Hoq | [Hxw [Hcs | [-> Hin]]]]].
  - destruct (Nat.eq_dec x v) as [->|Hxv].
    + left. eapply revised_shrink; eassumption.
    + destruct Hch as [-> | Hvq]; [now left|].
      destruct (in_dec Nat.eq_dec v (get_scope c)) as [Hv | Hv].
      * right. left. exists v. auto.
      * left. eapply revised_elsewhere; eassumption.
  - right. left. eapply other_in_incl; eassumption.
  - right. right. split; auto.
  - destruct Hin as [<- | Hin].
    + now left.
    + right. right. split; auto.
Qed.

Lemma FI_scope_inv D c0 w cs :
  forall vs st pruned queue st' pruned' queue',
    FI_inv csp (pending_scope w cs c0 vs) D queue st ->
    FI_scope c0 w vs st pruned queue = Next (st', pruned', queue') ->
    FI_inv csp (pending_cons w cs) D queue' st' /\ incl queue queue'.
Proof.
  induction vs as [|v vs IH]; intros st pruned queue st' pruned' queue' Hinv;
    simpl.
  - intros E. injection E as <- <- <-. split; [|apply incl_refl].
    eapply FI_inv_weaken; [|eassumption].
    intros c v _ [H1 [H2 | [_ []]]]. now split.
  - destruct (Nat.eqb_spec v w) as [->|Hvw].
    + apply IH. eapply FI_inv_weaken; [|eassumption].
      intros c v _ [H1 [H2 | [H2 [H3 | H3]]]]; split; auto.
      congruence.
    + destruct (FI_values c0 v (cur_domain st v) st pruned)
        as [[st1 pruned1] | o] eqn:Hval; [|easy].
      destruct (FI_values_revise c0 v _ _ _ _ _ Hval)
        as (Ho & Hsub & Hsup & Hch).
      assert (Hrev : revised st1 c0 v).
      { intros d Hd. rewrite <- (Hsup d (Hsub d Hd) Hd).
        apply has_support_ext. intros u _ Hu. unfold cur_domain.
        now rewrite (Ho u Hu). }
      set (queue1 := if negb (Nat.eqb (cur_domain_size st1 v)
                                      (cur_domain_size st v))
                        && negb (in_queue v queue)
                     then queue ++ [v] else queue).
      assert (Hq : incl queue queue1).
      { unfold queue1. destruct (_ && _); [|apply incl_refl].
        apply incl_appl, incl_refl. }
      assert (Hch' : st1 = st \/ In v queue1).
      { destruct Hch as [[-> _] | Hlt]; [now left|]. right. unfold queue1.
        destruct (Nat.eqb_spec (cur_domain_size st1 v) (cur_domain_size st v));
          [lia|]. simpl.
        destruct (in_queue v queue) eqn:Hvq; simpl.
        - now apply in_queue_In.
        - apply in_or_app. right. now left. }
      intros E. apply IH in E.
      * destruct E as [E1 E2]. split; [assumption|].
        eapply incl_tran; eassumption.
      * eapply FI_inv_revise; eassumption.
Qed.

Lemma FI_cons_inv D w :
  forall cs st pruned queue st' pruned' queue',
    FI_inv csp (pending_cons w cs) D queue st ->
    FI_cons w cs st pruned queue = Next (st', pruned', queue') ->
    FI_inv csp nothing_pending D queue' st' /\ incl queue queue'.
Proof.
  induction cs as [|c0 cs IH];
    intros st pruned queue st' pruned' queue' Hinv; simpl.
  - intros E. injection E as <- <- <-. split; [|apply incl_refl].
    eapply FI_inv_weaken; [|eassumption]. intros c v _ [_ []].
  - destruct (FI_scope c0 w (get_scope c0) st pruned queue)
      as [[[st1 pruned1] queue1] | o] eqn:Hs; [|easy].
    apply (FI_scope_inv D c0 w cs) in Hs.
    + destruct Hs as [H1 H2]. intros E. apply (IH _ _ _ _ _ _ H1) in E.
      destruct E as [E1 E2]. split; [assumption|].
      eapply incl_tran; eassumption.
    + eapply FI_inv_weaken; [|eassumption].
      intros c v Hv [H1 [<- | H2]]; split; auto.
Qed.

(** A loop of prop_FI leaves the function only with a failure. *)
Lemma FI_values_exit c v :
  forall ds st pruned ok p s,
    FI_values c v ds st pruned = Exit (Returned ok p s) -> ok = false.
Proof.
  induction ds as [|d ds IH]; intros st pruned ok p s; simpl; [easy|].
  destruct (has_support st c v d); [apply IH|].
  destruct (prune_value st v d) as [st1|]; [|easy].
  destruct (Nat.eqb (cur_domain_size st1 v) 0); [|apply IH].
  intros E. now injection E as <- _ _.
Qed.

Lemma FI_scope_exit c w :
  forall vs st pruned queue ok p s,
    FI_scope c w vs st pruned queue = Exit (Returned ok p s) -> ok = false.
Proof.
  induction vs as [|v vs IH]; intros st pruned queue ok p s; simpl; [easy|].
  destruct (Nat.eqb v w); [apply IH|].
  destruct (FI_values c v (cur_domain st v) st pruned)
    as [[st1 pruned1] | o] eqn:Hv; [apply IH|].
  intros E. injection E as ->. now apply FI_values_exit in Hv.
Qed.

Lemma FI_cons_exit w :
  forall cs st pruned queue ok p s,
    FI_cons w cs st pruned queue = Exit (Returned ok p s) -> ok = false.
Proof.
  induction cs as [|c cs IH]; intros st pruned queue ok p s; simpl; [easy|].
  destruct (FI_scope c w (get_scope c) st pruned queue)
    as [[[st1 pruned1] queue1] | o] eqn:Hs; [apply IH|].
  intros E. injection E as ->. now apply FI_scope_exit in Hs.
Qed.

(** A round starts: [w] leaves the queue and its constraints are pending. *)
Lemma FI_inv_dequeue D w queue st :
  FI_inv csp nothing_pending D (w :: queue) st ->
  FI_inv csp (pending_cons w (get_cons_with_var csp w)) (w :: D) queue st.
Proof.
  intros Hinv c v Hc Hv (u & Hu & Huv & [<- | HuD]).
  - right. right. split; [auto|]. apply get_cons_with_var_In. auto.
  - destruct (Hinv c v Hc Hv) as [H | [(u' & H1 & H2 & [<- | H3]) | []]].
    + exists u. auto.
    + now left.
    + right. right. split; [auto|]. apply get_cons_with_var_In. auto.
    + right. left. exists u'. auto.
Qed.

(** When the worklist loop returns success, every variable that was in the
    queue at some time has been dequeued and the invariant holds with an
    empty queue. *)
Lemma FI_loop_inv :
  forall fuel D queue st pruned tr st',
    FI_inv csp nothing_pending D queue st ->
    FI_loop csp fuel queue st pruned = Some (Returned true tr st') ->
    exists D', incl D D' /\ incl queue D'
               /\ FI_inv csp nothing_pending D' [] st'.
Proof.
  induction fuel as [|fuel IH]; intros D queue st pruned tr st' Hinv; simpl;
    [easy|].
  destruct queue as [|w queue].
  - intros E. injection E as <- <-. exists D.
    repeat split; auto using incl_refl. intros x [].
  - destruct (FI_cons w (get_cons_with_var csp w) st pruned queue)
      as [[[st1 pruned1] queue1] | o] eqn:Hc.
    + apply (FI_cons_inv (w :: D) w) in Hc; [|now apply FI_inv_dequeue].
      destruct Hc as [H1 H2]. intros E.
      destruct (IH _ _ _ _ _ _ H1 E) as (D' & HD & Hq & Hinv').
      exists D'. repeat split; trivial.
      * intros x Hx. apply HD. now right.
      * intros x [<- | Hx]; [apply HD; now left | apply Hq, H2, Hx].
    + intros E. injection E as ->. now apply FI_cons_exit in Hc.
Qed.

End GacFixpoint.

(* ================================================================== *)
(** * Running prop_FI at its fixpoint *)

Section Idempotence.

Variable csp : CSP.

Lemma FI_values_quiet c v :
  forall ds st pruned,
    (forall d, In d ds -> has_support st c v d = true) ->
    FI_values c v ds st pruned = Next (st, pruned).
Proof.
  induction ds as [|d ds IH]; intros st pruned H; simpl; [reflexivity|].
  rewrite (H d (or_introl eq_refl)). apply IH. intros x Hx. apply H.
  now right.
Qed.

Lemma FI_scope_quiet c w :
  forall vs st pruned queue,
    (forall v, In v vs -> v <> w -> revised st c v) ->
    FI_scope c w vs st pruned queue = Next (st, pruned, queue).
Proof.
  induction vs as [|v vs IH]; intros st pruned queue H; simpl; [reflexivity|].
  assert (H' : forall x, In x vs -> x <> w -> revised st c x)
    by (intros x Hx; apply H; now right).
  destruct (Nat.eqb_spec v w) as [_|Hvw]; [now apply IH|].
  rewrite FI_values_quiet by (apply H; [now left | assumption]).
  rewrite Nat.eqb_refl. simpl. now apply IH.
Qed.

Lemma FI_cons_quiet w :
  forall cs st pruned queue,
    (forall c v, In c cs -> In v (get_scope c) -> v <> w -> revised st c v) ->
    FI_cons w cs st pruned queue = Next (st, pruned, queue).
Proof.
  induction cs as [|c cs IH]; intros st pruned queue H; simpl; [reflexivity|].
  rewrite FI_scope_quiet by (intros v; apply H; now left).
  apply IH. intros c' v Hc'. apply H. now right.
Qed.

Lemma FI_loop_quiet :
  forall fuel queue st pruned,
    length queue < fuel ->
    (forall w c v, In w queue -> In c (get_cons_with_var csp w) ->
                   In v (get_scope c) -> v <> w -> revised st c v) ->
    FI_loop csp fuel queue st pruned = Some (Returned true pruned st).
Proof.
  induction fuel as [|fuel IH]; intros queue st pruned Hlt H; [lia|].
  simpl. destruct queue as [|w queue]; [reflexivity|].
  rewrite FI_cons_quiet by (intros c v; apply H; now left).
  apply IH; [simpl in Hlt; lia|].
  intros w' c v Hw'. apply H. now right.
Qed.

(** After a successful prop_FI, the variables of the constraints of every
    variable the queue started with have all their values supported. *)
Lemma prop_FI_fixpoint st newVar tr st' :
  prop_FI csp st newVar = Some (Returned true tr st') ->
  forall w c v,
    In w (FI_queue csp newVar) -> In c (get_cons_with_var csp w) ->
    In v (get_scope c) -> v <> w -> revised st' c v.
Proof.
  unfold prop_FI. intros E w c v Hw Hc Hv Hvw.
  apply (FI_loop_inv csp _ []) in E.
  - destruct E as (D' & _ & Hq & Hinv).
    apply get_cons_with_var_In in Hc as [Hc Hwc].
    destruct (Hinv c v Hc Hv) as [H | [(u & _ & _ & []) | []]]; trivial.
    exists w. auto.
  - intros c' v' _ _ (u & _ & _ & []).
Qed.

(** After a successful pre-search prop_FI, a variable of a constraint that
    has another variable of the CSP in its scope has all its values
    supported in that constraint. *)
Lemma prop_FI_arc_consistent st tr st' :
  prop_FI csp st None = Some (Returned true tr st') ->
  forall c v,
    In c (get_all_cons csp) -> In v (get_scope c) ->
    other_in (get_all_vars csp) c v -> revised st' c v.
Proof.
  intros E c v Hc Hv (u & Hu & Huv & Hin).
  apply (prop_FI_fixpoint st None tr st' E u c v); auto.
  apply get_cons_with_var_In. auto.
Qed.

(** C9.  prop_FI is idempotent at its fixpoint: when it returns success,
    a second call on the resulting store with the same trigger returns
    success, prunes nothing, and leaves the store as it is. *)
Theorem prop_FI_idempotent st newVar tr st' :
  prop_FI csp st newVar = Some (Returned true tr st') ->
  prop_FI csp st' newVar = Some (Returned true [] st').
Proof.
  intros E. unfold prop_FI. apply FI_loop_quiet.
  - unfold FI_rounds. lia.
  - intros w c v. now apply (prop_FI_fixpoint st newVar tr st' E).
Qed.

End Idempotence.

Lemma prop_FI_idempotent_witness :
  exists st',
    prop_FI csp_sum st_sum None
    = Some (Returned true [(1, 3%Z); (1, 4%Z); (0, 3%Z); (0, 4%Z)] st')
    /\ prop_FI csp_sum st' None = Some (Returned true [] st').
Proof.
  eexists. split; [reflexivity|].
  apply (prop_FI_idempotent csp_sum st_sum None
           [(1, 3%Z); (1, 4%Z); (0, 3%Z); (0, 4%Z)]).
  reflexivity.
Defined.

Lemma prop_FI_terminates_witness :
  exists o, FI_loop csp_sum 100 (FI_queue csp_sum None) st_sum [] = Some o.
Proof.
  destruct (prop_FI_terminates csp_sum st_sum None) as [o [_ H]].
  exists o. apply H. unfold FI_rounds, total_size, cur_domain_size. simpl. lia.
Defined.

(* ================================================================== *)
(** * Unary constraints *)

(** C1.  prop_FI without a trigger on the grid of side 2 whose top-left
    cell is bound to 2 by a unary constraint: a constraint whose scope is the
    dequeued variable alone is skipped by the loop over the scope, so
    prop_FI returns success and prunes nothing, and 1 stays in the domain of
    the top-left cell although the unary constraint has no support for it:
    the resulting domains are not arc consistent. *)
Theorem prop_FI_skips_unary_constraints :
  exists st',
    prop_FI csp_grid st_grid None = Some (Returned true [] st')
    /\ In only_two (get_cons_with_var csp_grid 0)
    /\ In 1%Z (cur_domain st' 0)
    /\ has_support st' only_two 0 1%Z = false
    /\ ~ GAC st' (get_all_cons csp_grid).
Proof.
  eexists. split; [reflexivity|].
  split; [simpl; auto 6|]. split; [now left|]. split; [reflexivity|].
  intros H.
  assert (Hc : In only_two (get_all_cons csp_grid)) by (simpl; auto 6).
  specialize (H only_two 0 Hc (or_introl eq_refl) 1%Z (or_introl eq_refl)).
  discriminate.
Qed.

(** C5.  On one variable with domain {1} and a unary constraint that only
    admits 2, prop_FC, which looks at every constraint with one unassigned
    variable, prunes 1 and returns failure, while prop_FI, which skips the
    constraint, returns success. *)
Theorem prop_FC_fails_where_prop_FI_succeeds :
  (exists st', prop_FC csp_unary st_unary None
               = Returned false [(0, 1%Z)] st')
  /\ (exists st', prop_FI csp_unary st_unary None
                  = Some (Returned true [] st')).
Proof.
  split; eexists; reflexivity.
Qed.

(* ================================================================== *)
(** * The tuples of subtraction and division cages *)

Section CageTuples.

Lemma insert_all_In x l l' :
  In l' (insert_all x l) <->
  exists l1 l2, l = l1 ++ l2 /\ l' = l1 ++ x :: l2.
Proof.
  revert l'. induction l as [|y l IH]; intros l'; simpl.
  - split.
    + intros [<- | []]. now exists [], [].
    + intros (l1 & l2 & E & ->). symmetry in E.
      apply app_eq_nil in E as [-> ->]. now left.
  - split.
    + intros [<- | H].
      * now exists [], (y :: l).
      * apply in_map_iff in H as (q & <- & Hq).
        apply IH in Hq as (l1 & l2 & -> & ->).
        now exists (y :: l1), l2.
    + intros (l1 & l2 & E & ->). destruct l1 as [|z l1]; simpl in *.
      * left. now subst.
      * injection E as <- ->. right. apply in_map. apply IH. eauto.
Qed.

Lemma permutations_In t : forall p,
  In p (permutations t) <-> Permutation t p.
Proof.
  induction t as [|x t IH]; intros p; simpl.
  - split.
    + intros [<- | []]. constructor.
    + intros H. apply Permutation_nil in H. now left.
  - rewrite in_flat_map. split.
    + intros (q & Hq & Hp). apply IH in Hq.
      apply insert_all_In in Hp as (l1 & l2 & -> & ->).
      now apply Permutation_cons_app.
    + intros H.
      assert (Hx : In x p)
        by (eapply Permutation_in; [eassumption | now left]).
      apply in_split in Hx as (l1 & l2 & ->).
      exists (l1 ++ l2). split.
      * apply IH. eapply Permutation_cons_app_inv. eassumption.
      * apply insert_all_In. eauto.
Qed.

Lemma unique_perms_In t p : In p (unique_perms t) <-> Permutation t p.
Proof. unfold unique_perms. now rewrite nodup_In, permutations_In. Qed.

Lemma mem_tuple_In t l : mem_tuple t l = true <-> In t l.
Proof.
  unfold mem_tuple. destruct (in_dec tuple_eq_dec t l); split; auto.
  discriminate.
Qed.

Lemma add_perms_In t : forall sat s,
  In s (add_perms sat t) <-> In s sat \/ Permutation t s.
Proof.
  unfold add_perms. intros sat s. rewrite <- unique_perms_In.
  generalize (unique_perms t). intros ps. revert sat.
  induction ps as [|p ps IH]; intros sat; simpl; [tauto|].
  rewrite IH. destruct (mem_tuple p sat) eqn:M.
  - apply mem_tuple_In in M. split; [tauto|].
    intros [H | [<- | H]]; auto.
  - rewrite in_app_iff. simpl. tauto.
Qed.

Lemma perm_tuples_In test ts s :
  In s (perm_tuples test ts) <->
  exists t, In t ts /\ test t = true /\ Permutation t s.
Proof.
  unfold perm_tuples.
  assert (H : forall acc,
             In s (fold_left (fun sat t => if test t then add_perms sat t
                                           else sat) ts acc) <->
             In s acc \/ exists t, In t ts /\ test t = true
                                   /\ Permutation t s).
  { induction ts as [|t ts IH]; intros acc; simpl.
    - split; [auto|]. intros [H | (t & [] & _)]. exact H.
    - rewrite IH. destruct (test t) eqn:T.
      + rewrite add_perms_In. split.
        * intros [[H | H] | (t' & H1 & H2 & H3)]; eauto 6.
        * intros [H | (t' & [<- | H1] & H2 & H3)]; eauto 6.
      + split.
        * intros [H | (t' & H1 & H2 & H3)]; eauto 6.
        * intros [H | (t' & [<- | H1] & H2 & H3)]; eauto 6. congruence. }
  rewrite H. simpl. split; [|auto]. intros [[] | H']. exact H'.
Qed.

Lemma product_In d k t :
  In t (product d k) <-> length t = k /\ Forall (fun x => In x d) t.
Proof.
  unfold product. rewrite tuples_In. revert t.
  induction k as [|k IH]; intros t; simpl.
  - split.
    + intros H. inversion H. split; [reflexivity | constructor].
    + intros [H _]. apply length_zero_iff_nil in H. subst. constructor.
  - split.
    + intros H. inversion H as [|x d' t' ds Hx Ht]; subst.
      apply IH in Ht as [<- Ht]. split; [reflexivity | now constructor].
    + intros [Hl Hf]. destruct t as [|x t]; [discriminate|].
      inversion Hf; subst. constructor; [assumption|].
      apply IH. split; [now injection Hl | assumption].
Qed.

(** The tuples of a subtraction or division cage: the orderings of the
    tuples of the product that pass the test. *)
Lemma perm_cage_accepts test d k s :
  In s (perm_tuples test (product d k)) <->
  length s = k /\ Forall (fun x => In x d) s
  /\ exists p, Permutation p s /\ test p = true.
Proof.
  rewrite perm_tuples_In. split.
  - intros (t & Ht & Htest & Hperm). apply product_In in Ht as [Hl Hf].
    repeat split.
    + now rewrite <- (Permutation_length Hperm).
    + eapply Permutation_Forall; eassumption.
    + eauto.
  - intros (Hl & Hf & p & Hperm & Htest). exists p. repeat split; trivial.
    apply product_In. split.
    + now rewrite (Permutation_length Hperm).
    + eapply Permutation_Forall; [apply Permutation_sym|]; eassumption.
Qed.

Lemma perm_cage_closed test d k s s' :
  Permutation s s' ->
  mem_tuple s (perm_tuples test (product d k))
  = mem_tuple s' (perm_tuples test (product d k)).
Proof.
  intros H. apply eq_true_iff_eq. rewrite !mem_tuple_In, !perm_cage_accepts.
  split; intros (Hl & Hf & p & Hp & Ht); repeat split.
  - now rewrite <- (Permutation_length H).
  - eapply Permutation_Forall; eassumption.
  - exists p. split; [|assumption]. eapply perm_trans; eassumption.
  - now rewrite (Permutation_length H).
  - eapply Permutation_Forall; [apply Permutation_sym|]; eassumption.
  - exists p. split; [|assumption].
    eapply perm_trans; [|apply Permutation_sym]; eassumption.
Qed.

Lemma dom_In n x : In x (dom n) <-> (1 <= x <= n)%Z.
Proof.
  unfold dom. rewrite in_map_iff. split.
  - intros (i & <- & Hi). apply in_seq in Hi. lia.
  - intros H. exists (Z.to_nat (x - 1)). split; [lia|]. apply in_seq. lia.
Qed.

Lemma Forall_dom n (t : Tuple) :
  Forall (fun x => In x (dom n)) t <-> Forall (fun x => (1 <= x <= n)%Z) t.
Proof.
  rewrite !Forall_forall. split; intros H x Hx; apply dom_In; auto.
Qed.

(** An ordering passes the subtraction test when its first value less the
    sum of the others is the target. *)
Lemma sub_ordering cage_res (t : Tuple) :
  (exists p, Permutation p t /\ sub_test cage_res p = true) <->
  exists x rest, Permutation (x :: rest) t
                 /\ (x - fold_right Z.add 0 rest = cage_res)%Z.
Proof.
  split.
  - intros ([|x rest] & Hp & Ht); [discriminate|].
    exists x, rest. split; [assumption|]. now apply Z.eqb_eq in Ht.
  - intros (x & rest & Hp & E). exists (x :: rest). split; [assumption|].
    simpl. now apply Z.eqb_eq.
Qed.

(** An ordering passes the division test when the quotient of its first
    value by the product of the others compares equal to the target. *)
Lemma div_ordering true_div_eq cage_res (t : Tuple) :
  (exists p, Permutation p t /\ div_test_with true_div_eq cage_res p = true)
  <->
  exists x rest, Permutation (x :: rest) t
                 /\ true_div_eq x (fold_right Z.mul 1%Z rest) cage_res = true.
Proof.
  split.
  - intros ([|x rest] & Hp & Ht); [discriminate|]. now exists x, rest.
  - intros (x & rest & Hp & E). now exists (x :: rest).
Qed.

(** The constraint of the later sections is the one whose division test
    holds exactly when the division is exact. *)
Lemma cage_constraint_exact n cage_vars cage_op cage_res :
  cage_constraint n cage_vars cage_op cage_res
  = cage_constraint_with exact_quotient n cage_vars cage_op cage_res.
Proof. reflexivity. Qed.

(** C10.  The constraint caged_csp builds for a subtraction cage
    (operation 1) or a division cage (operation 2) accepts a tuple exactly
    when it has one value of 1..n per cell and some ordering [x :: rest] of
    it satisfies [x - sum(rest) = target], respectively
    [x / prod(rest) == target], whatever Python's comparison of the
    floating-point quotient with the target gives; so reordering a tuple
    never changes whether such a cage accepts it. *)
Theorem cage_tuples_closed_under_permutation
        (true_div_eq : Z -> Z -> Z -> bool)
        (n : Z) (cage_vars : list Var) (cage_res : Z) (t : Tuple) :
  (check (cage_constraint_with true_div_eq n cage_vars 1 cage_res) t = true
   <->
   length t = length cage_vars /\ Forall (fun x => (1 <= x <= n)%Z) t
   /\ exists x rest,
       Permutation (x :: rest) t
       /\ (x - fold_right Z.add 0 rest = cage_res)%Z)
  /\ (check (cage_constraint_with true_div_eq n cage_vars 2 cage_res) t = true
      <->
      length t = length cage_vars /\ Forall (fun x => (1 <= x <= n)%Z) t
      /\ exists x rest,
          Permutation (x :: rest) t
          /\ true_div_eq x (fold_right Z.mul 1 rest) cage_res = true)%Z
  /\ (forall t', Permutation t t' ->
        check (cage_constraint_with true_div_eq n cage_vars 1 cage_res) t
        = check (cage_constraint_with true_div_eq n cage_vars 1 cage_res) t'
        /\ check (cage_constraint_with true_div_eq n cage_vars 2 cage_res) t
           = check (cage_constraint_with true_div_eq n cage_vars 2 cage_res)
                   t').
Proof.
  unfold cage_constraint_with, table_constraint, cage_sat_tuples_with. simpl.
  split; [|split].
  - rewrite mem_tuple_In, perm_cage_accepts, Forall_dom, sub_ordering.
    reflexivity.
  - rewrite mem_tuple_In, perm_cage_accepts, Forall_dom, div_ordering.
    reflexivity.
  - intros t' H. split; now apply perm_cage_closed.
Qed.

End CageTuples.

Lemma cage_tuples_closed_under_permutation_witness :
  check (cage_constraint 3 [0; 1] 1 1) [1; 2]%Z = true
  /\ check (cage_constraint 4 [0; 1] 2 2) [2; 4]%Z = true
  /\ check (cage_constraint 3 [0; 1] 1 1) [3; 1]%Z = false
  /\ check (cage_constraint 3 [0; 1] 1 1) [1; 2]%Z
     = check (cage_constraint 3 [0; 1] 1 1) [2; 1]%Z.
Proof.
  rewrite !cage_constraint_exact. split; [|split; [|split]].
  - apply (proj1 (cage_tuples_closed_under_permutation
                    exact_quotient 3 [0; 1] 1 [1; 2]%Z)).
    split; [reflexivity|]. split; [repeat constructor; lia|].
    exists 2%Z, [1%Z]. split; [apply perm_swap | reflexivity].
  - apply (proj1 (proj2 (cage_tuples_closed_under_permutation
                           exact_quotient 4 [0; 1] 2 [2; 4]%Z))).
    split; [reflexivity|]. split; [repeat constructor; lia|].
    exists 4%Z, [2%Z]. split; [apply perm_swap | reflexivity].
  - destruct (check (cage_constraint_with exact_quotient 3 [0; 1] 1 1)
                    [3; 1]%Z) eqn:E; [|reflexivity].
    apply (proj1 (cage_tuples_closed_under_permutation
                    exact_quotient 3 [0; 1] 1 [3; 1]%Z)) in E.
    destruct E as (_ & _ & x & rest & Hp & Hx). exfalso.
    apply Permutation_sym, Permutation_length_2_inv in Hp.
    destruct Hp as [Hp | Hp]; injection Hp as -> ->; compute in Hx;
      discriminate Hx.
  - exact (proj1 (proj2 (proj2 (cage_tuples_closed_under_permutation
                                  exact_quotient 3 [0; 1] 1 [1; 2]%Z))
                        [2; 1]%Z (perm_swap _ _ _))).
Defined.

(* ================================================================== *)
(** * The scenarios of the design document *)

(** Plain backtracking: two variables joined by a not-equal constraint, both
    assigned 1; the propagator called for the second returns failure and an
    empty trace. *)
Example scenario_plain_backtracking :
  let st : Store := fun _ => assigned [1; 2]%Z 1%Z in
  prop_BT csp_ab st (Some 1) = Returned false [] st.
Proof. reflexivity. Qed.

(** Forward checking: A, B, C pairwise different, A assigned 1; 1 is pruned
    from B and from C. *)
Example scenario_forward_checking :
  exists st',
    prop_FC csp_abc st_abc (Some 0) = Returned true [(1, 1%Z); (2, 1%Z)] st'
    /\ cur_domain st' 1 = [2; 3]%Z /\ cur_domain st' 2 = [2; 3]%Z.
Proof. eexists. repeat split. Qed.

(** Full inference on X + Y = 3 over {1, ..., 4}: 3 and 4 are pruned from
    both variables. *)
Example scenario_full_inference :
  exists st',
    prop_FI csp_sum st_sum None
    = Some (Returned true [(1, 3%Z); (1, 4%Z); (0, 3%Z); (0, 4%Z)] st')
    /\ cur_domain st' 0 = [1; 2]%Z /\ cur_domain st' 1 = [1; 2]%Z.
Proof. eexists. repeat split. Qed.

(** Dead end: the same constraint with X reduced to {4}; Y loses all its
    values and prop_FI returns failure with the prunes made so far. *)
Example scenario_dead_end :
  let st : Store :=
    fun v => if Nat.eqb v 0 then unassigned [4]%Z
             else unassigned [1; 2; 3; 4]%Z in
  exists st',
    prop_FI csp_sum st None
    = Some (Returned false [(1, 1%Z); (1, 2%Z); (1, 3%Z); (1, 4%Z)] st').
Proof. eexists. reflexivity. Qed.

(** A subtraction cage of two cells with target 1 on a grid of side 3 and a
    division cage with target 2 on a grid of side 4. *)
Example cage_subtraction :
  map (check (cage_constraint 3 [0; 1] 1 1))
      [[2; 1]; [1; 2]; [3; 2]; [2; 3]; [3; 1]; [1; 1]]%Z
  = [true; true; true; true; false; false].
Proof. reflexivity. Qed.

Example cage_division :
  map (check (cage_constraint 4 [0; 1] 2 2))
      [[2; 1]; [1; 2]; [4; 2]; [2; 4]; [3; 1]; [4; 1]]%Z
  = [true; true; true; true; false; false].
Proof. reflexivity. Qed.

(* ================================================================== *)
(** * The verdict of prop_BT *)

Section PlainBacktracking.

Variable csp : CSP.

Lemma BT_cons_false st cs :
  BT_cons st cs = false <->
  exists c, In c cs /\ get_n_unasgn st c = 0
            /\ check c (BT_tuple st c) = false.
Proof.
  induction cs as [|c cs IH]; simpl.
  - split; [discriminate | intros (c & [] & _)].
  - destruct (Nat.eqb_spec (get_n_unasgn st c) 0) as [Hn | Hn].
    + destruct (check c (BT_tuple st c)) eqn:Hchk.
      * rewrite IH. split.
        -- intros (c' & H1 & H2). exists c'. auto.
        -- intros (c' & [<- | H1] & H2 & H3); [congruence|]. exists c'. auto.
      * split; [|reflexivity]. intros _. exists c. auto.
    + rewrite IH. split.
      * intros (c' & H1 & H2). exists c'. auto.
      * intros (c' & [<- | H1] & H2 & H3); [congruence|]. exists c'. auto.
Qed.

(** The tuple prop_BT hands to [check] holds the assigned values of the
    scope, position by position, when no scope variable is unassigned. *)
Lemma BT_tuple_assigned st c :
  get_n_unasgn st c = 0 ->
  map (get_assigned_value st) (get_scope c) = map Some (BT_tuple st c).
Proof.
  unfold get_n_unasgn, get_unasgn_vars, BT_tuple. rewrite map_map.
  induction (get_scope c) as [|u scope IH]; simpl; [reflexivity|].
  unfold is_assigned, assigned_or_zero.
  destruct (get_assigned_value st u); simpl; [|discriminate].
  intros H. now rewrite IH.
Qed.

(** X1.  prop_BT never prunes and never touches the store.  Without a
    trigger it returns success; with a trigger it returns failure exactly
    when some constraint of the trigger has no unassigned variable left and
    rejects the tuple of the assigned values of its scope. *)
Theorem prop_BT_verdict st newVar :
  exists ok,
    prop_BT csp st newVar = Returned ok [] st
    /\ (ok = false <->
        exists x c, newVar = Some x
                    /\ In c (get_cons_with_var csp x)
                    /\ get_n_unasgn st c = 0
                    /\ map (get_assigned_value st) (get_scope c)
                       = map Some (BT_tuple st c)
                    /\ check c (BT_tuple st c) = false).
Proof.
  destruct newVar as [x|]; simpl.
  - exists (BT_cons st (get_cons_with_var csp x)). split; [reflexivity|].
    rewrite BT_cons_false. split.
    + intros (c & H1 & H2 & H3). exists x, c.
      repeat split; trivial. now apply BT_tuple_assigned.
    + intros (x' & c & E & H1 & H2 & _ & H3). injection E as <-.
      exists c. auto.
  - exists true. split; [reflexivity|]. split; [discriminate|].
    intros (x & c & E & _). discriminate.
Qed.

End PlainBacktracking.

(* ================================================================== *)
(** * The verdict of prop_FC *)

Section ForwardCheckingVerdict.

Variable csp : CSP.
Variable newVar : option Var.

Lemma FC_values_checked c U vals st pruned st1 pruned1 :
  FC_values c U vals st pruned = Next (st1, pruned1) ->
  (forall d, In d vals -> In d (cur_domain st1 U) ->
             check c (FC_tuple st c U d) = true)
  /\ (forall d, In d (cur_domain st1 U) -> In d (cur_domain st U))
  /\ (forall u, u <> U -> st1 u = st u)
  /\ (forall u, get_assigned_value st1 u = get_assigned_value st u).
Proof.
  intros H. destruct (FC_values_spec c U _ _ _ _ _ H) as (_ & E & Ho & Ha).
  repeat split; trivial.
  - intros d Hd Hin. rewrite E in Hin. apply filter_In in Hin as [_ Hin].
    destruct (check c (FC_tuple st c U d)) eqn:Hchk; [reflexivity|].
    exfalso. apply negb_true_iff in Hin.
    assert (Hm : mem_value d (filter (FC_rejects st c U) vals) = true).
    { apply mem_value_In, filter_In. split; [assumption|].
      unfold FC_rejects. now rewrite Hchk. }
    congruence.
  - intros d Hin. rewrite E in Hin. now apply filter_In in Hin.
Qed.

(** The loop over the values never leaves prop_FC with a verdict. *)
Lemma FC_values_no_return c U :
  forall vals s p ok p' s',
    FC_values c U vals s p <> Exit (Returned ok p' s').
Proof.
  induction vals as [|val vals IHv]; intros s p ok p' s'; simpl; [easy|].
  destruct (check c (FC_tuple s c U val)); [apply IHv|].
  destruct (prune_value s U val); [apply IHv | easy].
Qed.

Lemma FC_cons_success :
  forall cs, incl cs (FC_constraints csp newVar) ->
  forall st pruned tr st',
    FC_cons cs st pruned = Returned true tr st' ->
    none_emptied st st'
    /\ forall c U, In c cs -> get_unasgn_vars st c = [U] ->
         cur_domain st' U <> []
         /\ forall d, In d (cur_domain st' U) ->
                      check c (FC_tuple st c U d) = true.
Proof.
  induction cs as [|c0 cs IH]; intros Hincl st pruned tr st'; simpl.
  - intros E. injection E as <- <-. split; [intros v H; exact H|].
    intros c U [].
  - assert (Hc0 : In c0 (FC_constraints csp newVar))
      by (apply Hincl; now left).
    assert (Hcs : incl cs (FC_constraints csp newVar))
      by (intros x Hx; apply Hincl; now right).
    destruct (Nat.eqb_spec (get_n_unasgn st c0) 1) as [Hn | Hn].
    + destruct (get_unasgn_vars st c0) as [|U0 rest] eqn:HU0; [easy|].
      pose proof (unasgn_single _ _ _ _ Hn HU0) as HU1.
      destruct (FC_values c0 U0 (cur_domain st U0) st pruned)
        as [[st1 pruned1] | o] eqn:Hv.
      2:{ intros E. subst o. now apply FC_values_no_return in Hv. }
      destruct (FC_values_checked _ _ _ _ _ _ _ Hv) as (Hchk & Hsub & Ho & Ha).
      destruct (Nat.eqb_spec (cur_domain_size st1 U0) 0) as [_ | Hsz]; [easy|].
      intros E.
      pose proof (FC_cons_grows csp newVar cs Hcs st1 pruned1) as Hg.
      rewrite E in Hg. simpl in Hg. destruct Hg as (tr' & _ & Hpr).
      destruct (IH Hcs _ _ _ _ E) as [Hne Hpost].
      assert (Hne1 : none_emptied st st1).
      { intros v Hv'. destruct (Nat.eq_dec v U0) as [-> | Hvu].
        - intros Hnil. apply Hsz. unfold cur_domain_size. now rewrite Hnil.
        - unfold cur_domain. now rewrite (Ho v Hvu). }
      split; [intros v Hv'; now apply Hne, Hne1|].
      intros c U [<- | Hin] HU.
      * rewrite HU1 in HU. injection HU as <-. split.
        -- apply Hne. intros Hnil. apply Hsz. unfold cur_domain_size.
           now rewrite Hnil.
        -- intros d Hd.
           apply (pruning_subset _ _ _ _ Hpr) in Hd.
           apply Hchk; [now apply Hsub | assumption].
      * assert (HU' : get_unasgn_vars st1 c = [U]).
        { rewrite <- HU. now apply get_unasgn_vars_ext. }
        destruct (Hpost c U Hin HU') as [H1 H2]. split; [assumption|].
        intros d Hd. rewrite <- (FC_tuple_ext st st1 c U d Ha). now apply H2.
    + intros E. destruct (IH Hcs _ _ _ _ E) as [Hne Hpost].
      split; [assumption|]. intros c U [<- | Hin] HU.
      * exfalso. apply Hn. unfold get_n_unasgn. now rewrite HU.
      * now apply Hpost.
Qed.

Lemma FC_cons_failure :
  forall cs st pruned tr st',
    FC_cons cs st pruned = Returned false tr st' ->
    exists c U, In c cs /\ get_unasgn_vars st c = [U]
                /\ cur_domain st' U = [].
Proof.
  induction cs as [|c0 cs IH]; intros st pruned tr st'; simpl; [easy|].
  destruct (Nat.eqb_spec (get_n_unasgn st c0) 1) as [Hn | Hn].
  - destruct (get_unasgn_vars st c0) as [|U0 rest] eqn:HU0; [easy|].
    pose proof (unasgn_single _ _ _ _ Hn HU0) as HU1.
    destruct (FC_values c0 U0 (cur_domain st U0) st pruned)
      as [[st1 pruned1] | o] eqn:Hv.
    + destruct (FC_values_checked _ _ _ _ _ _ _ Hv) as (_ & _ & _ & Ha).
      destruct (Nat.eqb_spec (cur_domain_size st1 U0) 0) as [Hsz | Hsz].
      * intros E. injection E as <- <-. exists c0, U0.
        split; [now left|]. split; [exact HU1|].
        now apply length_zero_iff_nil.
      * intros E. destruct (IH _ _ _ _ E) as (c & U & H1 & H2 & H3).
        exists c, U. repeat split; auto.
        rewrite <- H2. symmetry. now apply get_unasgn_vars_ext.
    + intros E. subst o. now apply FC_values_no_return in Hv.
  - intros E. destruct (IH _ _ _ _ E) as (c & U & H1 & H2 & H3).
    exists c, U. auto.
Qed.

Lemma FC_reason_in_start st tr1 s U d :
  pruning (FC_reason csp newVar) st tr1 s ->
  FC_reason csp newVar s U d -> FC_reason csp newVar st U d.
Proof.
  intros Hpr (c & Hc & HU & Hchk).
  pose proof (pruning_assigned _ _ _ _ Hpr) as Ha.
  exists c. repeat split; trivial.
  - rewrite <- HU. symmetry. now apply get_unasgn_vars_ext.
  - rewrite <- Hchk. f_equal. symmetry. now apply FC_tuple_ext.
Qed.

(** X2.  When prop_FC returns success it has emptied no current domain,
    and for every relevant constraint with exactly one unassigned variable
    U, U still has values and each of them is accepted by that constraint:
    the tuple with the value at the positions of U and the assigned value
    of every other scope variable at its position passes the check. *)
Theorem prop_FC_success_is_checked st tr st' :
  prop_FC csp st newVar = Returned true tr st' ->
  none_emptied st st'
  /\ forall c U,
      relevant csp newVar c -> get_unasgn_vars st c = [U] ->
      cur_domain st' U <> []
      /\ forall d, In d (cur_domain st' U) ->
           exists t,
             Forall2 (fun u x => if Nat.eqb u U then x = d
                                 else get_assigned_value st u = Some x)
                     (get_scope c) t
             /\ check c t = true.
Proof.
  unfold prop_FC. intros E.
  destruct (FC_cons_success _ (incl_refl _) _ _ _ _ E) as [Hne Hpost].
  split; [assumption|]. intros c U Hc HU.
  apply FC_constraints_relevant in Hc.
  destruct (Hpost c U Hc HU) as [H1 H2]. split; [assumption|].
  intros d Hd. exists (FC_tuple st c U d). split.
  - now apply FC_tuple_substituted.
  - now apply H2.
Qed.

(** X3.  When prop_FC returns failure it has proved a dead end: some
    unassigned variable U is left without value, and every value U had
    before the call is rejected by a relevant constraint whose sole
    unassigned variable is U: the tuple with the value at the positions of
    U and the assigned value of every other scope variable at its position
    fails the check. *)
Theorem prop_FC_failure_is_a_dead_end st tr st' :
  prop_FC csp st newVar = Returned false tr st' ->
  exists U,
    get_assigned_value st U = None
    /\ cur_domain st' U = []
    /\ forall d, In d (cur_domain st U) ->
         exists c t,
           relevant csp newVar c
           /\ get_unasgn_vars st c = [U]
           /\ Forall2 (fun u x => if Nat.eqb u U then x = d
                                  else get_assigned_value st u = Some x)
                      (get_scope c) t
           /\ check c t = false.
Proof.
  intros E. destruct (FC_cons_failure _ _ _ _ _ E) as (c & U & Hc & HU & He).
  apply prop_FC_pruning in E. exists U. split; [|split; [assumption|]].
  - apply (get_unasgn_vars_unassigned st c). rewrite HU. now left.
  - intros d Hd.
    assert (Hin : In (U, d) tr).
    { apply (pruning_frame _ _ _ _ E). split; [assumption|].
      rewrite He. intros []. }
    destruct (pruning_reason _ _ _ _ _ _ E Hin)
      as (tr1 & tr2 & s & _ & H1 & Hr & _).
    destruct (FC_reason_in_start _ _ _ _ _ H1 Hr) as (c' & Hc' & HU' & Hchk).
    exists c', (FC_tuple st c' U d).
    split; [now apply FC_constraints_relevant|]. split; [assumption|].
    split; [now apply FC_tuple_substituted | assumption].
Qed.

Lemma FC_cons_idle :
  forall cs st pruned,
    (forall c, In c cs -> get_n_unasgn st c <> 1) ->
    FC_cons cs st pruned = Returned true pruned st.
Proof.
  induction cs as [|c cs IH]; intros st pruned H; simpl; [reflexivity|].
  destruct (Nat.eqb_spec (get_n_unasgn st c) 1) as [Hn | _].
  - exfalso. apply (H c); [now left | assumption].
  - apply IH. intros c' Hc'. apply H. now right.
Qed.

(** X4.  prop_FC only changes variables that are the sole unassigned
    variable of a constraint it looks at: every other variable, and so every
    assigned variable, keeps its state whatever the verdict; and when no
    constraint it looks at has exactly one unassigned variable, it returns
    success with an empty trace and the store as it was. *)
Theorem prop_FC_frame st :
  (forall ok tr st',
      prop_FC csp st newVar = Returned ok tr st' ->
      forall v,
        (forall c, In c (FC_constraints csp newVar) ->
                   get_unasgn_vars st c <> [v]) ->
        st' v = st v)
  /\ ((forall c, In c (FC_constraints csp newVar) ->
                 get_n_unasgn st c <> 1) ->
      prop_FC csp st newVar = Returned true [] st).
Proof.
  split.
  - intros ok tr st' E v Hv. apply prop_FC_pruning in E.
    apply (pruning_untouched _ _ _ _ E). intros x Hin.
    destruct (pruning_reason _ _ _ _ _ _ E Hin)
      as (tr1 & tr2 & s & _ & H1 & Hr & _).
    destruct (FC_reason_in_start _ _ _ _ _ H1 Hr) as (c & Hc & HU & _).
    exact (Hv c Hc HU).
  - intros H. unfold prop_FC. now apply FC_cons_idle.
Qed.

End ForwardCheckingVerdict.

Lemma prop_FC_success_is_checked_witness :
  exists st',
    prop_FC csp_abc st_abc (Some 0) = Returned true [(1, 1%Z); (2, 1%Z)] st'
    /\ none_emptied st_abc st'
    /\ forall c U,
        relevant csp_abc (Some 0) c -> get_unasgn_vars st_abc c = [U] ->
        cur_domain st' U <> []
        /\ forall d, In d (cur_domain st' U) ->
             exists t,
               Forall2 (fun u x => if Nat.eqb u U then x = d
                                   else get_assigned_value st_abc u = Some x)
                       (get_scope c) t
               /\ check c t = true.
Proof.
  eexists. split; [reflexivity|].
  exact (prop_FC_success_is_checked csp_abc (Some 0) st_abc
           [(1, 1%Z); (2, 1%Z)] _ eq_refl).
Defined.

Lemma prop_FC_failure_is_a_dead_end_witness :
  exists st',
    prop_FC csp_ab st_dead (Some 0) = Returned false [(1, 1%Z)] st'
    /\ exists U,
        get_assigned_value st_dead U = None
        /\ cur_domain st' U = []
        /\ forall d, In d (cur_domain st_dead U) ->
             exists c t,
               relevant csp_ab (Some 0) c
               /\ get_unasgn_vars st_dead c = [U]
               /\ Forall2 (fun u x =>
                             if Nat.eqb u U then x = d
                             else get_assigned_value st_dead u = Some x)
                          (get_scope c) t
               /\ check c t = false.
Proof.
  eexists. split; [reflexivity|].
  exact (prop_FC_failure_is_a_dead_end csp_ab (Some 0) st_dead
           [(1, 1%Z)] _ eq_refl).
Defined.

Lemma prop_FC_frame_witness :
  prop_FC csp_sum st_sum None = Returned true [] st_sum.
Proof.
  apply (proj2 (prop_FC_frame csp_sum None st_sum)).
  intros c [<- | []]. vm_compute. discriminate.
Defined.

(* ================================================================== *)
(** * The verdict of prop_FI *)

Section FullInferenceVerdict.

Variable csp : CSP.

Lemma none_emptied_refl st : none_emptied st st.
Proof. intros v H. exact H. Qed.

Lemma none_emptied_trans st1 st2 st3 :
  none_emptied st1 st2 -> none_emptied st2 st3 -> none_emptied st1 st3.
Proof. intros H1 H2 v H. now apply H2, H1. Qed.

Lemma flow_verdict_trans {A} (view : A -> Store) st st1 (f : flow A) :
  none_emptied st st1 -> flow_verdict view st1 f -> flow_verdict view st f.
Proof.
  intros H. destruct f as [a | o]; simpl; [|trivial].
  now apply none_emptied_trans.
Qed.

Lemma FI_values_verdict c v :
  forall ds st pruned,
    flow_verdict (fun a => fst a) st (FI_values c v ds st pruned).
Proof.
  induction ds as [|d ds IH]; intros st pruned; simpl.
  - apply none_emptied_refl.
  - destruct (has_support st c v d); [apply IH|].
    destruct (prune_value st v d) as [st1|] eqn:Hp; [|exact I].
    destruct (Nat.eqb_spec (cur_domain_size st1 v) 0) as [Hsz | Hsz]; simpl.
    + split; [reflexivity|]. exists pruned, v, d. split; [reflexivity|].
      now apply length_zero_iff_nil.
    + apply (flow_verdict_trans _ st st1); [|apply IH].
      intros u Hu. destruct (Nat.eq_dec u v) as [-> | Huv].
      * intros Hnil. apply Hsz. unfold cur_domain_size. now rewrite Hnil.
      * apply prune_value_Some in Hp as (_ & _ & Ho & _).
        unfold cur_domain. now rewrite (Ho u Huv).
Qed.

Lemma FI_scope_verdict c w :
  forall vs st pruned queue,
    flow_verdict (fun a => fst (fst a)) st (FI_scope c w vs st pruned queue).
Proof.
  induction vs as [|v vs IH]; intros st pruned queue; simpl.
  - apply none_emptied_refl.
  - destruct (Nat.eqb v w); [apply IH|].
    pose proof (FI_values_verdict c v (cur_domain st v) st pruned) as Hv.
    destruct (FI_values c v (cur_domain st v) st pruned)
      as [[st1 pruned1] | o]; simpl in Hv; [|exact Hv].
    apply (flow_verdict_trans _ st st1); [assumption | apply IH].
Qed.

Lemma FI_cons_verdict w :
  forall cs st pruned queue,
    flow_verdict (fun a => fst (fst a)) st (FI_cons w cs st pruned queue).
Proof.
  induction cs as [|c cs IH]; intros st pruned queue; simpl.
  - apply none_emptied_refl.
  - pose proof (FI_scope_verdict c w (get_scope c) st pruned queue) as Hs.
    destruct (FI_scope c w (get_scope c) st pruned queue)
      as [[[st1 pruned1] queue1] | o]; simpl in Hs; [|exact Hs].
    apply (flow_verdict_trans _ st st1); [assumption | apply IH].
Qed.

Lemma FI_loop_verdict :
  forall fuel queue st pruned o,
    FI_loop csp fuel queue st pruned = Some o -> verdict_ok st o.
Proof.
  induction fuel as [|fuel IH]; intros queue st pruned o; simpl; [easy|].
  destruct queue as [|w queue].
  - intros E. injection E as <-. apply none_emptied_refl.
  - pose proof (FI_cons_verdict w (get_cons_with_var csp w) st pruned queue)
      as Hc.
    destruct (FI_cons w (get_cons_with_var csp w) st pruned queue)
      as [[[st1 pruned1] queue1] | o1]; simpl in Hc.
    + intros E. apply IH in E. destruct o as [|[|] p s]; simpl in *; trivial.
      eapply none_emptied_trans; eassumption.
    + intros E. injection E as <-.
      destruct o1 as [|ok p s]; simpl in *; trivial.
      destruct Hc as [-> Hw]. exact Hw.
Qed.

(** X5.  prop_FI returns failure only for a wiped-out domain: on failure the
    last pair of the trace took the last value of its variable, whose
    current domain is empty in the resulting store; on success the call has
    emptied no current domain. *)
Theorem prop_FI_verdict st newVar ok tr st' :
  prop_FI csp st newVar = Some (Returned ok tr st') ->
  (ok = false -> wiped_out st' tr)
  /\ (ok = true -> none_emptied st st').
Proof.
  unfold prop_FI. intros E. apply FI_loop_verdict in E.
  split; intros ->; exact E.
Qed.

End FullInferenceVerdict.

Lemma prop_FI_verdict_witness :
  exists st',
    prop_FI csp_sum st_sum None
    = Some (Returned true [(1, 3%Z); (1, 4%Z); (0, 3%Z); (0, 4%Z)] st')
    /\ none_emptied st_sum st'.
Proof.
  eexists. split; [reflexivity|].
  exact (proj2 (prop_FI_verdict csp_sum st_sum None true
                  [(1, 3%Z); (1, 4%Z); (0, 3%Z); (0, 4%Z)] _ eq_refl)
               eq_refl).
Defined.

(* ================================================================== *)
(** * What a successful prop_FI has made consistent *)

Section FullInferenceReach.

Variable csp : CSP.

Lemma traced_in_refl l pruned : traced_in l pruned pruned.
Proof. exists []. split; [now rewrite app_nil_r | intros p []]. Qed.

Lemma traced_in_trans l1 l2 p0 p1 p2 :
  traced_in l1 p0 p1 -> incl l1 l2 -> traced_in l2 p1 p2 ->
  traced_in l2 p0 p2.
Proof.
  intros (t1 & -> & H1) Hincl (t2 & -> & H2). exists (t1 ++ t2).
  split; [now rewrite app_assoc|]. intros p Hp.
  apply in_app_or in Hp as [Hp | Hp]; auto.
Qed.

Lemma FI_values_traced c v :
  forall ds st pruned st' pruned',
    FI_values c v ds st pruned = Next (st', pruned') ->
    traced_in [v] pruned pruned'.
Proof.
  induction ds as [|d ds IH]; intros st pruned st' pruned'; simpl.
  - intros E. injection E as <- <-. apply traced_in_refl.
  - destruct (has_support st c v d); [apply IH|].
    destruct (prune_value st v d) as [st1|]; [|easy].
    destruct (Nat.eqb (cur_domain_size st1 v) 0); [easy|].
    intros E. apply IH in E.
    apply (traced_in_trans [v] [v] _ (pruned ++ [(v, d)]));
      [|apply incl_refl | assumption].
    exists [(v, d)]. split; [reflexivity|].
    intros p [<- | []]. now left.
Qed.

Lemma FI_scope_queue c w :
  forall vs st pruned queue st' pruned' queue',
    FI_scope c w vs st pruned queue = Next (st', pruned', queue') ->
    incl queue queue' /\ traced_in queue' pruned pruned'.
Proof.
  induction vs as [|v vs IH]; intros st pruned queue st' pruned' queue'; simpl.
  - intros E. injection E as <- <- <-.
    split; [apply incl_refl | apply traced_in_refl].
  - destruct (Nat.eqb v w); [apply IH|].
    destruct (FI_values c v (cur_domain st v) st pruned)
      as [[st1 pruned1] | o] eqn:Hval; [|easy].
    destruct (FI_values_revise c v _ _ _ _ _ Hval) as (_ & _ & _ & Hch).
    apply FI_values_traced in Hval.
    set (queue1 := if negb (Nat.eqb (cur_domain_size st1 v)
                                    (cur_domain_size st v))
                      && negb (in_queue v queue)
                   then queue ++ [v] else queue).
    assert (Hq : incl queue queue1).
    { unfold queue1. destruct (_ && _); [|apply incl_refl].
      apply incl_appl, incl_refl. }
    assert (Ht : traced_in queue1 pruned pruned1).
    { destruct Hch as [[_ ->] | Hlt]; [apply traced_in_refl|].
      assert (Hvin : In v queue1).
      { unfold queue1.
        destruct (Nat.eqb_spec (cur_domain_size st1 v) (cur_domain_size st v));
          [lia|]. simpl.
        destruct (in_queue v queue) eqn:Hvq; simpl.
        - now apply in_queue_In.
        - apply in_or_app. right. now left. }
      destruct Hval as (tr & -> & Htr). exists tr. split; [reflexivity|].
      intros p Hp. apply Htr in Hp. destruct Hp as [<- | []]. exact Hvin. }
    intros E. apply IH in E as [E1 E2]. split.
    + eapply incl_tran; eassumption.
    + eapply traced_in_trans; eassumption.
Qed.

Lemma FI_cons_queue w :
  forall cs st pruned queue st' pruned' queue',
    FI_cons w cs st pruned queue = Next (st', pruned', queue') ->
    incl queue queue' /\ traced_in queue' pruned pruned'.
Proof.
  induction cs as [|c cs IH]; intros st pruned queue st' pruned' queue'; simpl.
  - intros E. injection E as <- <- <-.
    split; [apply incl_refl | apply traced_in_refl].
  - destruct (FI_scope c w (get_scope c) st pruned queue)
      as [[[st1 pruned1] queue1] | o] eqn:Hs; [|easy].
    apply FI_scope_queue in Hs as [H1 H2].
    intros E. apply IH in E as [E1 E2]. split.
    + eapply incl_tran; eassumption.
    + eapply traced_in_trans; eassumption.
Qed.

(** When the loop returns success, every variable that was queued or pruned
    has been dequeued, and the invariant holds with an empty queue. *)
Lemma FI_loop_reach :
  forall fuel D queue st pruned tr st',
    FI_inv csp nothing_pending D queue st ->
    FI_loop csp fuel queue st pruned = Some (Returned true tr st') ->
    exists D', incl D D' /\ incl queue D'
               /\ FI_inv csp nothing_pending D' [] st'
               /\ traced_in D' pruned tr.
Proof.
  induction fuel as [|fuel IH]; intros D queue st pruned tr st' Hinv; simpl;
    [easy|].
  destruct queue as [|w queue].
  - intros E. injection E as <- <-. exists D.
    repeat split; auto using incl_refl, traced_in_refl. intros x [].
  - destruct (FI_cons w (get_cons_with_var csp w) st pruned queue)
      as [[[st1 pruned1] queue1] | o] eqn:Hc.
    + pose proof (FI_cons_queue _ _ _ _ _ _ _ _ Hc) as [Hq Ht].
      apply (FI_cons_inv csp (w :: D) w) in Hc; [|now apply FI_inv_dequeue].
      destruct Hc as [H1 _]. intros E.
      destruct (IH _ _ _ _ _ _ H1 E) as (D' & HD & Hq' & Hinv' & Ht').
      exists D'. repeat split; trivial.
      * intros x Hx. apply HD. now right.
      * intros x [<- | Hx]; [apply HD; now left | apply Hq', Hq, Hx].
      * eapply traced_in_trans; eassumption.
    + intros E. injection E as ->. now apply FI_cons_exit in Hc.
Qed.

(** X6.  After a successful prop_FI, for every variable [w] that started in
    the queue (all variables without a trigger, the trigger otherwise) or
    lost a value during the call, every other variable of every constraint
    of [w] has all its values supported in that constraint: the worklist
    only drains when the neighbours of everything that changed are
    consistent. *)
Theorem prop_FI_success_is_consistent st newVar tr st' :
  prop_FI csp st newVar = Some (Returned true tr st') ->
  forall w,
    In w (FI_queue csp newVar) \/ (exists d, In (w, d) tr) ->
    forall c v,
      In c (get_cons_with_var csp w) -> In v (get_scope c) -> v <> w ->
      revised st' c v.
Proof.
  unfold prop_FI. intros E w Hw c v Hc Hv Hvw.
  apply (FI_loop_reach _ []) in E.
  - destruct E as (D' & _ & Hq & Hinv & (tr' & Etr & Htr)).
    simpl in Etr. subst tr'.
    assert (HwD : In w D').
    { destruct Hw as [Hw | [d Hd]]; [now apply Hq|]. apply (Htr _ Hd). }
    apply get_cons_with_var_In in Hc as [Hc Hwc].
    destruct (Hinv c v Hc Hv) as [H | [(u & _ & _ & []) | []]]; trivial.
    exists w. auto.
  - intros c' v' _ _ (u & _ & _ & []).
Qed.

End FullInferenceReach.

Lemma prop_FI_success_is_consistent_witness :
  exists st',
    prop_FI csp_sum st_sum None
    = Some (Returned true [(1, 3%Z); (1, 4%Z); (0, 3%Z); (0, 4%Z)] st')
    /\ revised st' sum_is_three 0.
Proof.
  eexists. split; [reflexivity|].
  apply (prop_FI_success_is_consistent csp_sum st_sum None
           [(1, 3%Z); (1, 4%Z); (0, 3%Z); (0, 4%Z)] _ eq_refl 1).
  - right. exists 3%Z. now left.
  - now left.
  - now left.
  - discriminate.
Defined.

(* ================================================================== *)
(** * prop_FC and prop_FI after an assignment *)

Section StrengthAfterAssignment.

Variable csp : CSP.

Lemma assigned_narrowed_pruning R st tr st' :
  pruning R st tr st' -> assigned_narrowed st -> assigned_narrowed st'.
Proof.
  intros Hpr Hn u a d Ha Hd. apply (Hn u a d).
  - now rewrite <- (pruning_assigned _ _ _ _ Hpr u).
  - now apply (pruning_subset _ _ _ _ Hpr).
Qed.

(** A value the sole unassigned variable of [c] keeps with support in [c]
    is accepted together with the assigned values, when the assigned
    variables are narrowed to their values. *)
Lemma supported_is_checked st c U d :
  get_unasgn_vars st c = [U] -> assigned_narrowed st ->
  has_support st c U d = true -> check c (FC_tuple st c U d) = true.
Proof.
  intros HU Hn Hs. destruct (sole_unassigned st c U HU) as [_ Hothers].
  apply has_support_true in Hs as (t & Ht & Hchk).
  rewrite (supports_assigned st U d t (get_scope c) Ht Hothers Hn) in Hchk.
  exact Hchk.
Qed.

(** X7.  After an assignment, full inference is at least as strong as
    forward checking: on duplicate-free current domains, with an assigned
    trigger, the assigned variables narrowed to their values and no empty
    domain among the variables of the constraints of the trigger, prop_FI
    returns failure whenever prop_FC does. *)
Theorem prop_FI_fails_when_prop_FC_fails st x tr st' :
  store_wf st ->
  (exists a, get_assigned_value st x = Some a) ->
  assigned_narrowed st ->
  (forall c v, In c (get_cons_with_var csp x) -> In v (get_scope c) ->
               cur_domain st v <> []) ->
  prop_FC csp st (Some x) = Returned false tr st' ->
  exists tr2 st2, prop_FI csp st (Some x) = Some (Returned false tr2 st2).
Proof.
  intros W [ax Hx] Hnar Hne EFC.
  destruct (FC_cons_failure _ _ _ _ _ EFC) as (c0 & U & Hc0 & HU0 & Hemp).
  apply prop_FC_pruning in EFC.
  destruct (sole_unassigned st c0 U HU0) as [HUin _].
  destruct (FI_loop_ends csp (FI_rounds csp st (FI_queue csp (Some x)))
              (FI_queue csp (Some x)) st []) as [o EFI];
    [unfold FI_rounds; lia|].
  fold (prop_FI csp st (Some x)) in EFI.
  destruct o as [|[|] tr2 st2]; [| |eauto].
  - exfalso. revert EFI. unfold prop_FI. now apply FI_loop_no_raise.
  - exfalso.
    pose proof (FI_loop_verdict csp _ _ _ _ _ EFI) as Hkeep. simpl in Hkeep.
    pose proof (prop_FI_pruning csp st (Some x) true tr2 st2 EFI) as Hpr2.
    assert (HneU : cur_domain st2 U <> [])
      by (apply Hkeep; now apply (Hne c0 U)).
    destruct (cur_domain st2 U) as [|d rest] eqn:Hdom; [congruence|].
    assert (Hd2 : In d (cur_domain st2 U)) by (rewrite Hdom; now left).
    assert (Hd : In d (cur_domain st U))
      by (now apply (pruning_subset _ _ _ _ Hpr2)).
    assert (Hin : In (U, d) tr).
    { apply (pruning_frame _ _ _ _ EFC). split; [assumption|].
      rewrite Hemp. intros []. }
    destruct (pruning_reason _ _ _ _ _ _ EFC Hin)
      as (tr1 & tr2' & s & _ & H1 & Hr & _).
    destruct (FC_reason_in_start csp (Some x) _ _ _ _ _ H1 Hr)
      as (c & Hc & HU & Hchk). simpl in Hc.
    destruct (sole_unassigned st c U HU) as [HUc _].
    assert (HUx : U <> x).
    { intros ->. pose proof (get_unasgn_vars_unassigned st c x) as Hun.
      rewrite HU in Hun. specialize (Hun (or_introl eq_refl)). congruence. }
    pose proof (prop_FI_fixpoint csp st (Some x) tr2 st2 EFI x c U
                  (or_introl eq_refl) Hc HUc HUx d Hd2) as Hs.
    pose proof (pruning_assigned _ _ _ _ Hpr2) as Ha2.
    assert (HU2 : get_unasgn_vars st2 c = [U])
      by (rewrite <- HU; now apply get_unasgn_vars_ext).
    pose proof (supported_is_checked st2 c U d HU2
                  (assigned_narrowed_pruning _ _ _ _ Hpr2 Hnar) Hs) as Hok.
    rewrite (FC_tuple_ext st st2 c U d Ha2) in Hok. congruence.
Qed.

End StrengthAfterAssignment.

Lemma prop_FI_fails_when_prop_FC_fails_witness :
  exists tr2 st2,
    prop_FI csp_ab st_dead (Some 0) = Some (Returned false tr2 st2).
Proof.
  apply (prop_FI_fails_when_prop_FC_fails csp_ab st_dead 0 [(1, 1%Z)]
           (update st_dead 1 (mkVariable [] None))).
  - intros v. unfold cur_domain, st_dead.
    destruct v; simpl; repeat constructor; simpl; intuition lia.
  - exists 1%Z. reflexivity.
  - intros u a d. unfold get_assigned_value, cur_domain, st_dead.
    destruct u; simpl; [|discriminate].
    intros E [<- | []]. now injection E.
  - intros c v _ _. unfold cur_domain, st_dead. destruct v; simpl; discriminate.
  - reflexivity.
Defined.

(* ================================================================== *)
(** * The grid encodings *)

Section GridEncodings.

Lemma var_at_grid M idx : idx < M -> var_at (grid_vars M) idx = idx.
Proof. intros H. unfold var_at, grid_vars. now rewrite seq_nth. Qed.

Lemma size_square n :
  0 < Z.to_nat n -> Z.to_nat (n * n) = Z.to_nat n * Z.to_nat n.
Proof. intros H. apply Z2Nat.inj_mul; lia. Qed.

Lemma cell_in_grid N i j : i < N -> j < N -> i * N + j < N * N.
Proof. intros Hi Hj. nia. Qed.

Lemma ne_tuples_In d x y :
  In [x; y] (ne_tuples d) <-> In x d /\ In y d /\ x <> y.
Proof.
  unfold ne_tuples. rewrite filter_In, product_In. simpl. split.
  - intros [[_ Hf] Hne]. inversion Hf as [|? ? Hx Hf']; subst.
    inversion Hf' as [|? ? Hy _]; subst. repeat split; trivial.
    intros ->. now rewrite Z.eqb_refl in Hne.
  - intros (Hx & Hy & Hne). repeat split; auto.
    destruct (Z.eqb_spec x y); [contradiction | reflexivity].
Qed.

Lemma satisfies_table a scope sat :
  satisfies a (table_constraint scope sat) = true <-> In (map a scope) sat.
Proof. unfold satisfies, table_constraint. simpl. apply mem_tuple_In. Qed.

Lemma range_from_In a N k : In k (range_from a N) <-> a <= k < N.
Proof. unfold range_from. rewrite in_seq. lia. Qed.

Lemma range_In N k : In k (range N) <-> k < N.
Proof. unfold range. rewrite in_seq. lia. Qed.

Lemma ne_rows_In N vars sat c :
  In c (ne_rows N vars sat) <->
  exists i j k, i < N /\ j < k /\ k < N
                /\ c = table_constraint
                         [var_at vars (i * N + j); var_at vars (i * N + k)]
                         sat.
Proof.
  unfold ne_rows. rewrite in_flat_map. split.
  - intros (i & Hi & H). apply in_flat_map in H as (j & Hj & H).
    apply in_map_iff in H as (k & <- & Hk).
    apply range_In in Hi. apply range_from_In in Hk.
    exists i, j, k. repeat split; trivial; lia.
  - intros (i & j & k & Hi & Hjk & Hk & ->). exists i.
    split; [now apply range_In|]. apply in_flat_map. exists j.
    split; [apply range_In; lia|]. apply in_map_iff. exists k.
    split; [reflexivity|]. apply range_from_In. lia.
Qed.

Lemma ne_cols_In N vars sat c :
  In c (ne_cols N vars sat) <->
  exists j i k, j < N /\ i < k /\ k < N
                /\ c = table_constraint
                         [var_at vars (i * N + j); var_at vars (k * N + j)]
                         sat.
Proof.
  unfold ne_cols. rewrite in_flat_map. split.
  - intros (j & Hj & H). apply in_flat_map in H as (i & Hi & H).
    apply in_map_iff in H as (k & <- & Hk).
    apply range_In in Hj. apply range_from_In in Hk.
    exists j, i, k. repeat split; trivial; lia.
  - intros (j & i & k & Hj & Hik & Hk & ->). exists j.
    split; [now apply range_In|]. apply in_flat_map. exists i.
    split; [apply range_In; lia|]. apply in_map_iff. exists k.
    split; [reflexivity|]. apply range_from_In. lia.
Qed.

(** The not-equal constraints of a grid of side [N] over the variables
    [0 .. M-1], [N * N <= M], hold on a board exactly when the cells of
    every row and of every column differ. *)
Lemma ne_grid_meaning n M a :
  Z.to_nat n * Z.to_nat n <= M ->
  (forall c, In c (ne_rows (Z.to_nat n) (grid_vars M) (ne_tuples (dom n))
                   ++ ne_cols (Z.to_nat n) (grid_vars M) (ne_tuples (dom n)))
             -> satisfies a c = true)
  <-> rows_differ n a /\ cols_differ n a.
Proof.
  intros HM. set (N := Z.to_nat n) in *. split.
  - intros H. split.
    + intros i j k Hi Hjk Hk. fold N in Hi, Hk |- *.
      assert (Hc : satisfies a (table_constraint
                     [var_at (grid_vars M) (i * N + j);
                      var_at (grid_vars M) (i * N + k)]
                     (ne_tuples (dom n))) = true).
      { apply H, in_or_app. left. apply ne_rows_In. exists i, j, k. auto. }
      rewrite !var_at_grid in Hc by nia.
      apply satisfies_table in Hc. simpl in Hc. now apply ne_tuples_In in Hc.
    + intros j i k Hj Hik Hk. fold N in Hj, Hk |- *.
      assert (Hc : satisfies a (table_constraint
                     [var_at (grid_vars M) (i * N + j);
                      var_at (grid_vars M) (k * N + j)]
                     (ne_tuples (dom n))) = true).
      { apply H, in_or_app. right. apply ne_cols_In. exists j, i, k. auto. }
      rewrite !var_at_grid in Hc by nia.
      apply satisfies_table in Hc. simpl in Hc. now apply ne_tuples_In in Hc.
  - intros [Hr Hc] c Hin. apply in_app_or in Hin as [Hin | Hin].
    + apply ne_rows_In in Hin as (i & j & k & Hi & Hjk & Hk & ->).
      rewrite !var_at_grid by nia. apply satisfies_table. simpl.
      apply ne_tuples_In. now apply Hr.
    + apply ne_cols_In in Hin as (j & i & k & Hj & Hik & Hk & ->).
      rewrite !var_at_grid by nia. apply satisfies_table. simpl.
      apply ne_tuples_In. now apply Hc.
Qed.

Lemma grid_count n : Z.to_nat n * Z.to_nat n <= Z.to_nat (n * n).
Proof.
  destruct (Nat.eq_dec (Z.to_nat n) 0) as [E | E].
  - rewrite E. simpl. lia.
  - rewrite size_square; lia.
Qed.

(** X8.  binary_ne_grid raises exactly when the grid has no size entry;
    otherwise it returns a CSP whose constraints hold on a complete board
    exactly when any two cells of a row, and any two cells of a column, hold
    different values of [1 .. n]. *)
Theorem binary_ne_grid_meaning fpuzz_grid :
  (binary_ne_grid fpuzz_grid = None <-> grid_size fpuzz_grid = None)
  /\ forall n, grid_size fpuzz_grid = Some n ->
       exists csp brd,
         binary_ne_grid fpuzz_grid = Some (csp, brd)
         /\ forall a, solves a csp <-> rows_differ n a /\ cols_differ n a.
Proof.
  unfold binary_ne_grid. split.
  - destruct (grid_size fpuzz_grid); split; congruence.
  - intros n ->. do 2 eexists. split; [reflexivity|].
    intros a. unfold solves. simpl. apply ne_grid_meaning, grid_count.
Qed.

End GridEncodings.

Lemma binary_ne_grid_meaning_witness :
  exists csp brd,
    binary_ne_grid [[2%Z]] = Some (csp, brd)
    /\ forall a, solves a csp <-> rows_differ 2 a /\ cols_differ 2 a.
Proof.
  exact (proj2 (binary_ne_grid_meaning [[2%Z]]) 2%Z eq_refl).
Defined.

(* ================================================================== *)
(** * All-different rows and columns *)

Section AllDifferent.

Lemma dom_length n : length (dom n) = Z.to_nat n.
Proof. unfold dom. now rewrite length_map, length_seq. Qed.

Lemma dom_NoDup n : NoDup (dom n).
Proof.
  unfold dom. apply Finite.Injective_map_NoDup; [|apply seq_NoDup].
  intros i j H. lia.
Qed.

Lemma shifted_seq a : forall N s,
  map (fun j => a + j) (seq s N) = seq (a + s) N.
Proof.
  induction N as [|N IH]; intros s; simpl; [reflexivity|].
  f_equal. rewrite IH. f_equal. lia.
Qed.

Lemma row_cells_seq N i : row_cells N i = seq (i * N) N.
Proof.
  unfold row_cells. rewrite (shifted_seq (i * N) N 0). f_equal. lia.
Qed.

Lemma firstn_of_seq : forall k s len,
  firstn k (seq s len) = seq s (Nat.min k len).
Proof.
  induction k as [|k IH]; intros s [|len]; simpl; try reflexivity.
  now rewrite IH.
Qed.

Lemma slice_grid N M i :
  (i + 1) * N <= M ->
  slice (grid_vars M) (i * N) ((i + 1) * N) = row_cells N i.
Proof.
  intros H. unfold slice, grid_vars. rewrite skipn_seq, firstn_of_seq.
  rewrite row_cells_seq. simpl. f_equal. nia.
Qed.

Lemma col_scope N M j :
  N * N <= M -> j < N ->
  map (fun i => var_at (grid_vars M) (i * N + j)) (range N) = col_cells N j.
Proof.
  intros HM Hj. unfold col_cells, range. apply map_ext_in.
  intros i Hi. apply in_seq in Hi. apply var_at_grid. nia.
Qed.

Lemma nth_map_seq {A} (f : nat -> A) N j d :
  j < N -> nth j (map f (seq 0 N)) d = f j.
Proof.
  intros H. rewrite (nth_indep _ d (f 0)) by (now rewrite length_map, length_seq).
  now rewrite map_nth, seq_nth.
Qed.

Lemma satisfies_permutations a scope d :
  satisfies a (table_constraint scope (permutations d)) = true <->
  Permutation d (map a scope).
Proof. now rewrite satisfies_table, permutations_In. Qed.

Lemma ad_grid_meaning n M a :
  Z.to_nat n * Z.to_nat n <= M ->
  (forall c, In c (ad_rows (Z.to_nat n) (grid_vars M) (dom n)
                   ++ ad_cols (Z.to_nat n) (grid_vars M) (dom n))
             -> satisfies a c = true)
  <-> rows_cols_permute n a.
Proof.
  intros HM. set (N := Z.to_nat n) in *. split.
  - intros H i Hi. fold N in Hi |- *. split.
    + rewrite <- (slice_grid N M i) by nia.
      apply satisfies_permutations. apply H, in_or_app. left.
      unfold ad_rows. apply in_map_iff. exists i.
      split; [reflexivity | now apply range_In].
    + rewrite <- (col_scope N M i) by assumption.
      apply satisfies_permutations. apply H, in_or_app. right.
      unfold ad_cols. apply in_map_iff. exists i.
      split; [reflexivity | now apply range_In].
  - intros H c Hin. apply in_app_or in Hin as [Hin | Hin].
    + unfold ad_rows in Hin. apply in_map_iff in Hin as (i & <- & Hi).
      apply range_In in Hi. apply satisfies_permutations.
      rewrite slice_grid by nia. now apply H.
    + unfold ad_cols in Hin. apply in_map_iff in Hin as (j & <- & Hj).
      apply range_In in Hj. apply satisfies_permutations.
      rewrite col_scope by assumption. now apply H.
Qed.

(** X9.  nary_ad_grid raises exactly when the grid has no size entry;
    otherwise it returns a CSP whose constraints hold on a complete board
    exactly when every row and every column holds each value of [1 .. n]
    once. *)
Theorem nary_ad_grid_meaning fpuzz_grid :
  (nary_ad_grid fpuzz_grid = None <-> grid_size fpuzz_grid = None)
  /\ forall n, grid_size fpuzz_grid = Some n ->
       exists csp brd,
         nary_ad_grid fpuzz_grid = Some (csp, brd)
         /\ forall a, solves a csp <-> rows_cols_permute n a.
Proof.
  unfold nary_ad_grid. split.
  - destruct (grid_size fpuzz_grid); split; congruence.
  - intros n ->. do 2 eexists. split; [reflexivity|].
    intros a. unfold solves. simpl. apply ad_grid_meaning, grid_count.
Qed.

End AllDifferent.

Lemma nary_ad_grid_meaning_witness :
  exists csp brd,
    nary_ad_grid [[2%Z]] = Some (csp, brd)
    /\ forall a, solves a csp <-> rows_cols_permute 2 a.
Proof.
  exact (proj2 (nary_ad_grid_meaning [[2%Z]]) 2%Z eq_refl).
Defined.

(* ================================================================== *)
(** * The two grid encodings agree *)

Section EncodingsAgree.

(** Cells with values of the domain hold each value once exactly when they
    differ two by two. *)
Lemma permute_iff_differ n a (f : nat -> Var) :
  (forall j, j < Z.to_nat n -> In (a (f j)) (dom n)) ->
  Permutation (dom n) (map a (map f (seq 0 (Z.to_nat n))))
  <-> forall j k, j < k -> k < Z.to_nat n -> a (f j) <> a (f k).
Proof.
  intros Hdom. set (N := Z.to_nat n) in *. rewrite map_map.
  set (L := map (fun j => a (f j)) (seq 0 N)).
  assert (HL : length L = N) by (unfold L; now rewrite length_map, length_seq).
  assert (Hnth : forall j, j < N -> nth j L 0%Z = a (f j))
    by (intros j Hj; unfold L; now rewrite nth_map_seq).
  split.
  - intros HP j k Hjk Hk E.
    assert (Hnd : NoDup L)
      by (eapply Permutation_NoDup; [eassumption | apply dom_NoDup]).
    pose proof (proj1 (NoDup_nth L 0%Z) Hnd j k) as Hjk'.
    rewrite HL, !Hnth in Hjk' by lia.
    specialize (Hjk' ltac:(lia) ltac:(lia) E). lia.
  - intros Hd. apply Permutation_sym, NoDup_Permutation_bis.
    + apply (proj2 (NoDup_nth L 0%Z)). intros j k Hj Hk E.
      rewrite HL in Hj, Hk.
      rewrite !Hnth in E by assumption.
      destruct (Nat.lt_trichotomy j k) as [H | [H | H]]; [|assumption|].
      * exfalso. now apply (Hd j k).
      * exfalso. symmetry in E. now apply (Hd k j).
    + rewrite dom_length. fold N. lia.
    + intros x Hx. unfold L in Hx. apply in_map_iff in Hx as (j & <- & Hj).
      apply in_seq in Hj. apply Hdom. lia.
Qed.

Lemma differ_iff_permute n a :
  (forall i j, i < Z.to_nat n -> j < Z.to_nat n ->
               In (a (i * Z.to_nat n + j)) (dom n)) ->
  rows_differ n a /\ cols_differ n a <-> rows_cols_permute n a.
Proof.
  intros Hdom. split.
  - intros [Hr Hc] i Hi. split.
    + unfold row_cells. apply permute_iff_differ.
      * intros j Hj. now apply Hdom.
      * intros j k Hjk Hk. now apply (Hr i j k).
    + unfold col_cells. apply permute_iff_differ.
      * intros j Hj. now apply Hdom.
      * intros j k Hjk Hk. now apply (Hc i j k).
  - intros H. split.
    + intros i j k Hi Hjk Hk.
      repeat split; [apply Hdom; lia | apply Hdom; lia |].
      destruct (H i Hi) as [HP _]. unfold row_cells in HP.
      refine (proj1 (permute_iff_differ n a (fun j => i * Z.to_nat n + j) _)
                    HP j k Hjk Hk).
      intros j' Hj'. now apply Hdom.
    + intros j i k Hj Hik Hk.
      repeat split; [apply Hdom; lia | apply Hdom; lia |].
      destruct (H j Hj) as [_ HP]. unfold col_cells in HP.
      refine (proj1 (permute_iff_differ n a (fun i => i * Z.to_nat n + j) _)
                    HP i k Hik Hk).
      intros i' Hi'. now apply Hdom.
Qed.

Lemma permute_in_dom n a :
  rows_cols_permute n a ->
  forall i j, i < Z.to_nat n -> j < Z.to_nat n ->
              In (a (i * Z.to_nat n + j)) (dom n).
Proof.
  intros H i j Hi Hj. destruct (H i Hi) as [HP _].
  eapply Permutation_in; [apply Permutation_sym; eassumption|].
  apply in_map. unfold row_cells. apply in_map_iff. exists j.
  split; [reflexivity|]. apply in_seq. lia.
Qed.

Lemma differ_in_dom n a :
  2 <= Z.to_nat n -> rows_differ n a ->
  forall i j, i < Z.to_nat n -> j < Z.to_nat n ->
              In (a (i * Z.to_nat n + j)) (dom n).
Proof.
  intros H2 Hr i j Hi Hj. destruct (Nat.eq_dec j 0) as [-> | Hj0].
  - destruct (Hr i 0 1 Hi) as (H & _); [lia | lia | exact H].
  - destruct (Hr i 0 j Hi) as (_ & H & _); [lia | lia | exact H].
Qed.

(** X10.  binary_ne_grid and nary_ad_grid build, for the same grid, the same
    variables and the same board, and their constraints hold on the same
    complete boards, with one exception: on the grid of side 1
    binary_ne_grid has no constraint at all, while nary_ad_grid binds the
    single cell to 1. *)
Theorem grid_encodings_agree fpuzz_grid n :
  grid_size fpuzz_grid = Some n ->
  exists vars cons1 cons2 brd,
    binary_ne_grid fpuzz_grid = Some (mkCSP vars cons1, brd)
    /\ nary_ad_grid fpuzz_grid = Some (mkCSP vars cons2, brd)
    /\ forall a,
        (Z.to_nat n <> 1 ->
         (solves a (mkCSP vars cons1) <-> solves a (mkCSP vars cons2)))
        /\ (Z.to_nat n = 1 ->
            solves a (mkCSP vars cons1)
            /\ (solves a (mkCSP vars cons2) <-> a 0 = 1%Z)).
Proof.
  intros Hn. unfold binary_ne_grid, nary_ad_grid. rewrite Hn.
  do 4 eexists. split; [reflexivity|]. split; [reflexivity|].
  intros a. unfold solves. simpl.
  rewrite (ne_grid_meaning n _ a (grid_count n)).
  rewrite (ad_grid_meaning n _ a (grid_count n)).
  split.
  - intros H1. split.
    + intros [Hr Hc].
      destruct (Nat.eq_dec (Z.to_nat n) 0) as [H0 | H0].
      * intros i Hi. lia.
      * apply differ_iff_permute; [|now split].
        apply differ_in_dom; [lia | assumption].
    + intros HP. apply differ_iff_permute; [|assumption].
      now apply permute_in_dom.
  - intros H1. split.
    + split; intros i j k Hi Hjk Hk; lia.
    + assert (En : n = 1%Z) by lia. subst n. split.
      * intros HP. destruct (HP 0 ltac:(simpl; lia)) as [HP0 _].
        change (Permutation [1%Z] [a 0]) in HP0.
        apply Permutation_length_1 in HP0. now symmetry.
      * intros Ha i Hi. assert (i = 0) by (simpl in Hi; lia). subst i.
        change (Permutation [1%Z] [a 0] /\ Permutation [1%Z] [a 0]).
        rewrite Ha. split; apply Permutation_refl.
Qed.

End EncodingsAgree.

Lemma grid_encodings_agree_witness :
  exists vars cons1 cons2 brd,
    binary_ne_grid [[3%Z]] = Some (mkCSP vars cons1, brd)
    /\ nary_ad_grid [[3%Z]] = Some (mkCSP vars cons2, brd).
Proof.
  destruct (grid_encodings_agree [[3%Z]] 3%Z eq_refl)
    as (vars & cons1 & cons2 & brd & H1 & H2 & _).
  exists vars, cons1, cons2, brd. split; assumption.
Defined.

(* ================================================================== *)
(** * The board *)

Section BoardLayout.

Lemma board_rows N M :
  N * N <= M -> board N (grid_vars M) = map (row_cells N) (seq 0 N).
Proof.
  intros H. unfold board, range. apply map_ext_in. intros i Hi.
  apply in_seq in Hi. apply slice_grid. nia.
Qed.

Lemma board_layout_grid N M cons :
  N * N <= M -> board_layout N (mkCSP (grid_vars M) cons)
                             (board N (grid_vars M)).
Proof.
  intros H. rewrite board_rows by assumption. split.
  - now rewrite length_map, length_seq.
  - intros i Hi.
    rewrite (nth_indep _ [] (row_cells N 0))
      by (now rewrite length_map, length_seq).
    rewrite map_nth, seq_nth by assumption. simpl. split.
    + unfold row_cells. now rewrite length_map, length_seq.
    + intros j Hj. split.
      * unfold row_cells. now rewrite nth_map_seq.
      * simpl. unfold grid_vars. apply in_seq. nia.
Qed.

(** X11.  The board the three encodings return beside the CSP has [n] rows
    of [n] variables of the CSP, and the variable at row [i], column [j] is
    the one created at rank [i * n + j], the one the row and column
    constraints are built on. *)
Theorem encodings_board_layout fpuzz_grid csp brd n :
  grid_size fpuzz_grid = Some n ->
  binary_ne_grid fpuzz_grid = Some (csp, brd)
  \/ nary_ad_grid fpuzz_grid = Some (csp, brd)
  \/ caged_csp fpuzz_grid = Some (csp, brd) ->
  board_layout (Z.to_nat n) csp brd.
Proof.
  intros Hn. unfold binary_ne_grid, nary_ad_grid, caged_csp. rewrite Hn.
  intros [E | [E | E]].
  - injection E as <- <-. apply board_layout_grid, grid_count.
  - injection E as <- <-. apply board_layout_grid, grid_count.
  - destruct (map_opt _ _); [|discriminate].
    injection E as <- <-. apply board_layout_grid. lia.
Qed.

End BoardLayout.

Lemma encodings_board_layout_witness :
  exists csp brd,
    caged_csp [[2]; [11; 2]]%Z = Some (csp, brd)
    /\ board_layout 2 csp brd.
Proof.
  do 2 eexists. split; [reflexivity|].
  refine (encodings_board_layout [[2]; [11; 2]]%Z _ _ 2%Z eq_refl
            (or_intror (or_intror eq_refl))).
Defined.

(* ================================================================== *)
(** * The cages *)

Section Cages.

Lemma map_opt_In {A B} (f : A -> option B) : forall l ys,
  map_opt f l = Some ys ->
  forall y, In y ys <-> exists x, In x l /\ f x = Some y.
Proof.
  induction l as [|x l IH]; intros ys; simpl.
  - intros E. injection E as <-. intros y. split; [intros [] |].
    intros (x & [] & _).
  - destruct (f x) as [y0|] eqn:Hx; [|discriminate].
    destruct (map_opt f l) as [ys0|]; [|discriminate].
    intros E. injection E as <-. intros y. simpl. rewrite (IH ys0 eq_refl).
    split.
    + intros [<- | (x' & H1 & H2)]; eauto.
    + intros (x' & [<- | H1] & H2); [left; congruence | eauto].
Qed.

Lemma map_opt_None {A B} (f : A -> option B) : forall l,
  map_opt f l = None <-> exists x, In x l /\ f x = None.
Proof.
  induction l as [|x l IH]; simpl.
  - split; [discriminate | intros (x & [] & _)].
  - destruct (f x) as [y0|] eqn:Hx.
    + destruct (map_opt f l) as [ys0|].
      * split; [discriminate|]. intros (x' & [<- | H1] & H2); [congruence|].
        assert (H : Some ys0 = None) by (apply IH; eauto).
        discriminate.
      * split; [|reflexivity]. intros _.
        destruct (proj1 IH eq_refl) as (x' & H1 & H2). eauto.
    + split; [|reflexivity]. intros _. eauto.
Qed.

Lemma cage_sat_tuples_In n k cage_op cage_res t :
  In t (cage_sat_tuples n k cage_op cage_res) <->
  length t = k /\ Forall (fun x => In x (dom n)) t
  /\ op_rule cage_op cage_res t.
Proof.
  unfold cage_sat_tuples, op_rule.
  destruct (Z.eqb cage_op 0); [|destruct (Z.eqb cage_op 1);
                                [|destruct (Z.eqb cage_op 2)]].
  - rewrite filter_In, product_In, Z.eqb_eq. tauto.
  - apply perm_cage_accepts.
  - apply perm_cage_accepts.
  - rewrite filter_In, product_In, Z.eqb_eq. tauto.
Qed.

Lemma split_last_two (cage : list Z) cage_op cage_res cells :
  rev cage = cage_op :: cage_res :: cells ->
  firstn (length cage - 2) cage = rev cells
  /\ nth (length cage - 1) cage 0%Z = cage_op
  /\ nth (length cage - 2) cage 0%Z = cage_res.
Proof.
  intros H.
  assert (E : cage = rev cells ++ [cage_res; cage_op]).
  { rewrite <- (rev_involutive cage), H. simpl. now rewrite <- app_assoc. }
  subst cage. rewrite length_app. simpl.
  replace (length (rev cells) + 2 - 2) with (length (rev cells)) by lia.
  replace (length (rev cells) + 2 - 1) with (length (rev cells) + 1) by lia.
  repeat split.
  - rewrite firstn_app, Nat.sub_diag, firstn_all. simpl. apply app_nil_r.
  - rewrite app_nth2 by lia.
    replace (length (rev cells) + 1 - length (rev cells)) with 1 by lia.
    reflexivity.
  - rewrite app_nth2 by lia. rewrite Nat.sub_diag. reflexivity.
Qed.

(** The constraint of a cage holds on a board exactly when the board
    satisfies the cage. *)
Lemma cage_con_meaning n vars a cage c :
  cage_con n vars cage = Some c ->
  satisfies a c = true <-> cage_holds n vars a cage.
Proof.
  unfold cage_holds. destruct cage as [|x [|y [|z l]]].
  - discriminate.
  - discriminate.
  - simpl. destruct (cell_var n vars x) as [v|]; [|discriminate].
    intros E. injection E as <-. unfold single_cell_constraint.
    rewrite satisfies_table. simpl. split.
    + intros [H | []]. exists [v]. repeat split; auto.
    + intros (vs & E & _ & H). injection E as <-. left. now symmetry.
  - set (cage := x :: y :: z :: l).
    change (cage_con n vars cage)
      with (match rev cage with
            | cage_op :: cage_res :: cells =>
                match map_opt (cell_var n vars) (rev cells) with
                | Some cage_vars =>
                    Some (cage_constraint n cage_vars cage_op cage_res)
                | None => None
                end
            | _ => None
            end).
    change (cage_cells cage) with (firstn (length cage - 2) cage).
    change (cage_rule cage)
      with (op_rule (nth (length cage - 1) cage 0%Z)
                    (nth (length cage - 2) cage 0%Z)).
    assert (Hlen : length cage <> 2) by (simpl; lia).
    destruct (rev cage) as [|cage_op [|cage_res cells]] eqn:Hrev;
      try discriminate.
    destruct (split_last_two cage _ _ _ Hrev) as (-> & -> & ->).
    destruct (map_opt (cell_var n vars) (rev cells)) as [vs|];
      [|discriminate].
    intros E. injection E as <-. unfold cage_constraint.
    rewrite satisfies_table, cage_sat_tuples_In, length_map. split.
    + intros (_ & Hf & Hr). exists vs. auto.
    + intros (vs' & E & [Hl | Hf] & Hr); [contradiction|].
      injection E as <-. auto.
Qed.

(** X12.  When caged_csp returns a CSP, its constraints hold on a complete
    board exactly when any two cells of a row and of a column hold
    different values of [1 .. n] and every cage of the grid is satisfied: a
    cage of a cell and a value by that value, a cage with an operation by
    values of [1 .. n] whose sum (0) or product (other codes) is the target,
    or one ordering of which passes the subtraction (1) or division (2)
    test. *)
Theorem caged_csp_meaning fpuzz_grid n csp brd :
  grid_size fpuzz_grid = Some n ->
  caged_csp fpuzz_grid = Some (csp, brd) ->
  forall a,
    solves a csp <->
    rows_differ n a /\ cols_differ n a
    /\ forall cage, In cage (tl fpuzz_grid) ->
         cage_holds n (grid_vars (Z.to_nat n * Z.to_nat n)) a cage.
Proof.
  intros Hn. unfold caged_csp. rewrite Hn.
  set (vars := grid_vars (Z.to_nat n * Z.to_nat n)).
  destruct (map_opt (cage_con n vars) (tl fpuzz_grid)) as [cages|] eqn:Hc;
    [|discriminate].
  intros E a. injection E as <- <-. unfold solves. simpl.
  pose proof (ne_grid_meaning n (Z.to_nat n * Z.to_nat n) a (Nat.le_refl _))
    as Hgrid. fold vars in Hgrid.
  pose proof (map_opt_In _ _ _ Hc) as Hin. split.
  - intros H.
    assert (Hg : rows_differ n a /\ cols_differ n a).
    { apply Hgrid. intros c Hc'. apply H, in_or_app. now left. }
    destruct Hg as [Hr Hcl]. split; [assumption|]. split; [assumption|].
    intros cage Hcage.
    destruct (cage_con n vars cage) as [c|] eqn:Hcon.
    + apply (cage_con_meaning _ _ a _ _ Hcon). apply H, in_or_app. right.
      apply Hin. eauto.
    + exfalso.
      assert (Hnone : map_opt (cage_con n vars) (tl fpuzz_grid) = None)
        by (apply map_opt_None; eauto).
      congruence.
  - intros (Hr & Hcl & Hcages) c Hc'. apply in_app_or in Hc' as [Hc' | Hc'].
    + now apply (proj2 Hgrid (conj Hr Hcl)).
    + apply Hin in Hc' as (cage & Hcage & Hcon).
      apply (cage_con_meaning _ _ a _ _ Hcon). now apply Hcages.
Qed.

End Cages.

Lemma caged_csp_meaning_witness :
  exists csp brd,
    caged_csp [[2]; [11; 2]]%Z = Some (csp, brd)
    /\ forall a,
        solves a csp <->
        rows_differ 2 a /\ cols_differ 2 a
        /\ forall cage, In cage [[11; 2]]%Z ->
             cage_holds 2 (grid_vars 4) a cage.
Proof.
  do 2 eexists. split; [reflexivity|].
  exact (caged_csp_meaning [[2]; [11; 2]]%Z 2%Z _ _ eq_refl eq_refl).
Defined.

(* ================================================================== *)
(** * Cell codes *)

Section CellCodes.

Lemma nth_error_grid M i : i < M -> nth_error (grid_vars M) i = Some i.
Proof.
  intros H. unfold grid_vars.
  rewrite (nth_error_nth' _ 0) by (now rewrite length_seq).
  now rewrite seq_nth.
Qed.

Lemma nth_error_grid_out M i : M <= i -> nth_error (grid_vars M) i = None.
Proof.
  intros H. apply nth_error_None. unfold grid_vars. now rewrite length_seq.
Qed.

Lemma py_index_grid M k :
  ((0 <= k < Z.of_nat M)%Z ->
   py_index (grid_vars M) k = Some (Z.to_nat k))
  /\ ((- Z.of_nat M <= k < 0)%Z ->
      py_index (grid_vars M) k = Some (Z.to_nat (Z.of_nat M + k)))
  /\ ((Z.of_nat M <= k \/ k < - Z.of_nat M)%Z ->
      py_index (grid_vars M) k = None).
Proof.
  unfold py_index.
  assert (HL : length (grid_vars M) = M) by (unfold grid_vars; apply length_seq).
  rewrite HL. repeat split.
  - intros H. destruct (Z.leb_spec 0 k); [|lia]. apply nth_error_grid. lia.
  - intros H. destruct (Z.leb_spec 0 k); [lia|].
    destruct (Z.leb_spec (- Z.of_nat M) k); [|lia]. apply nth_error_grid. lia.
  - intros H. destruct (Z.leb_spec 0 k).
    + apply nth_error_grid_out. lia.
    + destruct (Z.leb_spec (- Z.of_nat M) k); [lia | reflexivity].
Qed.

(** X13.  Cell codes.  On a grid of side [n <= 9] the code
    [10 * (r + 1) + (c + 1)] of row [r] and column [c] decodes to the
    variable of rank [r * n + c], the one the board holds at row [r] and
    column [c].  Other codes are decoded by Python indexing of the variable
    list with the index [(cell // 10 - 1) * n + (cell % 10 - 1)]: an index
    in range selects that rank, a negative index down to [- n * n] silently
    selects a variable counted from the end, and only an index outside
    [- n * n .. n * n - 1] raises. *)
Theorem cell_var_decodes n cell :
  let N := Z.to_nat n in
  let k := ((cell / 10 - 1) * n + (cell mod 10 - 1))%Z in
  (forall r c, r < N -> c < N -> N <= 9 ->
     cell = (10 * (Z.of_nat r + 1) + (Z.of_nat c + 1))%Z ->
     cell_var n (grid_vars (N * N)) cell = Some (r * N + c))
  /\ ((0 <= k < Z.of_nat (N * N))%Z ->
      cell_var n (grid_vars (N * N)) cell = Some (Z.to_nat k))
  /\ ((- Z.of_nat (N * N) <= k < 0)%Z ->
      cell_var n (grid_vars (N * N)) cell
      = Some (Z.to_nat (Z.of_nat (N * N) + k)))
  /\ ((Z.of_nat (N * N) <= k \/ k < - Z.of_nat (N * N))%Z ->
      cell_var n (grid_vars (N * N)) cell = None).
Proof.
  intros N k. unfold cell_var. fold k.
  destruct (py_index_grid (N * N) k) as (H1 & H2 & H3).
  split; [|auto].
  intros r c Hr Hc H9 Hcell.
  assert (Hdiv : (cell / 10 = Z.of_nat r + 1)%Z)
    by (subst cell; Z.div_mod_to_equations; lia).
  assert (Hmod : (cell mod 10 = Z.of_nat c + 1)%Z)
    by (subst cell; Z.div_mod_to_equations; lia).
  assert (Hn : n = Z.of_nat N) by (unfold N; lia).
  assert (Hk : k = Z.of_nat (r * N + c)).
  { unfold k. rewrite Hdiv, Hmod, Hn. lia. }
  rewrite H1; [rewrite Hk; f_equal; lia|].
  rewrite Hk. split; [lia|]. apply inj_lt. nia.
Qed.

End CellCodes.

Lemma cell_var_decodes_witness :
  cell_var 3 (grid_vars 9) 23 = Some 5.
Proof.
  exact (proj1 (cell_var_decodes 3 23) 1 2 ltac:(simpl; lia) ltac:(simpl; lia)
           ltac:(simpl; lia) eq_refl).
Defined.

(* ================================================================== *)
(** * When caged_csp raises *)

Section CagedErrors.

Lemma cage_con_None n vars cage :
  cage_con n vars cage = None <->
  length cage < 2
  \/ exists cell, In cell (cage_cells cage) /\ cell_var n vars cell = None.
Proof.
  destruct cage as [|x [|y [|z l]]].
  - simpl. split; [intros _; left; lia | reflexivity].
  - simpl. split; [intros _; left; lia | reflexivity].
  - simpl. destruct (cell_var n vars x) as [v|] eqn:Hx.
    + split; [discriminate|].
      intros [H | (cell & [<- | []] & H)]; [lia | congruence].
    + split; [|reflexivity]. intros _. right. exists x. auto.
  - set (cage := x :: y :: z :: l).
    change (cage_con n vars cage)
      with (match rev cage with
            | cage_op :: cage_res :: cells =>
                match map_opt (cell_var n vars) (rev cells) with
                | Some cage_vars =>
                    Some (cage_constraint n cage_vars cage_op cage_res)
                | None => None
                end
            | _ => None
            end).
    change (cage_cells cage) with (firstn (length cage - 2) cage).
    assert (Hlen : 3 <= length (rev cage)) by (rewrite length_rev; simpl; lia).
    assert (Hlen' : ~ length cage < 2) by (simpl; lia).
    destruct (rev cage) as [|cage_op [|cage_res cells]] eqn:Hrev;
      try (simpl in Hlen; lia).
    destruct (split_last_two cage _ _ _ Hrev) as (-> & _ & _).
    destruct (map_opt (cell_var n vars) (rev cells)) as [vs|] eqn:Hm.
    + split; [discriminate|]. intros [H | H]; [contradiction|].
      apply map_opt_None in H. congruence.
    + split; [|reflexivity]. intros _. right. now apply map_opt_None.
Qed.

(** X14.  caged_csp raises exactly when the grid has no size entry, or one
    of its cages has fewer than two entries, or one of its cages names a
    cell whose code does not decode to a variable; in every other case it
    returns a CSP and a board. *)
Theorem caged_csp_raises fpuzz_grid :
  caged_csp fpuzz_grid = None <->
  grid_size fpuzz_grid = None
  \/ exists n cage,
       grid_size fpuzz_grid = Some n
       /\ In cage (tl fpuzz_grid)
       /\ (length cage < 2
           \/ exists cell,
                In cell (cage_cells cage)
                /\ cell_var n (grid_vars (Z.to_nat n * Z.to_nat n)) cell
                   = None).
Proof.
  unfold caged_csp. destruct (grid_size fpuzz_grid) as [n|].
  - destruct (map_opt (cage_con n (grid_vars (Z.to_nat n * Z.to_nat n)))
                      (tl fpuzz_grid)) as [cages|] eqn:Hm.
    + split; [discriminate|].
      intros [H | (n' & cage & E & Hin & H)]; [discriminate|].
      injection E as <-. apply cage_con_None in H.
      assert (Hnone : map_opt (cage_con n
                                 (grid_vars (Z.to_nat n * Z.to_nat n)))
                              (tl fpuzz_grid) = None)
        by (apply map_opt_None; eauto).
      congruence.
    + split; [|reflexivity]. intros _. right.
      apply map_opt_None in Hm as (cage & Hin & H).
      apply cage_con_None in H. exists n, cage. auto.
  - split; [auto | reflexivity].
Qed.

End CagedErrors.

(* ================================================================== *)
(** * The order of the cells of a cage *)

Section CageOrder.

Lemma sum_permutation t t' : Permutation t t' -> sum t = sum t'.
Proof.
  induction 1 as [| x l l' _ IH | x y l | l1 l2 l3 _ IH1 _ IH2]; simpl;
    [reflexivity | now rewrite IH | lia | congruence].
Qed.

Lemma prod_permutation t t' : Permutation t t' -> prod t = prod t'.
Proof.
  induction 1 as [| x l l' _ IH | x y l | l1 l2 l3 _ IH1 _ IH2]; simpl;
    [reflexivity | now rewrite IH | lia | congruence].
Qed.

Lemma op_rule_permutation cage_op cage_res t t' :
  Permutation t t' -> op_rule cage_op cage_res t -> op_rule cage_op cage_res t'.
Proof.
  intros H. unfold op_rule.
  destruct (Z.eqb cage_op 0); [|destruct (Z.eqb cage_op 1);
                                [|destruct (Z.eqb cage_op 2)]].
  - now rewrite (sum_permutation _ _ H).
  - intros (p & Hp & Ht). exists p. split; [|assumption].
    eapply perm_trans; eassumption.
  - intros (p & Hp & Ht). exists p. split; [|assumption].
    eapply perm_trans; eassumption.
  - now rewrite (prod_permutation _ _ H).
Qed.

(** X15.  An addition cage (operation 0) accepts exactly the tuples of
    values of [1 .. n], one per cell, whose sum is the target, and a cage
    with any operation code other than 0, 1, 2 those whose product is the
    target; and for every operation code, reordering a tuple never changes
    whether the cage constraint accepts it. *)
Theorem cage_constraint_order_independent n cage_vars cage_op cage_res t :
  (check (cage_constraint n cage_vars 0 cage_res) t = true <->
   length t = length cage_vars /\ Forall (fun x => In x (dom n)) t
   /\ sum t = cage_res)
  /\ (cage_op <> 0%Z -> cage_op <> 1%Z -> cage_op <> 2%Z ->
      (check (cage_constraint n cage_vars cage_op cage_res) t = true <->
       length t = length cage_vars /\ Forall (fun x => In x (dom n)) t
       /\ prod t = cage_res))
  /\ (forall t', Permutation t t' ->
        check (cage_constraint n cage_vars cage_op cage_res) t
        = check (cage_constraint n cage_vars cage_op cage_res) t').
Proof.
  unfold cage_constraint, table_constraint. simpl. split; [|split].
  - rewrite mem_tuple_In, cage_sat_tuples_In. reflexivity.
  - intros H0 H1 H2. rewrite mem_tuple_In, cage_sat_tuples_In.
    unfold op_rule.
    destruct (Z.eqb_spec cage_op 0); [contradiction|].
    destruct (Z.eqb_spec cage_op 1); [contradiction|].
    destruct (Z.eqb_spec cage_op 2); [contradiction|]. reflexivity.
  - intros t' H. apply eq_true_iff_eq.
    rewrite !mem_tuple_In, !cage_sat_tuples_In.
    split; intros (Hl & Hf & Hr); repeat split.
    + now rewrite <- (Permutation_length H).
    + eapply Permutation_Forall; eassumption.
    + eapply op_rule_permutation; eassumption.
    + now rewrite (Permutation_length H).
    + eapply Permutation_Forall; [apply Permutation_sym|]; eassumption.
    + eapply op_rule_permutation; [apply Permutation_sym|]; eassumption.
Qed.

End CageOrder.

Lemma caged_csp_raises_witness : caged_csp [[2]; [5]]%Z = None.
Proof.
  apply (proj2 (caged_csp_raises [[2]; [5]]%Z)). right.
  exists 2%Z, [5%Z]. split; [reflexivity|]. split; [now left|].
  left. simpl. lia.
Defined.

Lemma cage_constraint_order_independent_witness :
  check (cage_constraint 3 [0; 1; 2] 0 6) [1; 2; 3]%Z
  = check (cage_constraint 3 [0; 1; 2] 0 6) [3; 1; 2]%Z.
Proof.
  apply (proj2 (proj2 (cage_constraint_order_independent
                         3 [0; 1; 2] 0 6 [1; 2; 3]%Z))).
  apply Permutation_sym.
  apply (Permutation_cons_app [1; 2]%Z [] 3%Z (Permutation_refl _)).
Defined.

(* ================================================================== *)
(** * Propagators and encodings together *)

Section PropagatorsOnGrids.

Lemma BT_cons_complete st a cs :
  (forall v, get_assigned_value st v = Some (a v)) ->
  BT_cons st cs = true <-> forall c, In c cs -> satisfies a c = true.
Proof.
  intros Ha.
  assert (Hn : forall c, get_n_unasgn st c = 0).
  { intros c. unfold get_n_unasgn, get_unasgn_vars.
    induction (get_scope c) as [|u scope IH]; simpl; [reflexivity|].
    unfold is_assigned. now rewrite Ha. }
  assert (Ht : forall c, BT_tuple st c = map a (get_scope c)).
  { intros c. unfold BT_tuple. apply map_ext. intros u.
    unfold assigned_or_zero. now rewrite Ha. }
  induction cs as [|c cs IH]; simpl.
  - split; [intros _ c [] | reflexivity].
  - rewrite Hn. simpl. rewrite Ht. fold (satisfies a c).
    destruct (satisfies a c) eqn:Hs.
    + rewrite IH. split.
      * intros H c' [<- | Hc']; auto.
      * intros H c' Hc'. apply H. now right.
    + split; [discriminate|]. intros H.
      rewrite <- Hs. apply H. now left.
Qed.

(** X16.  On a complete assignment prop_BT checks the constraints of the
    trigger: when every variable is assigned, prop_BT called for a variable
    returns success exactly when the assigned values satisfy every
    constraint with that variable in its scope. *)
Theorem prop_BT_on_complete_assignment csp st a x :
  (forall v, get_assigned_value st v = Some (a v)) ->
  prop_BT csp st (Some x) = Returned true [] st
  <-> forall c, In c (get_cons_with_var csp x) -> satisfies a c = true.
Proof.
  intros Ha. simpl. rewrite <- (BT_cons_complete st a _ Ha).
  destruct (BT_cons st (get_cons_with_var csp x)); split; congruence.
Qed.

Lemma other_value n d : (2 <= n)%Z ->
  exists d', In d' (dom n) /\ d <> d'.
Proof.
  intros H. destruct (Z.eq_dec d 1) as [-> | Hd].
  - exists 2%Z. split; [apply dom_In; lia | lia].
  - exists 1%Z. split; [apply dom_In; lia | assumption].
Qed.

Lemma ne_constraint_revised n x y v :
  x <> y -> (2 <= n)%Z -> In v [x; y] ->
  revised (fresh_store n) (table_constraint [x; y] (ne_tuples (dom n))) v.
Proof.
  intros Hxy Hn Hv d Hd. change (In d (dom n)) in Hd.
  destruct (other_value n d Hn) as (d' & Hd' & Hne).
  apply has_support_true. simpl.
  destruct Hv as [<- | [<- | []]].
  - exists [d; d']. split.
    + constructor; [now rewrite Nat.eqb_refl|]. constructor; [|constructor].
      destruct (Nat.eqb_spec y x); [congruence | exact Hd'].
    + apply mem_tuple_In, ne_tuples_In. auto.
  - exists [d'; d]. split.
    + constructor.
      * destruct (Nat.eqb_spec x y); [congruence | exact Hd'].
      * constructor; [now rewrite Nat.eqb_refl | constructor].
    + apply mem_tuple_In, ne_tuples_In. auto.
Qed.

Lemma ne_grid_constraints n M c :
  Z.to_nat n * Z.to_nat n <= M ->
  In c (ne_rows (Z.to_nat n) (grid_vars M) (ne_tuples (dom n))
        ++ ne_cols (Z.to_nat n) (grid_vars M) (ne_tuples (dom n))) ->
  (2 <= n)%Z
  /\ exists x y, x <> y
                 /\ c = table_constraint [x; y] (ne_tuples (dom n)).
Proof.
  intros HM Hin. apply in_app_or in Hin as [Hin | Hin].
  - apply ne_rows_In in Hin as (i & j & k & Hi & Hjk & Hk & ->).
    split; [lia|]. rewrite !var_at_grid by nia.
    exists (i * Z.to_nat n + j), (i * Z.to_nat n + k). split; [lia | reflexivity].
  - apply ne_cols_In in Hin as (j & i & k & Hj & Hik & Hk & ->).
    split; [lia|]. rewrite !var_at_grid by nia.
    exists (i * Z.to_nat n + j), (k * Z.to_nat n + j). split; [nia | reflexivity].
Qed.

(** X17.  Before any assignment the propagators leave a grid alone: on the
    CSP binary_ne_grid returns, with the variables as they were created
    (full domains, nothing assigned), prop_BT, prop_FC and prop_FI called
    without a trigger all return success with an empty trace and an
    unchanged store. *)
Theorem propagators_idle_on_fresh_grid fpuzz_grid n csp brd :
  grid_size fpuzz_grid = Some n ->
  binary_ne_grid fpuzz_grid = Some (csp, brd) ->
  prop_BT csp (fresh_store n) None = Returned true [] (fresh_store n)
  /\ prop_FC csp (fresh_store n) None = Returned true [] (fresh_store n)
  /\ prop_FI csp (fresh_store n) None
     = Some (Returned true [] (fresh_store n)).
Proof.
  intros Hn. unfold binary_ne_grid. rewrite Hn. intros E.
  injection E as <- _. split; [reflexivity|]. split.
  - unfold prop_FC. apply FC_cons_idle. simpl. intros c Hc.
    destruct (ne_grid_constraints n _ c (grid_count n) Hc)
      as (_ & x & y & _ & ->).
    discriminate.
  - unfold prop_FI. apply FI_loop_quiet; [unfold FI_rounds; lia|].
    intros w c v _ Hc Hv _. apply get_cons_with_var_In in Hc as [Hc _].
    simpl in Hc.
    destruct (ne_grid_constraints n _ c (grid_count n) Hc)
      as (H2 & x & y & Hxy & ->).
    now apply ne_constraint_revised.
Qed.

End PropagatorsOnGrids.

Lemma prop_BT_on_complete_assignment_witness :
  prop_BT csp_ab (fun _ => assigned [1; 2]%Z 1%Z) (Some 1)
  = Returned true [] (fun _ => assigned [1; 2]%Z 1%Z)
  <-> forall c, In c (get_cons_with_var csp_ab 1) ->
                satisfies (fun _ => 1%Z) c = true.
Proof.
  apply (prop_BT_on_complete_assignment csp_ab
           (fun _ => assigned [1; 2]%Z 1%Z) (fun _ => 1%Z) 1).
  intros v. reflexivity.
Defined.

Lemma propagators_idle_on_fresh_grid_witness :
  exists csp brd,
    binary_ne_grid [[3%Z]] = Some (csp, brd)
    /\ prop_FI csp (fresh_store 3) None
       = Some (Returned true [] (fresh_store 3)).
Proof.
  do 2 eexists. split; [reflexivity|].
  exact (proj2 (proj2 (propagators_idle_on_fresh_grid [[3%Z]] 3%Z _ _
                         eq_refl eq_refl))).
Defined.

(* ================================================================== *)
(** * Single-cell cages under forward checking *)

Section SingleCellCages.

Variable csp : CSP.

(** X18.  Forward checking before the search enforces the single-cell
    cages: when prop_FC called without a trigger returns success on a CSP
    that holds the constraint of a cage [[cell, target]] on an unassigned
    variable, that variable keeps a value and every value it keeps is the
    target. *)
Theorem prop_FC_enforces_single_cell_cages st tr st' v target_val :
  In (single_cell_constraint v target_val) (get_all_cons csp) ->
  get_assigned_value st v = None ->
  prop_FC csp st None = Returned true tr st' ->
  cur_domain st' v <> []
  /\ forall d, In d (cur_domain st' v) -> d = target_val.
Proof.
  intros Hc Hv E. unfold prop_FC in E.
  destruct (FC_cons_success csp None _ (incl_refl _) _ _ _ _ E) as [_ Hpost].
  assert (HU : get_unasgn_vars st (single_cell_constraint v target_val) = [v]).
  { unfold get_unasgn_vars, is_assigned. simpl. now rewrite Hv. }
  destruct (Hpost _ v Hc HU) as [Hne Hchk]. split; [assumption|].
  intros d Hd. specialize (Hchk d Hd).
  unfold single_cell_constraint, table_constraint, FC_tuple in Hchk.
  simpl in Hchk. rewrite Nat.eqb_refl in Hchk.
  apply mem_tuple_In in Hchk. destruct Hchk as [H | []]. congruence.
Qed.

End SingleCellCages.

Lemma prop_FC_enforces_single_cell_cages_witness :
  exists tr st',
    prop_FC csp_grid st_grid None = Returned true tr st'
    /\ forall d, In d (cur_domain st' 0) -> d = 2%Z.
Proof.
  do 2 eexists. split; [reflexivity|].
  refine (proj2 (prop_FC_enforces_single_cell_cages csp_grid st_grid
                   _ _ 0 2%Z _ eq_refl eq_refl)).
  unfold only_two. simpl. auto 6.
Defined.

(* ================================================================== *)
(** * The size of the encodings *)

Section EncodingSizes.

Lemma pairs_count N : forall m, m <= N ->
  2 * list_sum (map (fun j => length (range_from (j + 1) N)) (seq 0 m))
  + m * m + m = 2 * m * N.
Proof.
  induction m as [|m IH]; intros Hm; [reflexivity|].
  rewrite seq_S, map_app, list_sum_app. specialize (IH ltac:(lia)).
  set (S0 := list_sum (map (fun j => length (range_from (j + 1) N))
                           (seq 0 m))) in *.
  assert (E : list_sum (map (fun j => length (range_from (j + 1) N))
                            [0 + m]) = N - (m + 1)).
  { simpl. unfold range_from. rewrite length_seq. lia. }
  rewrite E. nia.
Qed.

Lemma ne_rows_length N vars sat :
  length (ne_rows N vars sat) * 2 = N * (N * (N - 1)).
Proof.
  unfold ne_rows.
  rewrite (flat_map_constant_length
             (c := list_sum (map (fun j => length (range_from (j + 1) N))
                                 (range N)))).
  - unfold range at 1. rewrite length_seq.
    pose proof (pairs_count N N (Nat.le_refl _)) as H. unfold range. nia.
  - intros i _. rewrite length_flat_map. f_equal. apply map_ext.
    intros j. now rewrite length_map.
Qed.

Lemma ne_cols_length N vars sat :
  length (ne_cols N vars sat) * 2 = N * (N * (N - 1)).
Proof.
  unfold ne_cols.
  rewrite (flat_map_constant_length
             (c := list_sum (map (fun j => length (range_from (j + 1) N))
                                 (range N)))).
  - unfold range at 1. rewrite length_seq.
    pose proof (pairs_count N N (Nat.le_refl _)) as H. unfold range. nia.
  - intros i _. rewrite length_flat_map. f_equal. apply map_ext.
    intros j. now rewrite length_map.
Qed.

Lemma insert_all_length x : forall l, length (insert_all x l) = S (length l).
Proof.
  induction l as [|y l IH]; [reflexivity|].
  change (insert_all x (y :: l))
    with ((x :: y :: l) :: map (cons y) (insert_all x l)).
  cbn [length]. rewrite length_map. f_equal. exact IH.
Qed.

Lemma permutations_length : forall t,
  length (permutations t) = fact (length t)
  /\ forall p, In p (permutations t) -> length p = length t.
Proof.
  induction t as [|x t [IH1 IH2]]; simpl.
  - split; [reflexivity|]. intros p [<- | []]. reflexivity.
  - split.
    + rewrite (flat_map_constant_length (c := S (length t))).
      * rewrite IH1. lia.
      * intros p Hp. rewrite insert_all_length. f_equal. now apply IH2.
    + intros p Hp. apply in_flat_map in Hp as (q & Hq & Hp).
      apply insert_all_In in Hp as (l1 & l2 & -> & ->).
      apply IH2 in Hq. rewrite length_app in *. simpl. lia.
Qed.

Lemma map_opt_length {A B} (f : A -> option B) : forall l ys,
  map_opt f l = Some ys -> length ys = length l.
Proof.
  induction l as [|x l IH]; intros ys; simpl.
  - intros E. now injection E as <-.
  - destruct (f x); [|discriminate].
    destruct (map_opt f l) as [ys0|]; [|discriminate].
    intros E. injection E as <-. simpl. f_equal. now apply IH.
Qed.

(** X19.  The size of the encodings of a grid of side [n].  binary_ne_grid
    creates [n * n] variables and [n * n * (n - 1)] binary constraints;
    nary_ad_grid creates the same variables and [2 * n] constraints, each
    with the [n!] orderings of the domain as tuples; caged_csp creates the
    variables and constraints of binary_ne_grid and one more constraint per
    cage. *)
Theorem encoding_sizes fpuzz_grid n :
  grid_size fpuzz_grid = Some n ->
  (exists csp brd,
      binary_ne_grid fpuzz_grid = Some (csp, brd)
      /\ length (get_all_vars csp) = Z.to_nat (n * n)
      /\ length (get_all_cons csp)
         = Z.to_nat n * (Z.to_nat n * (Z.to_nat n - 1)))
  /\ (exists csp brd,
         nary_ad_grid fpuzz_grid = Some (csp, brd)
         /\ length (get_all_vars csp) = Z.to_nat (n * n)
         /\ length (get_all_cons csp) = 2 * Z.to_nat n
         /\ length (permutations (dom n)) = fact (Z.to_nat n))
  /\ (forall csp brd,
         caged_csp fpuzz_grid = Some (csp, brd) ->
         length (get_all_vars csp) = Z.to_nat n * Z.to_nat n
         /\ length (get_all_cons csp)
            = Z.to_nat n * (Z.to_nat n * (Z.to_nat n - 1))
              + length (tl fpuzz_grid)).
Proof.
  intros Hn. unfold binary_ne_grid, nary_ad_grid, caged_csp. rewrite Hn.
  split; [|split].
  - do 2 eexists. split; [reflexivity|]. simpl. split.
    + unfold grid_vars. apply length_seq.
    + rewrite length_app.
      pose proof (ne_rows_length (Z.to_nat n) (grid_vars (Z.to_nat (n * n)))
                    (ne_tuples (dom n))).
      pose proof (ne_cols_length (Z.to_nat n) (grid_vars (Z.to_nat (n * n)))
                    (ne_tuples (dom n))).
      lia.
  - do 2 eexists. split; [reflexivity|]. simpl. split; [|split].
    + unfold grid_vars. apply length_seq.
    + unfold ad_rows, ad_cols, range.
      rewrite length_app, !length_map, !length_seq. lia.
    + rewrite (proj1 (permutations_length (dom n))), dom_length. reflexivity.
  - intros csp brd.
    destruct (map_opt _ (tl fpuzz_grid)) as [cages|] eqn:Hm; [|discriminate].
    intros E. injection E as <- _. simpl. split.
    + unfold grid_vars. apply length_seq.
    + rewrite !length_app, (map_opt_length _ _ _ Hm).
      pose proof (ne_rows_length (Z.to_nat n)
                    (grid_vars (Z.to_nat n * Z.to_nat n)) (ne_tuples (dom n))).
      pose proof (ne_cols_length (Z.to_nat n)
                    (grid_vars (Z.to_nat n * Z.to_nat n)) (ne_tuples (dom n))).
      lia.
Qed.

End EncodingSizes.

Lemma encoding_sizes_witness :
  exists csp brd,
    binary_ne_grid [[3%Z]] = Some (csp, brd)
    /\ length (get_all_vars csp) = 9
    /\ length (get_all_cons csp) = 18.
Proof.
  exact (proj1 (encoding_sizes [[3%Z]] 3%Z eq_refl)).
Defined.

(** caged_csp on the grid of side 2 with the single-cell cage [[11, 2]]:
    four variables, the two row and the two column constraints, and the
    unary constraint of the top-left cell. *)
Example caged_csp_small_grid :
  exists csp brd,
    caged_csp [[2]; [11; 2]]%Z = Some (csp, brd)
    /\ get_all_vars csp = get_all_vars csp_grid
    /\ map get_scope (get_all_cons csp) = map get_scope (get_all_cons csp_grid)
    /\ brd = [[0; 1]; [2; 3]]
    /\ nth 4 (get_all_cons csp) only_two = only_two.
Proof. do 2 eexists. repeat split. Qed.
